(** * hermespy: the stochastic multipath fading channel

    A shallow embedding of [hermespy/channel/multipath_fading_channel.py].

    Conventions of the embedding.
    - A Python/numpy [float] is an exact real number ([R]); the one place
      where the source distinguishes an infinite value (the Rice factor, and
      the quotient of [min_sampling_rate]) uses [xreal], the reals extended
      by [+inf].  Rounding, [nan] and [-inf] are outside the model.
    - A complex number is a pair of reals.
    - An exception is a value of [exn]; a computation that may raise returns
      a [result].
    - The private random stream [self._rng] is threaded explicitly: a state
      is a sequence of unit variates together with the position reached in
      it, and every draw moves the position on. *)

From Stdlib Require Import String Reals Lra Lia ZArith Bool List Permutation Sorted.
Import ListNotations.

Open Scope R_scope.

(** ** Exceptions and results *)

Inductive exn : Set :=
| ValueError
| IndexError
| ZeroDivisionError
| TypeError.

Inductive result (A : Type) : Type :=
| Ok (a : A)
| Raise (e : exn).

Arguments Ok {A} a.
Arguments Raise {A} e.

Definition bind {A B : Type} (m : result A) (k : A -> result B) : result B :=
  match m with
  | Ok a => k a
  | Raise e => Raise e
  end.

Notation "x <- m ;; k" := (bind m (fun x => k))
  (at level 61, m at next level, right associativity).

Definition raises {A : Type} (m : result A) (e : exn) : Prop := m = Raise e.

(** ** Numbers *)

Definition Rltb (x y : R) : bool := if Rlt_dec x y then true else false.
Definition Rleb (x y : R) : bool := if Rle_dec x y then true else false.

(** A float that may be [+inf]. *)
Inductive xreal : Type :=
| Finite (r : R)
| PosInf.

(** [x < 0.0] on a possibly infinite float. *)
Definition xneg (x : xreal) : bool :=
  match x with
  | Finite r => Rltb r 0
  | PosInf => false
  end.

(** [np.isposinf]. *)
Definition isposinf (x : xreal) : bool :=
  match x with
  | Finite _ => false
  | PosInf => true
  end.

(** [np.any(a < 0.0)]. *)
Definition any_neg (a : list R) : bool := existsb (fun x => Rltb x 0) a.
Definition any_xneg (a : list xreal) : bool := existsb xneg a.

(** ** Sorting: [np.argsort] and fancy indexing

    [np.argsort] is modelled by a stable insertion sort of the indices.
    numpy's default sort need not keep the order of equal delays on long
    vectors; the theorems on constructed channels rely on the result being
    a permutation of the indices that puts the delays in ascending order,
    and none on the order among equal delays. *)

Fixpoint insert_idx (d : list R) (i : nat) (l : list nat) : list nat :=
  match l with
  | [] => [i]
  | j :: l' =>
      if Rleb (nth i d 0) (nth j d 0) then i :: l else j :: insert_idx d i l'
  end.

Definition argsort (d : list R) : list nat :=
  fold_right (insert_idx d) [] (seq 0 (length d)).

(** [a[sorting]] *)
Definition take {A : Type} (dflt : A) (a : list A) (sorting : list nat) : list A :=
  map (fun i => nth i a dflt) sorting.

(** ** The channel object *)

(** The attributes the base class [Channel] keeps; its source,
    [channel/channel.py], is not available, and the attributes are supplied
    at construction through [**kwargs]. *)
Record Channel : Type := mkChannel {
  active : bool;
  gain : R;
  transmitter_num_antennas : nat;
  receiver_num_antennas : nat;
  sync_offset_low : R;
  sync_offset_high : R;
  impulse_response_interpolation : bool
}.

Record MultipathFadingChannel : Type := mkMultipathFadingChannel {
  base : Channel;
  delays : list R;
  power_profile : list R;
  rice_factors : list xreal;
  max_delay : R;
  num_resolvable_paths : nat;
  num_sinusoids : Z;
  los_angle : option R;
  doppler_frequency : R;
  los_doppler_frequency_field : option R;
  interpolate_signals : option bool;
  los_gains : list R;
  non_los_gains : list R
}.

(** [los_gains] and [non_los_gains], one entry per Rice factor. *)
Definition los_gain_of (k : xreal) : R :=
  match k with
  | PosInf => 1
  | Finite r => sqrt (r / (1 + r))
  end.

Definition non_los_gain_of (k : xreal) : R :=
  match k with
  | PosInf => 0
  | Finite r => 1 / sqrt (1 + r)
  end.

(** [max(self.__delays)] of a non-empty vector. *)
Definition list_max (a : list R) : R := fold_right Rmax (hd 0 a) a.

(** The signs the checks of [__init__] tell apart. *)
Definition xnonneg (k : xreal) : Prop :=
  match k with
  | Finite r => 0 <= r
  | PosInf => True
  end.

Definition negative (x : R) : Prop := x < 0.

Definition xnegative (k : xreal) : Prop :=
  match k with
  | Finite r => r < 0
  | PosInf => False
  end.

(** The configurations the constructor is meant to refuse. *)
Definition invalid_path_set (d p : list R) (k : list xreal) : Prop :=
  length d <> length p \/ length p <> length k \/ length d = 0%nat \/
  Exists negative d \/ Exists negative p \/ Exists xnegative k.

(** The checks at the head of [__init__]; the arguments are vectors, so the
    [ndim] check never fires. *)
Definition validate (delays_arg power_arg : list R) (rice_arg : list xreal)
  : result unit :=
  if negb (length delays_arg =? length power_arg)%nat
     || negb (length power_arg =? length rice_arg)%nat
  then Raise ValueError
  else if (length delays_arg <? 1)%nat then Raise ValueError
  else if any_neg delays_arg then Raise ValueError
  else if any_neg power_arg then Raise ValueError
  else if any_xneg rice_arg then Raise ValueError
  else Ok tt.

(** [MultipathFadingChannel.__init__] *)
Definition init (delays_arg power_arg : list R) (rice_arg : list xreal)
    (num_sinusoids_arg : option Z) (los_angle_arg : option R)
    (doppler_arg los_doppler_arg : option R)
    (interpolate_arg : option bool) (kwargs : Channel)
  : result MultipathFadingChannel :=
  _ <- validate delays_arg power_arg rice_arg ;;
  let sorting := argsort delays_arg in
  let ds := take 0 delays_arg sorting in
  let ps := take 0 power_arg sorting in
  let ks := take PosInf rice_arg sorting in
  Ok {| base := kwargs;
        delays := ds;
        power_profile := ps;
        rice_factors := ks;
        max_delay := list_max ds;
        num_resolvable_paths := length ds;
        num_sinusoids := match num_sinusoids_arg with
                         | None => 20%Z
                         | Some n => n
                         end;
        los_angle := los_angle_arg;
        doppler_frequency := match doppler_arg with
                             | None => 0
                             | Some f => f
                             end;
        los_doppler_frequency_field := los_doppler_arg;
        interpolate_signals := interpolate_arg;
        los_gains := map los_gain_of ks;
        non_los_gains := map non_los_gain_of ks |}.

(** The [num_sinusoids] setter. *)
Definition set_num_sinusoids (num : Z) (ch : MultipathFadingChannel)
  : result MultipathFadingChannel :=
  if (num <? 0)%Z then Raise ValueError
  else Ok {| base := base ch;
             delays := delays ch;
             power_profile := power_profile ch;
             rice_factors := rice_factors ch;
             max_delay := max_delay ch;
             num_resolvable_paths := num_resolvable_paths ch;
             num_sinusoids := num;
             los_angle := los_angle ch;
             doppler_frequency := doppler_frequency ch;
             los_doppler_frequency_field := los_doppler_frequency_field ch;
             interpolate_signals := interpolate_signals ch;
             los_gains := los_gains ch;
             non_los_gains := non_los_gains ch |}.

(** The [los_doppler_frequency] property. *)
Definition los_doppler_frequency (ch : MultipathFadingChannel) : R :=
  match los_doppler_frequency_field ch with
  | None => doppler_frequency ch
  | Some f => f
  end.

(** ** Complex numbers and vectors of them *)

Definition C : Type := (R * R)%type.

Definition C0 : C := (0, 0).
Definition Cadd (a b : C) : C := (fst a + fst b, snd a + snd b).
Definition Cmul (a b : C) : C :=
  (fst a * fst b - snd a * snd b, fst a * snd b + snd a * fst b).
Definition Cscale (r : R) (a : C) : C := (r * fst a, r * snd a).

(** [exp(1j * theta)] *)
Definition Cexp_j (theta : R) : C := (cos theta, sin theta).

(** Element-wise sum of two vectors of one length. *)
Fixpoint vadd (a b : list C) : list C :=
  match a, b with
  | x :: a', y :: b' => Cadd x y :: vadd a' b'
  | _, _ => []
  end.

Definition vscale (r : R) (a : list C) : list C := map (Cscale r) a.

(** ** The random stream *)

(** A generator is the sequence of unit variates it will produce and the
    position it has reached in it. *)
Record rng_state : Type := mkRng {
  variates : nat -> R;
  cursor : nat
}.

Definition advance (g : rng_state) (n : nat) : rng_state :=
  {| variates := variates g; cursor := cursor g + n |}.

(** The variate [i] places ahead of the cursor. *)
Definition peek (g : rng_state) (i : nat) : R := variates g (cursor g + i).

(** [rng.uniform(lo, hi)] *)
Definition uniform (lo hi : R) (g : rng_state) : R * rng_state :=
  (lo + (hi - lo) * peek g 0, advance g 1).

(** [rng.uniform(lo, hi, n)]: a negative size is refused. *)
Definition uniform_n (lo hi : R) (n : Z) (g : rng_state)
  : result (list R * rng_state) :=
  if (n <? 0)%Z then Raise ValueError
  else Ok (map (fun i => lo + (hi - lo) * peek g i) (seq 0 (Z.to_nat n)),
           advance g (Z.to_nat n)).

(** A generator that returns the same variate for ever. *)
Definition constant_rng (u : R) : rng_state :=
  {| variates := fun _ => u; cursor := 0 |}.

Notation "' p <- m ;; k" := (bind m (fun x => match x with p => k end))
  (at level 61, p pattern, m at next level, right associativity).

(** ** [__tap]: one fading sequence *)

Definition nlos_sinusoid (ch : MultipathFadingChannel) (timestamps : list R)
    (nlos_angles nlos_phases : list R) (s : nat) : list C :=
  map (fun t =>
         Cexp_j (doppler_frequency ch * t *
                   cos ((2 * PI * INR s + nth s nlos_angles 0)
                        / IZR (num_sinusoids ch))
                 + nth s nlos_phases 0))
      timestamps.

Definition tap (ch : MultipathFadingChannel) (timestamps : list R)
    (los_gain nlos_gain : R) (g : rng_state)
  : result (list C * rng_state) :=
  ' (nlos_angles, g1) <- uniform_n 0 (2 * PI) (num_sinusoids ch) g ;;
  ' (nlos_phases, g2) <- uniform_n 0 (2 * PI) (num_sinusoids ch) g1 ;;
  let nlos_component :=
    fold_left (fun acc s =>
                 vadd acc (nlos_sinusoid ch timestamps nlos_angles nlos_phases s))
              (seq 0 (Z.to_nat (num_sinusoids ch)))
              (repeat C0 (length timestamps)) in
  (* num_sinusoids ** -.5 *)
  if (num_sinusoids ch =? 0)%Z then Raise ZeroDivisionError
  else
    let nlos_component :=
      vscale (nlos_gain * / sqrt (IZR (num_sinusoids ch))) nlos_component in
    let (angle, g3) :=
      match los_angle ch with
      | Some a => (a, g2)
      | None => uniform 0 (2 * PI) g2
      end in
    let los_doppler := los_doppler_frequency ch in
    let (los_phase, g4) := uniform 0 (2 * PI) g3 in
    let los_component :=
      map (fun t =>
             Cscale los_gain (Cexp_j (los_doppler * t * cos angle + los_phase)))
          timestamps in
    Ok (vadd los_component nlos_component, g4).

(** ** Four-dimensional arrays *)

Record ndarray4 : Type := mkArray {
  dim0 : nat;
  dim1 : nat;
  dim2 : nat;
  dim3 : nat;
  data : list (list (list (list C)))
}.

(** [np.zeros((n0, n1, n2, n3), dtype=complex)]; the last extent is computed
    and may be negative. *)
Definition zeros (n0 n1 n2 : nat) (n3 : Z) : result ndarray4 :=
  if (n3 <? 0)%Z then Raise ValueError
  else Ok {| dim0 := n0; dim1 := n1; dim2 := n2; dim3 := Z.to_nat n3;
             data := repeat (repeat (repeat (repeat C0 (Z.to_nat n3)) n2) n1) n0 |}.

(** An index into an axis of extent [dim]: negative indices count from the
    end. *)
Definition norm_index (i : Z) (dim : nat) : result nat :=
  if (0 <=? i)%Z && (i <? Z.of_nat dim)%Z then Ok (Z.to_nat i)
  else if (- Z.of_nat dim <=? i)%Z && (i <? 0)%Z
       then Ok (Z.to_nat (i + Z.of_nat dim))
       else Raise IndexError.

Fixpoint upd {A : Type} (i : nat) (f : A -> A) (l : list A) : list A :=
  match l, i with
  | [], _ => []
  | x :: l', O => f x :: l'
  | x :: l', S i' => x :: upd i' f l'
  end.

Fixpoint map2 {A B D : Type} (f : A -> B -> D) (a : list A) (b : list B) : list D :=
  match a, b with
  | x :: a', y :: b' => f x y :: map2 f a' b'
  | _, _ => []
  end.

(** [a[:, rx, tx, k] += w] *)
Definition iadd_tap (a : ndarray4) (rx tx : nat) (k : Z) (w : list C)
  : result ndarray4 :=
  rx' <- norm_index (Z.of_nat rx) (dim1 a) ;;
  tx' <- norm_index (Z.of_nat tx) (dim2 a) ;;
  k' <- norm_index k (dim3 a) ;;
  if negb (length w =? dim0 a)%nat then Raise ValueError
  else Ok {| dim0 := dim0 a; dim1 := dim1 a; dim2 := dim2 a; dim3 := dim3 a;
             data := map2 (fun plane wn =>
                             upd rx' (upd tx' (upd k' (fun c => Cadd c wn))) plane)
                          (data a) w |}.

(** [a[:, rx, tx, :] += np.outer(w, f)] *)
Definition iadd_outer (a : ndarray4) (rx tx : nat) (w : list C) (f : list R)
  : result ndarray4 :=
  rx' <- norm_index (Z.of_nat rx) (dim1 a) ;;
  tx' <- norm_index (Z.of_nat tx) (dim2 a) ;;
  if negb (length w =? dim0 a)%nat || negb (length f =? dim3 a)%nat
  then Raise ValueError
  else Ok {| dim0 := dim0 a; dim1 := dim1 a; dim2 := dim2 a; dim3 := dim3 a;
             data := map2 (fun plane wn =>
                             upd rx' (upd tx' (fun row =>
                               map2 (fun c fk => Cadd c (Cscale fk wn)) row f))
                                 plane)
                          (data a) w |}.

(** [gain * a] *)
Definition smul (r : R) (a : ndarray4) : ndarray4 :=
  {| dim0 := dim0 a; dim1 := dim1 a; dim2 := dim2 a; dim3 := dim3 a;
     data := map (map (map (map (Cscale r)))) (data a) |}.

(** [a[n, rx, tx, k]] for in-range indices ([None] outside). *)
Definition item (a : ndarray4) (n rx tx k : nat) : option C :=
  match nth_error (data a) n with
  | Some plane =>
      match nth_error plane rx with
      | Some line =>
          match nth_error line tx with
          | Some row => nth_error row k
          | None => None
          end
      | None => None
      end
  | None => None
  end.

(** ** Delays on the sample grid *)

(** [math.floor] *)
Definition floor (r : R) : Z := Int_part r.

(** [int(r)]: truncation towards zero. *)
Definition int_of (r : R) : Z :=
  if Rle_dec 0 r then Int_part r else (- Int_part (- r))%Z.

(** [a[-1]] *)
Definition last_item {A : Type} (a : list A) : result A :=
  match rev a with
  | [] => Raise IndexError
  | x :: _ => Ok x
  end.

(** [a[i]] for an index produced by [range]. *)
Definition get_item {A : Type} (a : list A) (i : nat) : result A :=
  match nth_error a i with
  | Some x => Ok x
  | None => Raise IndexError
  end.

(** [np.sinc] *)
Definition sinc (x : R) : R :=
  if Req_dec_T x 0 then 1 else sin (PI * x) / (PI * x).

(** Modelled from the spec: [delay_resampling_matrix] of [tools/resampling.py],
    which is not available.  Entry [[k, i]] is the sinc evaluated at the
    offset, in samples, between output instant [k / sampling_rate - delay] and
    input instant [i / sampling_rate]. *)
Definition delay_resampling_matrix (sampling_rate : R) (num_samples_in : nat)
    (delay : R) (num_samples_out : Z) : list (list R) :=
  map (fun k =>
         map (fun i =>
                sinc ((INR k / sampling_rate - delay - INR i / sampling_rate)
                      * sampling_rate))
             (seq 0 num_samples_in))
      (seq 0 (Z.to_nat num_samples_out)).

(** [np.linalg.norm] of a matrix: the Frobenius norm. *)
Definition frobenius (m : list (list R)) : R :=
  sqrt (fold_right Rplus 0 (map (fun x => x * x) (concat m))).

(** [interpolation_filter]; on a constructed channel there are as many
    paths as delays, so no row of [np.empty] stays unwritten. *)
Definition interpolation_filter (ch : MultipathFadingChannel) (sampling_rate : R)
  : result (list (list R)) :=
  last_delay <- last_item (delays ch) ;;
  let num_delay_samples := int_of (last_delay * sampling_rate) in
  if (num_delay_samples + 1 <? 0)%Z then Raise ValueError
  else if (num_resolvable_paths ch <? length (delays ch))%nat then Raise IndexError
  else
    Ok (map (fun delay =>
               let resampling_matrix :=
                 delay_resampling_matrix sampling_rate 1 delay
                                         (num_delay_samples + 1) in
               map (fun line => nth 0 line 0 / frobenius resampling_matrix)
                   resampling_matrix)
            (delays ch)).

(** ** [impulse_response] *)

Fixpoint foldM {A S : Type} (f : S -> A -> result S) (l : list A) (s : S)
  : result S :=
  match l with
  | [] => Ok s
  | x :: l' => s' <- f s x ;; foldM f l' s'
  end.

(** The body of the inner loop, for one path and one antenna pair. *)
Definition deposit (ch : MultipathFadingChannel) (sampling_rate : R)
    (timestamps : list R) (interpolation : option (list (list R)))
    (power : R) (path_idx : nat) (los_gain nlos_gain : R)
    (st : ndarray4 * rng_state) (pair : nat * nat)
  : result (ndarray4 * rng_state) :=
  let (a, g) := st in
  let (rx_idx, tx_idx) := pair in
  ' (t, g') <- tap ch timestamps los_gain nlos_gain g ;;
  let signal_weights := vscale (sqrt power) t in
  match interpolation with
  | Some filter =>
      f <- get_item filter path_idx ;;
      a' <- iadd_outer a rx_idx tx_idx signal_weights f ;;
      Ok (a', g')
  | None =>
      delay <- get_item (delays ch) path_idx ;;
      let delay_idx := int_of (delay * sampling_rate) in
      a' <- iadd_tap a rx_idx tx_idx delay_idx signal_weights ;;
      Ok (a', g')
  end.

(** [zip(power_profile, range(num_resolvable_paths), los_gains, non_los_gains)] *)
Definition path_table (ch : MultipathFadingChannel)
  : list (R * (nat * (R * R))) :=
  combine (power_profile ch)
          (combine (seq 0 (num_resolvable_paths ch))
                   (combine (los_gains ch) (non_los_gains ch))).

(** [product(range(transmitter.num_antennas), range(receiver.num_antennas))] *)
Definition antenna_pairs (ch : MultipathFadingChannel) : list (nat * nat) :=
  list_prod (seq 0 (transmitter_num_antennas (base ch)))
            (seq 0 (receiver_num_antennas (base ch))).

(** The body of the outer loop: one path, all antenna pairs. *)
Definition deposit_path (ch : MultipathFadingChannel) (sampling_rate : R)
    (timestamps : list R) (interpolation : option (list (list R)))
    (st : ndarray4 * rng_state) (entry : R * (nat * (R * R)))
  : result (ndarray4 * rng_state) :=
  let '(power, (path_idx, (los_gain, nlos_gain))) := entry in
  foldM (deposit ch sampling_rate timestamps interpolation
                 power path_idx los_gain nlos_gain)
        (antenna_pairs ch) st.

Definition timestamps_of (num_samples : nat) (sampling_rate : R) : list R :=
  map (fun n => INR n / sampling_rate) (seq 0 num_samples).

Definition impulse_response (ch : MultipathFadingChannel) (num_samples : nat)
    (sampling_rate : R) (g : rng_state) : result (ndarray4 * rng_state) :=
  last_delay <- last_item (delays ch) ;;
  let max_delay_in_samples := int_of (last_delay * sampling_rate) in
  let timestamps := timestamps_of num_samples sampling_rate in
  a0 <- zeros num_samples (receiver_num_antennas (base ch))
              (transmitter_num_antennas (base ch)) (max_delay_in_samples + 1) ;;
  interpolation <-
    (if impulse_response_interpolation (base ch)
     then f <- interpolation_filter ch sampling_rate ;; Ok (Some f)
     else Ok None) ;;
  ' (a, g') <-
    foldM (deposit_path ch sampling_rate timestamps interpolation)
          (path_table ch) (a0, g) ;;
  Ok (smul (gain (base ch)) a, g').

(** ** [min_sampling_rate] *)

Definition delay_resolution_error : R := 4 / 10.

(** [np.diff] *)
Definition diff (a : list R) : list R := map2 (fun x y => y - x) a (tl a).

(** [np.min]: an empty array has no minimum. *)
Definition np_min (a : list R) : result R :=
  match a with
  | [] => Raise ValueError
  | x :: a' => Ok (fold_left Rmin a' x)
  end.

(** Float division of a positive numerator: division by zero yields [+inf]. *)
Definition float_div (a b : R) : xreal :=
  if Req_dec_T b 0 then PosInf else Finite (a / b).

Definition min_sampling_rate (ch : MultipathFadingChannel) : result R :=
  if impulse_response_interpolation (base ch) then Ok 0
  else
    gap <- np_min (diff (delays ch)) ;;
    match float_div (1 - delay_resolution_error) gap with
    | PosInf => Ok 0
    | Finite min_rate => Ok min_rate
    end.

(** ** Serialization *)

(** The values of a YAML mapping. *)
Inductive yaml : Type :=
| YNone
| YBool (b : bool)
| YInt (z : Z)
| YFloat (r : R)
| YSeq (l : list R)
| YSeqInf (l : list xreal).

Definition mapping : Type := list (string * yaml).

Fixpoint lookup (key : string) (m : mapping) : option yaml :=
  match m with
  | [] => None
  | (k, v) :: m' => if String.eqb key k then Some v else lookup key m'
  end.

Fixpoint remove_key (key : string) (m : mapping) : mapping :=
  match m with
  | [] => []
  | (k, v) :: m' =>
      if String.eqb key k then remove_key key m' else (k, v) :: remove_key key m'
  end.

Definition yaml_of_option (o : option R) : yaml :=
  match o with
  | None => YNone
  | Some r => YFloat r
  end.

Definition yaml_of_flag (o : option bool) : yaml :=
  match o with
  | None => YNone
  | Some b => YBool b
  end.

(** [to_yaml]: the [state] dictionary handed to the representer. *)
Definition to_yaml (node : MultipathFadingChannel) : mapping :=
  [ ("delays", YSeq (delays node));
    ("power_profile", YSeq (power_profile node));
    ("active", YBool (active (base node)));
    ("gain", YFloat (gain (base node)));
    ("num_sinusoids", YInt (num_sinusoids node));
    ("los_angle", yaml_of_option (los_angle node));
    ("doppler_frequency", YFloat (doppler_frequency node));
    ("los_doppler_frequency", YFloat (los_doppler_frequency node));
    ("interpolate_signals", yaml_of_flag (interpolate_signals node));
    ("sync_offset_low", YFloat (sync_offset_low (base node)));
    ("sync_offset_high", YFloat (sync_offset_high (base node))) ]%string.

(** [10 ** (x / 10)] *)
Definition db2lin (db_val : R) : R := Rpower 10 (db_val / 10).

(** An optional float keyword. *)
Definition float_kw (key : string) (state : mapping) : result (option R) :=
  match lookup key state with
  | None | Some YNone => Ok None
  | Some (YFloat r) => Ok (Some r)
  | Some (YInt z) => Ok (Some (IZR z))
  | Some _ => Raise TypeError
  end.

(** The keywords that [__init__] hands on to the base class; what the
    mapping does not name keeps the base class default. *)
Definition channel_kwargs (defaults : Channel) (state : mapping) : result Channel :=
  act <- match lookup "active" state with
         | None => Ok (active defaults)
         | Some (YBool b) => Ok b
         | Some _ => Raise TypeError
         end ;;
  gn <- float_kw "gain" state ;;
  lo <- float_kw "sync_offset_low" state ;;
  hi <- float_kw "sync_offset_high" state ;;
  Ok {| active := act;
        gain := match gn with Some r => r | None => gain defaults end;
        transmitter_num_antennas := transmitter_num_antennas defaults;
        receiver_num_antennas := receiver_num_antennas defaults;
        sync_offset_low :=
          match lo with Some r => r | None => sync_offset_low defaults end;
        sync_offset_high :=
          match hi with Some r => r | None => sync_offset_high defaults end;
        impulse_response_interpolation :=
          impulse_response_interpolation defaults |}.

(** The call of [cls] with the mapping as keywords: the three vectors are
    required arguments, and a call that leaves one out is a [TypeError].
    The entries are read at the types the signature of [__init__] gives
    them; an entry of another type, which Python would store unchecked or
    refuse with another exception, is refused here, and the theorems that
    say a mapping is read state the types of its entries
    ([optional_entries_typed]). *)
Definition construct (defaults : Channel) (state : mapping)
  : result MultipathFadingChannel :=
  match lookup "delays" state, lookup "power_profile" state,
        lookup "rice_factors" state with
  | Some d, Some p, Some k =>
      ds <- match d with YSeq l => Ok l | _ => Raise TypeError end ;;
      ps <- match p with YSeq l => Ok l | _ => Raise TypeError end ;;
      ks <- match k with
            | YSeq l => Ok (map Finite l)
            | YSeqInf l => Ok l
            | _ => Raise TypeError
            end ;;
      ns <- match lookup "num_sinusoids" state with
            | None | Some YNone => Ok None
            | Some (YInt z) => Ok (Some z)
            | Some _ => Raise TypeError
            end ;;
      la <- float_kw "los_angle" state ;;
      df <- float_kw "doppler_frequency" state ;;
      ldf <- float_kw "los_doppler_frequency" state ;;
      interp <- match lookup "interpolate_signals" state with
                | None | Some YNone => Ok None
                | Some (YBool b) => Ok (Some b)
                | Some _ => Raise TypeError
                end ;;
      kwargs <- channel_kwargs defaults state ;;
      init ds ps ks ns la df ldf interp kwargs
  | _, _, _ => Raise TypeError
  end.

(** The head of [from_yaml]: the power profile is popped and put back
    converted from dB to linear scale. *)
Definition convert_power_profile (state : mapping) : mapping :=
  let power_profile := lookup "power_profile" state in
  let state := remove_key "power_profile" state in
  match power_profile with
  | Some (YSeq p) => state ++ [("power_profile"%string, YSeq (map db2lin p))]
  | Some YNone | None => state
  | Some v => state ++ [("power_profile"%string, v)]
  end.

(** [from_yaml], applied to the mapping the constructor rebuilt. *)
Definition from_yaml (defaults : Channel) (state : mapping)
  : result MultipathFadingChannel :=
  construct defaults (convert_power_profile state).

(** ** Propagation *)

Definition Csum (l : list C) : C := fold_right Cadd C0 l.

Definition item0 (a : ndarray4) (n rx tx k : nat) : C :=
  match item a n rx tx k with
  | Some c => c
  | None => C0
  end.

(** Modelled from the spec: [Channel.propagate] of [channel/channel.py], which
    is not available.  The received signal has
    [input_length + num_delay_taps - 1] samples per receive antenna; the
    sample of antenna [r] is the sum over the transmit antennas [t] of the
    convolution of the waveform of [t] with [H[:, r, t, :]]: input sample [n]
    weighted by [H[n, r, t, k]] arrives at output instant [n + k]. *)
Definition convolve (h : ndarray4) (x : list (list C)) (input_length : nat)
  : list (list C) :=
  map (fun r =>
         map (fun m =>
                Csum (map (fun t =>
                  Csum (map (fun k =>
                    if (k <=? m)%nat && (m - k <? input_length)%nat
                    then Cmul (item0 h (m - k) r t k)
                              (nth (m - k) (nth t x []) C0)
                    else C0)
                    (seq 0 (dim3 h))))
                  (seq 0 (dim2 h))))
             (seq 0 (input_length + dim3 h - 1)))
      (seq 0 (dim1 h)).

(** Modelled from the spec: [Channel.propagate] draws the impulse response for
    as many samples as the input has and convolves the input with it. *)
Definition propagate (ch : MultipathFadingChannel) (x : list (list C))
    (sampling_rate : R) (g : rng_state) : result (list (list C) * rng_state) :=
  let input_length := length (hd [] x) in
  ' (h, g') <- impulse_response ch input_length sampling_rate g ;;
  Ok (convolve h x input_length, g').

(** A channel base with one antenna on each side, unit gain, no
    interpolation. *)
Definition siso : Channel :=
  {| active := true; gain := 1;
     transmitter_num_antennas := 1; receiver_num_antennas := 1;
     sync_offset_low := 0; sync_offset_high := 0;
     impulse_response_interpolation := false |}.

(** A channel base with two transmit antennas and one receive antenna. *)
Definition two_by_one : Channel :=
  {| active := true; gain := 1;
     transmitter_num_antennas := 2; receiver_num_antennas := 1;
     sync_offset_low := 0; sync_offset_high := 0;
     impulse_response_interpolation := false |}.

(** The [gain] setter of the base class, as seen from the fading channel. *)
Definition with_gain (gn : R) (ch : MultipathFadingChannel)
  : MultipathFadingChannel :=
  {| base := {| active := active (base ch);
                gain := gn;
                transmitter_num_antennas := transmitter_num_antennas (base ch);
                receiver_num_antennas := receiver_num_antennas (base ch);
                sync_offset_low := sync_offset_low (base ch);
                sync_offset_high := sync_offset_high (base ch);
                impulse_response_interpolation :=
                  impulse_response_interpolation (base ch) |};
     delays := delays ch;
     power_profile := power_profile ch;
     rice_factors := rice_factors ch;
     max_delay := max_delay ch;
     num_resolvable_paths := num_resolvable_paths ch;
     num_sinusoids := num_sinusoids ch;
     los_angle := los_angle ch;
     doppler_frequency := doppler_frequency ch;
     los_doppler_frequency_field := los_doppler_frequency_field ch;
     interpolate_signals := interpolate_signals ch;
     los_gains := los_gains ch;
     non_los_gains := non_los_gains ch |}.

(** A result with its value transformed. *)
Definition on_value {A B : Type} (f : A -> B) (m : result (A * rng_state))
  : result (B * rng_state) :=
  ' (a, g) <- m ;; Ok (f a, g).

(** [g * y] for a signal of several antennas. *)
Definition sigscale (r : R) (y : list (list C)) : list (list C) :=
  map (map (Cscale r)) y.

(** What one call of [__tap] takes from the random stream: the angles and
    the phases of the sinusoids first, then the line-of-sight angle unless
    one is configured, then the line-of-sight phase. *)
Definition sinusoid_draws (ch : MultipathFadingChannel) : nat :=
  (2 * Z.to_nat (num_sinusoids ch))%nat.

Definition los_angle_of (ch : MultipathFadingChannel) (g : rng_state) : R :=
  match los_angle ch with
  | Some a => a
  | None => 2 * PI * peek g (sinusoid_draws ch)
  end.

Definition los_phase_of (ch : MultipathFadingChannel) (g : rng_state) : R :=
  2 * PI * peek g (sinusoid_draws ch
                   + match los_angle ch with Some _ => 0 | None => 1 end).

Definition draws_per_tap (ch : MultipathFadingChannel) : nat :=
  (sinusoid_draws ch + match los_angle ch with Some _ => 1 | None => 2 end)%nat.

(** The line-of-sight phasor at instant [t]. *)
Definition los_phasor (ch : MultipathFadingChannel) (g : rng_state) (t : R) : C :=
  Cexp_j (los_doppler_frequency ch * t * cos (los_angle_of ch g)
          + los_phase_of ch g).

(** The channel built from one path of delay zero. *)
Definition single_path (power : R) (K : xreal) (ns : option Z)
    (la df ldf : option R) (interp : option bool) (kw : Channel)
  : MultipathFadingChannel :=
  {| base := kw; delays := [0]; power_profile := [power];
     rice_factors := [K]; max_delay := Rmax 0 0;
     num_resolvable_paths := 1;
     num_sinusoids := match ns with None => 20%Z | Some n => n end;
     los_angle := la;
     doppler_frequency := match df with None => 0 | Some f => f end;
     los_doppler_frequency_field := ldf;
     interpolate_signals := interp;
     los_gains := [los_gain_of K];
     non_los_gains := [non_los_gain_of K] |}.

(** [abs(c) ** 2] *)
Definition Cnorm2 (c : C) : R := fst c * fst c + snd c * snd c.

(** The channel built from delays [1, 0], powers [1, 2] and Rice factors
    [1, inf]: the paths come out ordered by delay. *)
Definition two_paths : MultipathFadingChannel :=
  {| base := siso; delays := [0; 1]; power_profile := [2; 1];
     rice_factors := [PosInf; Finite 1]; max_delay := Rmax 0 (Rmax 1 0);
     num_resolvable_paths := 2; num_sinusoids := 20; los_angle := None;
     doppler_frequency := 0; los_doppler_frequency_field := None;
     interpolate_signals := None;
     los_gains := [1; sqrt (1 / (1 + 1))];
     non_los_gains := [0; 1 / sqrt (1 + 1)] |}.

(** A zero array of one sample, one antenna pair and three delay taps. *)
Definition three_taps : ndarray4 :=
  {| dim0 := 1; dim1 := 1; dim2 := 1; dim3 := 3;
     data := [[[[C0; C0; C0]]]] |}.

(** What construction establishes and the setters keep. *)
Definition well_formed (ch : MultipathFadingChannel) : Prop :=
  delays ch <> [] /\
  Forall (fun x => 0 <= x) (delays ch) /\
  Forall (fun x => 0 <= x) (power_profile ch) /\
  length (power_profile ch) = length (delays ch) /\
  length (los_gains ch) = length (delays ch) /\
  length (non_los_gains ch) = length (delays ch) /\
  num_resolvable_paths ch = length (delays ch) /\
  (forall (i j : nat) (x y : R),
     (i <= j)%nat -> nth_error (delays ch) i = Some x ->
     nth_error (delays ch) j = Some y -> x <= y).

(** The extents of an array agree with its contents. *)
Definition shaped (a : ndarray4) : Prop :=
  length (data a) = dim0 a /\
  Forall (fun plane =>
            length plane = dim1 a /\
            Forall (fun line =>
                      length line = dim2 a /\
                      Forall (fun row => length row = dim3 a) line)
                   plane)
         (data a).

(** The state the loops of [impulse_response] keep: an array of the
    allocated extents. *)
Definition loop_array (sampling_rate : R) (timestamps : list R) (last_delay : R)
    (n1 n2 : nat) (a : ndarray4) : Prop :=
  shaped a /\ dim0 a = length timestamps /\ dim1 a = n1 /\ dim2 a = n2 /\
  dim3 a = Z.to_nat (int_of (last_delay * sampling_rate) + 1).

(** ** Mappings [from_yaml] is written for *)

(** The keywords [to_yaml] writes, and the Rice factors the constructor
    requires besides. *)
Definition known_keys : list string :=
  [ "delays"; "power_profile"; "rice_factors"; "active"; "gain";
    "num_sinusoids"; "los_angle"; "doppler_frequency";
    "los_doppler_frequency"; "interpolate_signals"; "sync_offset_low";
    "sync_offset_high" ]%string.

Definition is_number (v : yaml) : bool :=
  match v with
  | YNone | YFloat _ | YInt _ => true
  | _ => false
  end.

Definition is_integer (v : yaml) : bool :=
  match v with
  | YNone | YInt _ => true
  | _ => false
  end.

Definition is_flag (v : yaml) : bool :=
  match v with
  | YNone | YBool _ => true
  | _ => false
  end.

Definition is_bool (v : yaml) : bool :=
  match v with
  | YBool _ => true
  | _ => false
  end.

(** The entry [key], if the mapping has one, is of the kind [ok]. *)
Definition entry_is (ok : yaml -> bool) (key : string) (state : mapping) : Prop :=
  match lookup key state with
  | None => True
  | Some v => ok v = true
  end.

(** A mapping that names no other keyword than the known ones and whose
    optional entries have the types the constructor's signature gives
    them. *)
Definition optional_entries_typed (state : mapping) : Prop :=
  Forall (fun kv => In (fst kv) known_keys) state /\
  entry_is is_bool "active" state /\
  entry_is is_number "gain" state /\
  entry_is is_number "sync_offset_low" state /\
  entry_is is_number "sync_offset_high" state /\
  entry_is is_integer "num_sinusoids" state /\
  entry_is is_number "los_angle" state /\
  entry_is is_number "doppler_frequency" state /\
  entry_is is_number "los_doppler_frequency" state /\
  entry_is is_flag "interpolate_signals" state.

(** ** Equation (18) in closed form *)

(** The sum the sinusoid loop of [__tap] accumulates at instant [t], with
    the angles and the phases it has drawn from the stream. *)
Definition nlos_sum (ch : MultipathFadingChannel) (g : rng_state) (t : R) : C :=
  Csum (map (fun s =>
               Cexp_j (doppler_frequency ch * t *
                         cos ((2 * PI * INR s + 2 * PI * peek g s)
                              / IZR (num_sinusoids ch))
                       + 2 * PI * peek g (Z.to_nat (num_sinusoids ch) + s)))
            (seq 0 (Z.to_nat (num_sinusoids ch)))).

(** The gain [__tap] returns for instant [t]. *)
Definition tap_sample (ch : MultipathFadingChannel) (los_gain nlos_gain : R)
    (g : rng_state) (t : R) : C :=
  Cadd (Cscale los_gain (los_phasor ch g t))
       (Cscale (nlos_gain * / sqrt (IZR (num_sinusoids ch))) (nlos_sum ch g t)).

(** [abs(c)] *)
Definition Cabs (c : C) : R := sqrt (Cnorm2 c).

(** ** Where each tap lands *)

(** The place of the pair [(rx_idx, tx_idx)] in the order the inner loop of
    [impulse_response] visits the pairs. *)
Definition pair_position (ch : MultipathFadingChannel) (rx_idx tx_idx : nat) : nat :=
  (rx_idx * receiver_num_antennas (base ch) + tx_idx)%nat.

(** The state of the stream when the tap of path [path_idx] and of the pair
    [(rx_idx, tx_idx)] is generated. *)
Definition tap_stream (ch : MultipathFadingChannel) (g : rng_state)
    (path_idx rx_idx tx_idx : nat) : rng_state :=
  advance g ((path_idx * length (antenna_pairs ch)
              + pair_position ch rx_idx tx_idx) * draws_per_tap ch).

(** What the path [entry] of the path table adds to the entry
    [[n, rx_idx, tx_idx, k]] of the tensor, [t] being the instant of
    sample [n]: its weighted tap if [k] is its delay index, nothing
    otherwise. *)
Definition path_term (ch : MultipathFadingChannel) (sampling_rate : R)
    (g : rng_state) (t : R) (rx_idx tx_idx k : nat)
    (entry : R * (nat * (R * R))) : C :=
  let '(power, (path_idx, (los_gain, nlos_gain))) := entry in
  if Z.eqb (Z.of_nat k) (floor (nth path_idx (delays ch) 0 * sampling_rate))
  then Cscale (sqrt power)
         (tap_sample ch los_gain nlos_gain
                     (tap_stream ch g path_idx rx_idx tx_idx) t)
  else C0.

(** ** Decibels: [tools/math.py] *)

Module MathTools.

Inductive DbConversionType : Set :=
| POWER
| AMPLITUDE
| HILLY.

(** The value of [np.log10]: a real number for a positive argument, [-inf]
    at zero, [nan] below zero. *)
Inductive log_value : Type :=
| LogReal (r : R)
| LogNegInf
| LogNaN.

Definition log10 (val : R) : log_value :=
  if Rlt_dec 0 val then LogReal (ln val / ln 10)
  else if Req_dec_T val 0 then LogNegInf
       else LogNaN.

(** The product of a positive constant and a logarithm. *)
Definition scale_log (c : R) (v : log_value) : log_value :=
  match v with
  | LogReal r => LogReal (c * r)
  | LogNegInf => LogNegInf
  | LogNaN => LogNaN
  end.

Definition db2lin (db_val : R) (conversion_type : DbConversionType) : result R :=
  match conversion_type with
  | POWER => Ok (Rpower 10 (db_val / 10))
  | AMPLITUDE => Ok (Rpower 10 (db_val / 20))
  | HILLY => Raise ValueError
  end.

Definition lin2db (val : R) (conversion_type : DbConversionType)
  : result log_value :=
  match conversion_type with
  | POWER => Ok (scale_log 10 (log10 val))
  | AMPLITUDE => Ok (scale_log 20 (log10 val))
  | HILLY => Raise ValueError
  end.

End MathTools.

(** ** Facts about the numbers *)

Lemma Rltb_false (x y : R) : Rltb x y = false <-> y <= x.
Proof.
  unfold Rltb; destruct (Rlt_dec x y); split; intros; try easy; lra.
Qed.

Lemma any_neg_false (a : list R) :
  any_neg a = false <-> Forall (fun x => 0 <= x) a.
Proof.
  unfold any_neg; induction a as [|x a IH]; simpl.
  - split; auto.
  - rewrite orb_false_iff, IH, Rltb_false; split.
    + intros [? ?]; constructor; assumption.
    + intros H; inversion H; auto.
Qed.

Lemma xneg_false (k : xreal) : xneg k = false <-> xnonneg k.
Proof. destruct k; simpl; [apply Rltb_false | tauto]. Qed.

Lemma any_xneg_false (a : list xreal) :
  any_xneg a = false <-> Forall xnonneg a.
Proof.
  unfold any_xneg; induction a as [|x a IH]; simpl.
  - split; auto.
  - rewrite orb_false_iff, IH, xneg_false; split.
    + intros [? ?]; constructor; assumption.
    + intros H; inversion H; auto.
Qed.

(** ** Facts about sorting *)

Lemma insert_idx_perm (d : list R) (i : nat) (l : list nat) :
  Permutation (insert_idx d i l) (i :: l).
Proof.
  induction l as [|j l IH]; simpl; [reflexivity|].
  destruct (Rleb _ _); [reflexivity|].
  rewrite IH; apply perm_swap.
Qed.

Lemma argsort_perm (d : list R) :
  Permutation (argsort d) (seq 0 (length d)).
Proof.
  unfold argsort; induction (seq 0 (length d)) as [|i l IH]; simpl.
  - reflexivity.
  - rewrite insert_idx_perm; constructor; exact IH.
Qed.

Lemma argsort_length (d : list R) : length (argsort d) = length d.
Proof.
  rewrite (Permutation_length (argsort_perm d)); apply length_seq.
Qed.

Lemma argsort_bound (d : list R) (i : nat) :
  In i (argsort d) -> (i < length d)%nat.
Proof.
  intros H; apply (Permutation_in _ (argsort_perm d)) in H.
  apply in_seq in H; lia.
Qed.

Lemma take_In {A : Type} (dflt : A) (a : list A) (s : list nat) (x : A) :
  (forall i, In i s -> (i < length a)%nat) -> In x (take dflt a s) -> In x a.
Proof.
  unfold take; intros Hs Hx; apply in_map_iff in Hx as [i [<- Hi]].
  apply nth_In, Hs, Hi.
Qed.

Lemma take_Forall {A : Type} (P : A -> Prop) (dflt : A) (a : list A) (s : list nat) :
  (forall i, In i s -> (i < length a)%nat) -> Forall P a -> Forall P (take dflt a s).
Proof.
  intros Hs Ha; apply Forall_forall; intros x Hx.
  apply (take_In dflt a s x Hs) in Hx.
  revert x Hx; apply Forall_forall; exact Ha.
Qed.

Lemma insert_idx_sorted (d : list R) (i : nat) (l : list nat) :
  StronglySorted (fun a b => nth a d 0 <= nth b d 0) l ->
  StronglySorted (fun a b => nth a d 0 <= nth b d 0) (insert_idx d i l).
Proof.
  induction l as [|j l IH]; simpl; intros Hs.
  - constructor; constructor.
  - inversion Hs as [|? ? Hl Hj]; subst.
    unfold Rleb; destruct (Rle_dec (nth i d 0) (nth j d 0)) as [Hle|Hgt].
    + constructor; [exact Hs|].
      constructor; [exact Hle|].
      rewrite Forall_forall in Hj |- *; intros x Hx.
      specialize (Hj x Hx); lra.
    + constructor; [apply IH; exact Hl|].
      rewrite Forall_forall in Hj |- *; intros x Hx.
      apply (Permutation_in _ (insert_idx_perm d i l)) in Hx.
      destruct Hx as [<-|Hx]; [lra | apply Hj; exact Hx].
Qed.

Lemma argsort_sorted (d : list R) :
  StronglySorted (fun a b => nth a d 0 <= nth b d 0) (argsort d).
Proof.
  unfold argsort; induction (seq 0 (length d)) as [|i l IH]; simpl.
  - constructor.
  - apply insert_idx_sorted; exact IH.
Qed.

Lemma take_sorted (d : list R) (s : list nat) :
  StronglySorted (fun a b => nth a d 0 <= nth b d 0) s ->
  StronglySorted Rle (take 0 d s).
Proof.
  unfold take; induction 1 as [|a s Hs IH Ha]; simpl; constructor.
  - exact IH.
  - rewrite Forall_forall in Ha |- *; intros x Hx.
    apply in_map_iff in Hx as [b [<- Hb]]; apply Ha; exact Hb.
Qed.

Lemma sorted_nth_error (l : list R) :
  StronglySorted Rle l ->
  forall (i j : nat) (x y : R),
    (i <= j)%nat -> nth_error l i = Some x -> nth_error l j = Some y -> x <= y.
Proof.
  induction 1 as [|a l Hs IH Ha]; intros i j x y Hij Hi Hj.
  - destruct i; discriminate.
  - destruct i as [|i], j as [|j]; simpl in *; try lia.
    + injection Hi as <-; injection Hj as <-; lra.
    + injection Hi as <-.
      apply nth_error_In in Hj.
      rewrite Forall_forall in Ha; apply Ha; exact Hj.
    + apply (IH i j); [lia | assumption | assumption].
Qed.

Lemma take_length {A : Type} (dflt : A) (a : list A) (s : list nat) :
  length (take dflt a s) = length s.
Proof. apply length_map. Qed.

(** ** Validation *)

Lemma validate_ok_iff (d p : list R) (k : list xreal) :
  validate d p k = Ok tt <->
  length d = length p /\ length p = length k /\ (1 <= length d)%nat /\
  Forall (fun x => 0 <= x) d /\ Forall (fun x => 0 <= x) p /\ Forall xnonneg k.
Proof.
  unfold validate.
  destruct (Nat.eqb_spec (length d) (length p)) as [E1|E1]; simpl;
    [|split; [discriminate | intros [? _]; contradiction]].
  destruct (Nat.eqb_spec (length p) (length k)) as [E2|E2]; simpl;
    [|split; [discriminate | intros [_ [? _]]; contradiction]].
  destruct (Nat.ltb_spec (length d) 1) as [E3|E3];
    [split; [discriminate | intros [_ [_ [? _]]]; lia]|].
  destruct (any_neg d) eqn:Hd.
  { split; [discriminate|]; intros [_ [_ [_ [H _]]]].
    apply any_neg_false in H; congruence. }
  destruct (any_neg p) eqn:Hp.
  { split; [discriminate|]; intros [_ [_ [_ [_ [H _]]]]].
    apply any_neg_false in H; congruence. }
  destruct (any_xneg k) eqn:Hk.
  { split; [discriminate|]; intros [_ [_ [_ [_ [_ H]]]]].
    apply any_xneg_false in H; congruence. }
  apply any_neg_false in Hd, Hp; apply any_xneg_false in Hk.
  split; auto 10.
Qed.

Lemma validate_cases (d p : list R) (k : list xreal) :
  validate d p k = Ok tt \/ validate d p k = Raise ValueError.
Proof.
  unfold validate.
  repeat match goal with
         | |- context [if ?b then _ else _] => destruct b
         end; auto.
Qed.

Lemma init_validate (d p : list R) (k : list xreal) (ns : option Z)
    (la df ldf : option R) (interp : option bool) (kw : Channel) :
  (validate d p k = Ok tt /\ exists ch, init d p k ns la df ldf interp kw = Ok ch)
  \/ (validate d p k = Raise ValueError
      /\ init d p k ns la df ldf interp kw = Raise ValueError).
Proof.
  unfold init; destruct (validate_cases d p k) as [H|H]; rewrite H; simpl.
  - left; split; [reflexivity | eexists; reflexivity].
  - right; split; reflexivity.
Qed.

Lemma init_ok_inv (d p : list R) (k : list xreal) (ns : option Z)
    (la df ldf : option R) (interp : option bool) (kw : Channel)
    (ch : MultipathFadingChannel) :
  init d p k ns la df ldf interp kw = Ok ch ->
  validate d p k = Ok tt /\
  delays ch = take 0 d (argsort d) /\
  power_profile ch = take 0 p (argsort d) /\
  rice_factors ch = take PosInf k (argsort d) /\
  los_gains ch = map los_gain_of (rice_factors ch) /\
  non_los_gains ch = map non_los_gain_of (rice_factors ch) /\
  num_resolvable_paths ch = length (delays ch) /\
  base ch = kw.
Proof.
  unfold init; destruct (validate_cases d p k) as [H|H]; rewrite H; simpl.
  - intros E; injection E as <-; simpl; auto 10.
  - discriminate.
Qed.

(** ** The Rice gains *)

Lemma gains_unit_power (K : xreal) :
  xnonneg K ->
  los_gain_of K * los_gain_of K + non_los_gain_of K * non_los_gain_of K = 1.
Proof.
  destruct K as [r|]; simpl; intros Hr; [|lra].
  assert (Hpos : 0 < 1 + r) by lra.
  assert (Hq : 0 <= r / (1 + r)).
  { apply Rmult_le_pos; [exact Hr | left; apply Rinv_0_lt_compat; exact Hpos]. }
  rewrite (sqrt_sqrt _ Hq).
  pose proof (sqrt_lt_R0 _ Hpos) as Hs.
  replace (1 / sqrt (1 + r) * (1 / sqrt (1 + r)))
    with (1 / (sqrt (1 + r) * sqrt (1 + r))) by (field; lra).
  rewrite sqrt_sqrt by lra.
  field; lra.
Qed.

Lemma map_nth_seq {A : Type} (dflt : A) (l : list A) :
  map (fun i => nth i l dflt) (seq 0 (length l)) = l.
Proof.
  induction l as [|x l IH]; simpl; [reflexivity|].
  f_equal; rewrite <- seq_shift, map_map; exact IH.
Qed.

Lemma combine_map_map {A B D : Type} (f : A -> B) (h : A -> D) (l : list A) :
  combine (map f l) (map h l) = map (fun x => (f x, h x)) l.
Proof.
  induction l as [|x l IH]; simpl; [reflexivity | rewrite IH; reflexivity].
Qed.

Lemma take_triples (d p : list R) (k : list xreal) (s : list nat) :
  combine (take 0 d s) (combine (take 0 p s) (take PosInf k s)) =
  map (fun i => (nth i d 0, (nth i p 0, nth i k PosInf))) s.
Proof. unfold take; rewrite !combine_map_map; reflexivity. Qed.

(** What the sorting of [__init__] does to the three vectors: the paths are
    kept, each with its delay, its power and its Rice factor. *)
Lemma init_paths_permutation
    (d p : list R) (k : list xreal) (ns : option Z) (la df ldf : option R)
    (interp : option bool) (kw : Channel) (ch : MultipathFadingChannel) :
  init d p k ns la df ldf interp kw = Ok ch ->
  Permutation (combine (delays ch) (combine (power_profile ch) (rice_factors ch)))
              (combine d (combine p k)) /\
  Permutation (rice_factors ch) k.
Proof.
  intros Hinit.
  destruct (init_ok_inv _ _ _ _ _ _ _ _ _ _ Hinit)
    as (Hv & Hd & Hp & Hk & _).
  apply validate_ok_iff in Hv as (E1 & E2 & _).
  rewrite Hd, Hp, Hk; split.
  - rewrite take_triples.
    rewrite (Permutation_map _ (argsort_perm d)).
    rewrite <- (combine_map_map (fun i => nth i d 0)
                  (fun i => (nth i p 0, nth i k PosInf))).
    rewrite <- (combine_map_map (fun i => nth i p 0) (fun i => nth i k PosInf)).
    rewrite map_nth_seq.
    rewrite E1 at 1; rewrite map_nth_seq.
    rewrite E1, E2; rewrite map_nth_seq.
    reflexivity.
  - unfold take; rewrite (Permutation_map _ (argsort_perm d)).
    rewrite E1, E2, map_nth_seq; reflexivity.
Qed.

Lemma Rleb_false (x y : R) : y < x -> Rleb x y = false.
Proof.
  unfold Rleb; destruct (Rle_dec x y); intros; [lra | reflexivity].
Qed.

Lemma validate_intro (d p : list R) (k : list xreal) :
  length d = length p -> length p = length k -> (1 <= length d)%nat ->
  Forall (fun x => 0 <= x) d -> Forall (fun x => 0 <= x) p -> Forall xnonneg k ->
  validate d p k = Ok tt.
Proof.
  intros; apply validate_ok_iff; auto 10.
Qed.

Ltac solve_forall :=
  repeat (apply Forall_cons; [simpl; try lra; exact I|]); apply Forall_nil.

Ltac eval_validate :=
  rewrite validate_intro by (try reflexivity; try (simpl; lia); solve_forall).

Lemma init_two_paths :
  init [1; 0] [1; 2] [Finite 1; PosInf] None None None None None siso =
  Ok two_paths.
Proof.
  unfold init; eval_validate.
  unfold argsort; simpl.
  rewrite Rleb_false by lra; simpl.
  reflexivity.
Qed.

(** C1: for every valid path configuration the constructor builds a channel
    that keeps every given path, with its delay, power and Rice factor, and
    whose gain vectors hold, path by path, [sqrt(K/(1+K))] and
    [1/sqrt(1+K)] for a finite Rice factor [K], and [1] and [0] for an
    infinite one; the squares of the two gains of a path sum to one. *)
Theorem rice_gains_of_constructed_channel
    (d p : list R) (k : list xreal) (ns : option Z) (la df ldf : option R)
    (interp : option bool) (kw : Channel) :
  length d = length p -> length p = length k -> (1 <= length d)%nat ->
  Forall (fun x => 0 <= x) d -> Forall (fun x => 0 <= x) p ->
  Forall xnonneg k ->
  exists ch : MultipathFadingChannel,
    init d p k ns la df ldf interp kw = Ok ch /\
    Permutation
      (combine (delays ch) (combine (power_profile ch) (rice_factors ch)))
      (combine d (combine p k)) /\
    Permutation (rice_factors ch) k /\
    length (rice_factors ch) = length k /\
    length (los_gains ch) = length k /\
    length (non_los_gains ch) = length k /\
    forall (i : nat) (K : xreal),
      nth_error (rice_factors ch) i = Some K ->
      exists los_gain nlos_gain : R,
        nth_error (los_gains ch) i = Some los_gain /\
        nth_error (non_los_gains ch) i = Some nlos_gain /\
        match K with
        | Finite r => los_gain = sqrt (r / (1 + r)) /\ nlos_gain = 1 / sqrt (1 + r)
        | PosInf => los_gain = 1 /\ nlos_gain = 0
        end /\
        los_gain * los_gain + nlos_gain * nlos_gain = 1.
Proof.
  intros E1 E2 Hlen Hd Hp Hnn.
  destruct (init_validate d p k ns la df ldf interp kw)
    as [[_ [ch Hinit]]|[Hv _]];
    [|rewrite (validate_intro d p k E1 E2 Hlen Hd Hp Hnn) in Hv; discriminate].
  exists ch; split; [exact Hinit|].
  destruct (init_paths_permutation _ _ _ _ _ _ _ _ _ _ Hinit) as [Hperm Hrice].
  destruct (init_ok_inv _ _ _ _ _ _ _ _ _ _ Hinit)
    as (_ & _ & _ & _ & Hl & Hn & _).
  assert (Hlk : length (rice_factors ch) = length k)
    by (apply Permutation_length; exact Hrice).
  split; [exact Hperm|]; split; [exact Hrice|]; split; [exact Hlk|].
  rewrite Hl, Hn, !length_map.
  split; [exact Hlk|]; split; [exact Hlk|].
  intros i K Hi.
  exists (los_gain_of K), (non_los_gain_of K).
  rewrite !nth_error_map, Hi; simpl; repeat split.
  - destruct K; split; reflexivity.
  - apply gains_unit_power.
    apply nth_error_In in Hi.
    apply (Permutation_in _ Hrice) in Hi.
    revert K Hi; apply Forall_forall; exact Hnn.
Qed.

Lemma rice_gains_of_constructed_channel_witness :
  exists ch : MultipathFadingChannel,
    init [1; 0] [1; 2] [Finite 1; PosInf] None None None None None siso = Ok ch /\
    Permutation (rice_factors ch) [Finite 1; PosInf] /\
    length (los_gains ch) = 2%nat /\
    forall (i : nat) (K : xreal),
      nth_error (rice_factors ch) i = Some K ->
      exists los_gain nlos_gain : R,
        nth_error (los_gains ch) i = Some los_gain /\
        nth_error (non_los_gains ch) i = Some nlos_gain /\
        match K with
        | Finite r => los_gain = sqrt (r / (1 + r)) /\ nlos_gain = 1 / sqrt (1 + r)
        | PosInf => los_gain = 1 /\ nlos_gain = 0
        end /\
        los_gain * los_gain + nlos_gain * nlos_gain = 1.
Proof.
  destruct (rice_gains_of_constructed_channel
              [1; 0] [1; 2] [Finite 1; PosInf] None None None None None siso)
    as (ch & Hinit & _ & Hrice & _ & Hl & _ & Hgains);
    try reflexivity; try (simpl; lia); try solve_forall.
  exists ch; auto.
Defined.

(** ** Validation at construction *)

Lemma not_Forall_nonneg (a : list R) :
  Exists negative a -> ~ Forall (fun x => 0 <= x) a.
Proof.
  intros HE HF; apply Exists_exists in HE as [x [Hx Hn]].
  rewrite Forall_forall in HF; specialize (HF x Hx); unfold negative in Hn; lra.
Qed.

Lemma not_Forall_xnonneg (a : list xreal) :
  Exists xnegative a -> ~ Forall xnonneg a.
Proof.
  intros HE HF; apply Exists_exists in HE as [x [Hx Hn]].
  rewrite Forall_forall in HF; specialize (HF x Hx).
  destruct x; simpl in *; [lra | contradiction].
Qed.

Lemma Forall_nonneg_or (a : list R) :
  Forall (fun x => 0 <= x) a \/ Exists negative a.
Proof.
  induction a as [|x a [IH|IH]];
    [left; constructor | | right; apply Exists_cons_tl; exact IH].
  destruct (Rle_dec 0 x); [left; constructor; assumption|].
  right; apply Exists_cons_hd; unfold negative; lra.
Qed.

Lemma Forall_xnonneg_or (a : list xreal) :
  Forall xnonneg a \/ Exists xnegative a.
Proof.
  induction a as [|x a [IH|IH]];
    [left; constructor | | right; apply Exists_cons_tl; exact IH].
  destruct x as [r|].
  - destruct (Rle_dec 0 r); [left; constructor; assumption|].
    right; apply Exists_cons_hd; simpl; lra.
  - left; constructor; [exact I | exact IH].
Qed.

Lemma validate_raise_iff (d p : list R) (k : list xreal) :
  validate d p k = Raise ValueError <-> invalid_path_set d p k.
Proof.
  unfold invalid_path_set; split.
  - intros H.
    destruct (Nat.eq_dec (length d) (length p)) as [E1|]; [|tauto].
    destruct (Nat.eq_dec (length p) (length k)) as [E2|]; [|tauto].
    destruct (Nat.eq_dec (length d) 0) as [|E3]; [tauto|].
    destruct (Forall_nonneg_or d) as [Hd|]; [|tauto].
    destruct (Forall_nonneg_or p) as [Hp|]; [|tauto].
    destruct (Forall_xnonneg_or k) as [Hk|]; [|tauto].
    rewrite validate_intro in H by (auto; lia); discriminate.
  - intros H; destruct (validate_cases d p k) as [Hv|Hv]; [|exact Hv].
    apply validate_ok_iff in Hv as (E1 & E2 & E3 & Hd & Hp & Hk).
    destruct H as [H|[H|[H|[H|[H|H]]]]]; try contradiction; try lia.
    + apply not_Forall_nonneg in H; contradiction.
    + apply not_Forall_nonneg in H; contradiction.
    + apply not_Forall_xnonneg in H; contradiction.
Qed.

(** C7: construction raises [ValueError] on every configuration with
    mismatched lengths, no path, or a strictly negative delay, power or Rice
    factor; on every other configuration the checks pass and the channel is
    built. *)
Theorem init_validation
    (d p : list R) (k : list xreal) (ns : option Z) (la df ldf : option R)
    (interp : option bool) (kw : Channel) :
  (invalid_path_set d p k ->
   raises (init d p k ns la df ldf interp kw) ValueError) /\
  (length d = length p -> length p = length k -> length d <> 0%nat ->
   Forall (fun x => 0 <= x) d -> Forall (fun x => 0 <= x) p ->
   Forall xnonneg k ->
   validate d p k = Ok tt /\
   exists ch, init d p k ns la df ldf interp kw = Ok ch).
Proof.
  split.
  - intros H; apply validate_raise_iff in H.
    destruct (init_validate d p k ns la df ldf interp kw) as [[Hv _]|[_ Hi]].
    + congruence.
    + exact Hi.
  - intros E1 E2 E3 Hd Hp Hk.
    assert (Hv : validate d p k = Ok tt) by (apply validate_intro; auto; lia).
    destruct (init_validate d p k ns la df ldf interp kw) as [[_ Hi]|[Hr _]].
    + split; assumption.
    + congruence.
Qed.

Lemma init_validation_witness :
  raises (init [0; 1] [1] [Finite 0] None None None None None siso) ValueError /\
  raises (init [0] [-1] [Finite 0] None None None None None siso) ValueError /\
  (validate [0; 1] [1; 1] [Finite 0; PosInf] = Ok tt /\
   exists ch,
     init [0; 1] [1; 1] [Finite 0; PosInf] None None None None None siso = Ok ch).
Proof.
  split; [|split].
  - apply (proj1 (init_validation [0; 1] [1] [Finite 0] None None None None None siso)).
    left; simpl; lia.
  - apply (proj1 (init_validation [0] [-1] [Finite 0] None None None None None siso)).
    right; right; right; right; left.
    apply Exists_cons_hd; unfold negative; lra.
  - apply (proj2 (init_validation [0; 1] [1; 1] [Finite 0; PosInf]
                    None None None None None siso));
      try reflexivity; try (simpl; lia); solve_forall.
Defined.

(** C8 as stated fails: a configuration whose only delay and Rice factor are
    exactly zero is constructed without error. *)
Lemma zero_values_not_rejected :
  ~ (forall (d p : list R) (k : list xreal),
       In 0 d \/ In 0 p \/ In (Finite 0) k ->
       raises (init d p k None None None None None siso) ValueError).
Proof.
  intros H.
  specialize (H [0] [1] [Finite 0] (or_introl (or_introl eq_refl))).
  unfold raises, init in H.
  rewrite validate_intro in H by (try reflexivity; try (simpl; lia); solve_forall).
  discriminate.
Qed.

(** C8, amended: among the configurations of equal non-zero lengths, exactly
    those with a strictly negative delay, power or Rice factor are refused; a
    value equal to zero is accepted. *)
Theorem only_negative_values_rejected
    (d p : list R) (k : list xreal) (ns : option Z) (la df ldf : option R)
    (interp : option bool) (kw : Channel) :
  length d = length p -> length p = length k -> length d <> 0%nat ->
  (raises (init d p k ns la df ldf interp kw) ValueError <->
   Exists negative d \/ Exists negative p \/ Exists xnegative k) /\
  (Forall (fun x => 0 <= x) d -> Forall (fun x => 0 <= x) p ->
   Forall xnonneg k ->
   exists ch, init d p k ns la df ldf interp kw = Ok ch).
Proof.
  intros E1 E2 E3; split.
  - split.
    + intros H.
      destruct (init_validate d p k ns la df ldf interp kw) as [[_ [ch Hi]]|[Hv _]].
      * unfold raises in H; congruence.
      * apply validate_raise_iff in Hv.
        destruct Hv as [Hv|[Hv|[Hv|Hv]]]; try contradiction; exact Hv.
    + intros H.
      assert (Hv : validate d p k = Raise ValueError).
      { apply validate_raise_iff; unfold invalid_path_set; tauto. }
      destruct (init_validate d p k ns la df ldf interp kw) as [[Hv' _]|[_ Hi]].
      * congruence.
      * exact Hi.
  - intros Hd Hp Hk.
    assert (Hv : validate d p k = Ok tt) by (apply validate_intro; auto; lia).
    destruct (init_validate d p k ns la df ldf interp kw) as [[_ Hi]|[Hr _]].
    + exact Hi.
    + congruence.
Qed.

Lemma only_negative_values_rejected_witness :
  exists ch, init [0] [0] [Finite 0] None None None None None siso = Ok ch.
Proof.
  apply (proj2 (only_negative_values_rejected [0] [0] [Finite 0]
                  None None None None None siso eq_refl eq_refl
                  (fun H => O_S 0 (eq_sym H))));
    solve_forall.
Defined.

(** ** Well-formedness of constructed channels *)

Lemma init_well_formed
    (d p : list R) (k : list xreal) (ns : option Z) (la df ldf : option R)
    (interp : option bool) (kw : Channel) (ch : MultipathFadingChannel) :
  init d p k ns la df ldf interp kw = Ok ch -> well_formed ch.
Proof.
  intros Hinit.
  destruct (init_ok_inv _ _ _ _ _ _ _ _ _ _ Hinit)
    as (Hv & Hd & Hp & Hk & Hl & Hn & Hnum & _).
  apply validate_ok_iff in Hv as (E1 & E2 & E3 & Fd & Fp & Fk).
  assert (Hb : forall i, In i (argsort d) -> (i < length d)%nat)
    by (intros i; apply argsort_bound).
  unfold well_formed.
  rewrite Hl, Hn, Hk, Hp, Hd, !length_map, !take_length, argsort_length.
  repeat split; try reflexivity.
  - intros E; apply (f_equal (@length R)) in E.
    rewrite take_length, argsort_length in E; simpl in E; lia.
  - apply take_Forall; assumption.
  - apply take_Forall; [intros i Hi; rewrite <- E1; apply Hb; exact Hi | exact Fp].
  - rewrite Hnum, Hd, take_length, argsort_length; reflexivity.
  - apply sorted_nth_error, take_sorted, argsort_sorted.
Qed.

Lemma set_num_sinusoids_well_formed (num : Z) (ch ch' : MultipathFadingChannel) :
  set_num_sinusoids num ch = Ok ch' -> well_formed ch -> well_formed ch'.
Proof.
  unfold set_num_sinusoids; destruct (num <? 0)%Z; [discriminate|].
  intros E; injection E as <-; exact (fun H => H).
Qed.

(** ** Truncation and floor *)

Lemma floor_bounds (r : R) : IZR (floor r) <= r < IZR (floor r) + 1.
Proof. unfold floor; destruct (base_Int_part r); lra. Qed.

Lemma floor_unique (r : R) (z : Z) : IZR z <= r < IZR z + 1 -> floor r = z.
Proof.
  intros [H1 H2]; destruct (floor_bounds r) as [H3 H4].
  assert (floor r < z + 1)%Z by (apply lt_IZR; rewrite plus_IZR; simpl; lra).
  assert (z < floor r + 1)%Z by (apply lt_IZR; rewrite plus_IZR; simpl; lra).
  lia.
Qed.

Lemma floor_mono (x y : R) : x <= y -> (floor x <= floor y)%Z.
Proof.
  intros Hxy; destruct (floor_bounds x), (floor_bounds y).
  assert (floor x < floor y + 1)%Z by (apply lt_IZR; rewrite plus_IZR; simpl; lra).
  lia.
Qed.

Lemma floor_IZR (z : Z) : floor (IZR z) = z.
Proof. apply floor_unique; lra. Qed.

Lemma floor_nonneg (r : R) : 0 <= r -> (0 <= floor r)%Z.
Proof. intros H; rewrite <- (floor_IZR 0); apply floor_mono; exact H. Qed.

Lemma int_of_nonneg (r : R) : 0 <= r -> int_of r = floor r.
Proof. unfold int_of, floor; destruct (Rle_dec 0 r); intros; [reflexivity | contradiction]. Qed.

Lemma int_of_0 : int_of 0 = 0%Z.
Proof. rewrite int_of_nonneg by lra; apply (floor_IZR 0). Qed.

(** ** Facts about vectors and the tap generator *)

Lemma vadd_length (a b : list C) : length a = length b -> length (vadd a b) = length a.
Proof.
  revert b; induction a as [|x a IH]; intros [|y b]; simpl; try discriminate; auto.
Qed.

Lemma vadd_zero_r (a b : list C) :
  length a = length b -> Forall (fun c => c = C0) b -> vadd a b = a.
Proof.
  revert b; induction a as [|[xr xi] a IH]; intros [|y b]; simpl;
    try discriminate; auto.
  intros E H; inversion H; subst.
  rewrite IH by (auto; lia).
  unfold Cadd, C0; simpl; f_equal; f_equal; ring.
Qed.

Lemma nlos_sinusoid_length ch ts angles phases s :
  length (nlos_sinusoid ch ts angles phases s) = length ts.
Proof. apply length_map. Qed.

Lemma nlos_sum_length ch ts angles phases (l : list nat) (acc : list C) :
  length acc = length ts ->
  length (fold_left (fun acc s => vadd acc (nlos_sinusoid ch ts angles phases s))
                    l acc) = length ts.
Proof.
  revert acc; induction l as [|s l IH]; simpl; intros acc E; [exact E|].
  apply IH; rewrite vadd_length; [exact E|].
  rewrite nlos_sinusoid_length; exact E.
Qed.

(** The number of variates one call of [tap] consumes. *)
Lemma tap_ok (ch : MultipathFadingChannel) (ts : list R) (lg ng : R) (g : rng_state) :
  (0 < num_sinusoids ch)%Z ->
  exists w g', tap ch ts lg ng g = Ok (w, g') /\ length w = length ts.
Proof.
  intros Hns; unfold tap, uniform_n.
  destruct (Z.ltb_spec (num_sinusoids ch) 0) as [|_]; [lia|]; simpl.
  destruct (Z.eqb_spec (num_sinusoids ch) 0) as [|_]; [lia|].
  destruct (los_angle ch); simpl; eexists; eexists; (split; [reflexivity|]);
    (rewrite vadd_length; rewrite !length_map; [reflexivity|]);
    unfold vscale; rewrite length_map, nlos_sum_length;
      try reflexivity; apply repeat_length.
Qed.

Lemma tap_zero_sinusoids (ch : MultipathFadingChannel) (ts : list R) (lg ng : R)
    (g : rng_state) :
  num_sinusoids ch = 0%Z -> tap ch ts lg ng g = Raise ZeroDivisionError.
Proof. intros H; unfold tap, uniform_n; rewrite H; reflexivity. Qed.

(** ** Facts about arrays *)

Lemma nth_error_upd {A : Type} (f : A -> A) (l : list A) (i j : nat) :
  nth_error (upd i f l) j =
  if (j =? i)%nat then option_map f (nth_error l j) else nth_error l j.
Proof.
  revert i j; induction l as [|x l IH]; intros [|i] [|j]; simpl; auto;
    try (destruct (j =? i)%nat; reflexivity).
Qed.

Lemma upd_length {A : Type} (f : A -> A) (l : list A) (i : nat) :
  length (upd i f l) = length l.
Proof.
  revert i; induction l as [|x l IH]; intros [|i]; simpl; auto.
Qed.

Lemma nth_error_map2 {A B D : Type} (f : A -> B -> D) (a : list A) (b : list B)
    (n : nat) :
  nth_error (map2 f a b) n =
  match nth_error a n, nth_error b n with
  | Some x, Some y => Some (f x y)
  | _, _ => None
  end.
Proof.
  revert b n; induction a as [|x a IH]; intros [|y b] [|n]; simpl; auto;
    try (destruct (nth_error a n); reflexivity).
Qed.

Lemma map2_length {A B D : Type} (f : A -> B -> D) (a : list A) (b : list B) :
  length a = length b -> length (map2 f a b) = length a.
Proof.
  revert b; induction a as [|x a IH]; intros [|y b]; simpl; try discriminate; auto.
Qed.

Lemma norm_index_in (i dim : nat) :
  (i < dim)%nat -> norm_index (Z.of_nat i) dim = Ok i.
Proof.
  intros H; unfold norm_index.
  destruct (Z.leb_spec 0 (Z.of_nat i)); [|lia].
  destruct (Z.ltb_spec (Z.of_nat i) (Z.of_nat dim)); [|lia].
  simpl; rewrite Nat2Z.id; reflexivity.
Qed.

Lemma norm_index_out (i dim : nat) :
  (dim <= i)%nat -> norm_index (Z.of_nat i) dim = Raise IndexError.
Proof.
  intros H; unfold norm_index.
  destruct (Z.ltb_spec (Z.of_nat i) (Z.of_nat dim)); [lia|].
  destruct (Z.ltb_spec (Z.of_nat i) 0); [lia|].
  rewrite !andb_false_r; reflexivity.
Qed.

Lemma norm_index_Z (k : Z) (dim : nat) :
  (0 <= k < Z.of_nat dim)%Z -> norm_index k dim = Ok (Z.to_nat k).
Proof.
  intros H; unfold norm_index.
  destruct (Z.leb_spec 0 k); [|lia].
  destruct (Z.ltb_spec k (Z.of_nat dim)); [|lia].
  reflexivity.
Qed.

Lemma Forall_repeat {A : Type} (P : A -> Prop) (x : A) (n : nat) :
  P x -> Forall P (repeat x n).
Proof. intros H; induction n; simpl; constructor; auto. Qed.

Lemma zeros_ok (n0 n1 n2 : nat) (n3 : Z) :
  (0 <= n3)%Z ->
  exists a, zeros n0 n1 n2 n3 = Ok a /\ shaped a /\
            dim0 a = n0 /\ dim1 a = n1 /\ dim2 a = n2 /\ dim3 a = Z.to_nat n3.
Proof.
  intros H; unfold zeros.
  destruct (Z.ltb_spec n3 0); [lia|].
  eexists; split; [reflexivity|]; simpl; repeat split.
  - apply repeat_length.
  - apply Forall_repeat; split; [apply repeat_length|].
    apply Forall_repeat; split; [apply repeat_length|].
    apply Forall_repeat; apply repeat_length.
Qed.

Lemma iadd_tap_index_error (a : ndarray4) (rx tx : nat) (k : Z) (w : list C) :
  (dim1 a <= rx)%nat \/ (dim2 a <= tx)%nat ->
  iadd_tap a rx tx k w = Raise IndexError.
Proof.
  intros H; unfold iadd_tap.
  destruct (Nat.lt_ge_cases rx (dim1 a)) as [Hr|Hr].
  - rewrite (norm_index_in _ _ Hr); simpl.
    rewrite norm_index_out by lia; reflexivity.
  - rewrite (norm_index_out _ _ Hr); reflexivity.
Qed.

Lemma Forall_upd {A : Type} (P : A -> Prop) (f : A -> A) (l : list A) (i : nat) :
  Forall P l -> (forall x, P x -> P (f x)) -> Forall P (upd i f l).
Proof.
  intros H Hf; revert i; induction H as [|x l Hx Hl IH]; intros [|i]; simpl;
    constructor; auto.
Qed.

Lemma Forall_map2_l {A B : Type} (P : A -> Prop) (f : A -> B -> A)
    (a : list A) (b : list B) :
  Forall P a -> (forall x y, P x -> P (f x y)) -> Forall P (map2 f a b).
Proof.
  intros H Hf; revert b; induction H as [|x l Hx Hl IH]; intros [|y b]; simpl;
    constructor; auto.
Qed.

Lemma iadd_tap_ok (a : ndarray4) (rx tx : nat) (k : Z) (w : list C) :
  shaped a -> (rx < dim1 a)%nat -> (tx < dim2 a)%nat ->
  (0 <= k < Z.of_nat (dim3 a))%Z -> length w = dim0 a ->
  exists a',
    iadd_tap a rx tx k w = Ok a' /\ shaped a' /\
    dim0 a' = dim0 a /\ dim1 a' = dim1 a /\ dim2 a' = dim2 a /\ dim3 a' = dim3 a /\
    forall (n r t j : nat) (wn : C),
      nth_error w n = Some wn ->
      item a' n r t j =
      if ((r =? rx) && (t =? tx) && (j =? Z.to_nat k))%nat
      then option_map (fun c => Cadd c wn) (item a n r t j)
      else item a n r t j.
Proof.
  intros Hs Hrx Htx Hk Hw; unfold iadd_tap.
  rewrite (norm_index_in _ _ Hrx), (norm_index_in _ _ Htx), (norm_index_Z _ _ Hk).
  simpl; rewrite Hw, Nat.eqb_refl; simpl.
  eexists; split; [reflexivity|]; simpl.
  split; [|repeat split; try reflexivity].
  - destruct Hs as [E HF]; split; simpl.
    + rewrite map2_length; [exact E | lia].
    + apply Forall_map2_l; [exact HF|].
      intros plane wn [Hp1 Hp2]; split; [rewrite upd_length; exact Hp1|].
      apply Forall_upd; [exact Hp2|].
      intros line [Hl1 Hl2]; split; [rewrite upd_length; exact Hl1|].
      apply Forall_upd; [exact Hl2|].
      intros row Hr; rewrite upd_length; exact Hr.
  - intros n r t j wn Hn; unfold item; simpl.
    rewrite nth_error_map2, Hn.
    destruct (nth_error (data a) n) as [plane|] eqn:Hplane.
    + rewrite nth_error_upd.
      destruct (Nat.eqb_spec r rx) as [->|Hr]; simpl; [|reflexivity].
      destruct (nth_error plane rx) as [line|]; simpl;
        [|destruct ((t =? tx) && (j =? Z.to_nat k))%nat; reflexivity].
      rewrite nth_error_upd.
      destruct (Nat.eqb_spec t tx) as [->|Ht]; simpl; [|reflexivity].
      destruct (nth_error line tx) as [row|]; simpl;
        [|destruct (j =? Z.to_nat k)%nat; reflexivity].
      rewrite nth_error_upd.
      destruct (Nat.eqb_spec j (Z.to_nat k)); reflexivity.
    + destruct ((r =? rx) && (t =? tx) && (j =? Z.to_nat k))%nat; reflexivity.
Qed.

(** ** The nearest-sample deposit *)

Lemma last_item_nth {A : Type} (a : list A) :
  a <> [] ->
  exists x, last_item a = Ok x /\ nth_error a (length a - 1) = Some x.
Proof.
  intros Ha; destruct (exists_last Ha) as [l [x ->]].
  exists x; unfold last_item; rewrite rev_app_distr; simpl; split; [reflexivity|].
  rewrite length_app; simpl.
  replace (length l + 1 - 1)%nat with (length l) by lia.
  rewrite nth_error_app2 by lia; rewrite Nat.sub_diag; reflexivity.
Qed.

(** On a well-formed channel and a non-negative sampling rate every path's
    delay index lies between zero and the index of the last path. *)
Lemma delay_index_bounds (ch : MultipathFadingChannel) (fs : R)
    (path_idx : nat) (delay last : R) :
  well_formed ch -> 0 <= fs ->
  nth_error (delays ch) path_idx = Some delay ->
  last_item (delays ch) = Ok last ->
  int_of (delay * fs) = floor (delay * fs) /\
  (0 <= floor (delay * fs) < int_of (last * fs) + 1)%Z.
Proof.
  intros (Hne & Hd & _ & _ & _ & _ & _ & Hsorted) Hfs Hp Hlast.
  destruct (last_item_nth _ Hne) as [x [Hx Hn]].
  rewrite Hx in Hlast; injection Hlast as ->.
  assert (H0 : 0 <= delay).
  { apply nth_error_In in Hp; rewrite Forall_forall in Hd; apply Hd; exact Hp. }
  assert (Hle : delay <= last).
  { apply (Hsorted path_idx (length (delays ch) - 1)%nat); [|exact Hp|exact Hn].
    assert (path_idx < length (delays ch))%nat
      by (apply nth_error_Some; congruence).
    lia. }
  assert (H1 : 0 <= delay * fs) by (apply Rmult_le_pos; assumption).
  assert (H2 : delay * fs <= last * fs) by (apply Rmult_le_compat_r; assumption).
  rewrite !int_of_nonneg by lra.
  split; [reflexivity|].
  pose proof (floor_nonneg _ H1); pose proof (floor_mono _ _ H2); lia.
Qed.

Lemma vscale_length (r : R) (a : list C) : length (vscale r a) = length a.
Proof. apply length_map. Qed.

Lemma deposit_nearest_ok (ch : MultipathFadingChannel) (fs : R) (ts : list R)
    (power : R) (path_idx : nat) (lg ng : R) (a : ndarray4) (g : rng_state)
    (rx tx : nat) (delay last : R) :
  well_formed ch -> (0 < num_sinusoids ch)%Z -> 0 <= fs ->
  nth_error (delays ch) path_idx = Some delay ->
  last_item (delays ch) = Ok last ->
  shaped a -> dim0 a = length ts ->
  dim3 a = Z.to_nat (int_of (last * fs) + 1) ->
  (rx < dim1 a)%nat -> (tx < dim2 a)%nat ->
  exists (t : list C) (g' : rng_state) (a' : ndarray4),
    tap ch ts lg ng g = Ok (t, g') /\ length t = length ts /\
    deposit ch fs ts None power path_idx lg ng (a, g) (rx, tx) = Ok (a', g') /\
    shaped a' /\
    dim0 a' = dim0 a /\ dim1 a' = dim1 a /\ dim2 a' = dim2 a /\ dim3 a' = dim3 a /\
    forall (n r c j : nat) (tn : C),
      nth_error t n = Some tn ->
      item a' n r c j =
      if ((r =? rx)%nat && (c =? tx)%nat && (Z.of_nat j =? floor (delay * fs))%Z)
      then option_map (fun z => Cadd z (Cscale (sqrt power) tn)) (item a n r c j)
      else item a n r c j.
Proof.
  intros Hwf Hns Hfs Hp Hlast Hs H0 H3 Hrx Htx.
  destruct (tap_ok ch ts lg ng g Hns) as (t & g' & Ht & Hlen).
  destruct (delay_index_bounds ch fs path_idx delay last Hwf Hfs Hp Hlast)
    as [Hint Hb].
  assert (Hk : (0 <= floor (delay * fs) < Z.of_nat (dim3 a))%Z) by (rewrite H3; lia).
  assert (Hw : length (vscale (sqrt power) t) = dim0 a)
    by (rewrite vscale_length; congruence).
  destruct (iadd_tap_ok a rx tx (floor (delay * fs)) (vscale (sqrt power) t)
              Hs Hrx Htx Hk Hw)
    as (a' & Ha' & Hs' & E0 & E1 & E2 & E3 & Hitem).
  exists t, g', a'.
  split; [exact Ht|]; split; [exact Hlen|]; split; [|split; [exact Hs'|]];
    [|do 4 (split; [assumption|])].
  - unfold deposit; rewrite Ht; simpl.
    unfold get_item; rewrite Hp; simpl.
    rewrite Hint, Ha'; reflexivity.
  - intros n r c j tn Hn.
    rewrite (Hitem n r c j (Cscale (sqrt power) tn)).
    + replace (j =? Z.to_nat (floor (delay * fs)))%nat
        with (Z.of_nat j =? floor (delay * fs))%Z; [reflexivity|].
      destruct (Z.eqb_spec (Z.of_nat j) (floor (delay * fs))) as [E|E];
        symmetry; [apply Nat.eqb_eq | apply Nat.eqb_neq]; lia.
    + unfold vscale; rewrite nth_error_map, Hn; reflexivity.
Qed.

Lemma int_of_IZR (z : Z) : (0 <= z)%Z -> int_of (IZR z) = z.
Proof.
  intros H; rewrite int_of_nonneg by (apply IZR_le in H; exact H).
  apply floor_IZR.
Qed.

(** Without interpolation, the loop body of [impulse_response] run for a
    path of a constructed channel and an antenna pair adds the path's scaled
    gain sequence to the delay tap [floor(delay * sampling_rate)] of that pair,
    sample by sample, and leaves every other entry of the array as it was. *)
Lemma deposit_into_single_tap
    (d p : list R) (k : list xreal) (ns : option Z) (la df ldf : option R)
    (interp : option bool) (kw : Channel) (ch : MultipathFadingChannel)
    (sampling_rate : R) (timestamps : list R) (power : R) (path_idx : nat)
    (los_gain nlos_gain : R) (a : ndarray4) (g : rng_state) (rx tx : nat)
    (delay last : R) :
  init d p k ns la df ldf interp kw = Ok ch ->
  (0 < num_sinusoids ch)%Z -> 0 <= sampling_rate ->
  nth_error (delays ch) path_idx = Some delay ->
  last_item (delays ch) = Ok last ->
  shaped a -> dim0 a = length timestamps ->
  dim3 a = Z.to_nat (int_of (last * sampling_rate) + 1) ->
  (rx < dim1 a)%nat -> (tx < dim2 a)%nat ->
  0 <= delay /\
  exists (t : list C) (g' : rng_state) (a' : ndarray4),
    tap ch timestamps los_gain nlos_gain g = Ok (t, g') /\
    deposit ch sampling_rate timestamps None power path_idx los_gain nlos_gain
            (a, g) (rx, tx) = Ok (a', g') /\
    forall (n r c j : nat) (tn : C),
      nth_error t n = Some tn ->
      item a' n r c j =
      if ((r =? rx)%nat && (c =? tx)%nat
          && (Z.of_nat j =? floor (delay * sampling_rate))%Z)
      then option_map (fun z => Cadd z (Cscale (sqrt power) tn)) (item a n r c j)
      else item a n r c j.
Proof.
  intros Hinit Hns Hfs Hp Hlast Hs H0 H3 Hrx Htx.
  pose proof (init_well_formed _ _ _ _ _ _ _ _ _ _ Hinit) as Hwf.
  split.
  - destruct Hwf as (_ & Hd & _).
    apply nth_error_In in Hp; rewrite Forall_forall in Hd; apply Hd; exact Hp.
  - destruct (deposit_nearest_ok ch sampling_rate timestamps power path_idx
                los_gain nlos_gain a g rx tx delay last
                Hwf Hns Hfs Hp Hlast Hs H0 H3 Hrx Htx)
      as (t & g' & a' & Ht & _ & Hd & _ & _ & _ & _ & _ & Hitem).
    exists t, g', a'; auto.
Qed.

Lemma three_taps_shaped : shaped three_taps.
Proof. unfold shaped, three_taps; simpl; repeat constructor. Qed.

Lemma deposit_into_single_tap_example :
  0 <= 1 /\
  exists (t : list C) (g' : rng_state) (a' : ndarray4),
    tap two_paths [0] 1 0 (constant_rng 0) = Ok (t, g') /\
    deposit two_paths 2 [0] None 1 1 1 0 (three_taps, constant_rng 0) (0, 0)%nat
      = Ok (a', g') /\
    forall (n r c j : nat) (tn : C),
      nth_error t n = Some tn ->
      item a' n r c j =
      if ((r =? 0)%nat && (c =? 0)%nat && (Z.of_nat j =? floor (1 * 2))%Z)
      then option_map (fun z => Cadd z (Cscale (sqrt 1) tn)) (item three_taps n r c j)
      else item three_taps n r c j.
Proof.
  apply (deposit_into_single_tap _ _ _ _ _ _ _ _ _ two_paths 2 [0] 1 1%nat 1 0
           three_taps (constant_rng 0) 0%nat 0%nat 1 1 init_two_paths).
  - reflexivity.
  - lra.
  - reflexivity.
  - reflexivity.
  - exact three_taps_shaped.
  - reflexivity.
  - replace (1 * 2) with (IZR 2) by (simpl; lra).
    rewrite int_of_IZR by lia; reflexivity.
  - simpl; lia.
  - simpl; lia.
Qed.

(** ** The loops of [impulse_response] without interpolation *)

Lemma foldM_cons {A S : Type} (f : S -> A -> result S) (x : A) (l : list A) (s : S) :
  foldM f (x :: l) s = bind (f s x) (foldM f l).
Proof. reflexivity. Qed.

Lemma bind_ok {A B : Type} (a : A) (k : A -> result B) : bind (Ok a) k = k a.
Proof. reflexivity. Qed.

Lemma deposit_nearest_index_error (ch : MultipathFadingChannel) (fs : R)
    (ts : list R) (power : R) (path_idx : nat) (lg ng : R) (a : ndarray4)
    (g : rng_state) (rx tx : nat) (delay : R) :
  (0 < num_sinusoids ch)%Z ->
  nth_error (delays ch) path_idx = Some delay ->
  (dim1 a <= rx)%nat \/ (dim2 a <= tx)%nat ->
  deposit ch fs ts None power path_idx lg ng (a, g) (rx, tx) = Raise IndexError.
Proof.
  intros Hns Hp Hout.
  destruct (tap_ok ch ts lg ng g Hns) as (t & g' & Ht & _).
  unfold deposit; rewrite Ht; simpl.
  unfold get_item; rewrite Hp; simpl.
  rewrite iadd_tap_index_error by exact Hout; reflexivity.
Qed.

Section NearestLoops.

Variable ch : MultipathFadingChannel.
Variables (fs : R) (ts : list R) (last : R).

Hypothesis Hwf : well_formed ch.
Hypothesis Hns : (0 < num_sinusoids ch)%Z.
Hypothesis Hfs : 0 <= fs.
Hypothesis Hlast : last_item (delays ch) = Ok last.

Lemma pairs_loop_ok (power : R) (path_idx : nat) (lg ng delay : R)
    (n1 n2 : nat) (pairs : list (nat * nat)) :
  nth_error (delays ch) path_idx = Some delay ->
  Forall (fun pr => (fst pr < n1)%nat /\ (snd pr < n2)%nat) pairs ->
  forall (a : ndarray4) (g : rng_state),
    loop_array fs ts last n1 n2 a ->
    exists a' g',
      foldM (deposit ch fs ts None power path_idx lg ng) pairs (a, g)
        = Ok (a', g') /\ loop_array fs ts last n1 n2 a'.
Proof.
  intros Hp; induction 1 as [|[rx tx] pairs [Hrx Htx] _ IH]; intros a g Ha.
  - exists a, g; split; [reflexivity | exact Ha].
  - destruct Ha as (Hs & H0 & H1 & H2 & H3); simpl in Hrx, Htx.
    destruct (deposit_nearest_ok ch fs ts power path_idx lg ng a g rx tx
                delay last Hwf Hns Hfs Hp Hlast Hs H0 H3)
      as (t & g1 & a1 & _ & _ & Hd & Hs1 & E0 & E1 & E2 & E3 & _);
      [lia | lia |].
    destruct (IH a1 g1) as (a' & g' & Hf & Ha').
    { unfold loop_array; split; [exact Hs1|]; repeat split; congruence. }
    exists a', g'; split; [|exact Ha'].
    rewrite foldM_cons, Hd, bind_ok; exact Hf.
Qed.

Lemma pairs_loop_index_error (power : R) (path_idx : nat) (lg ng delay : R)
    (n1 n2 : nat) (pairs : list (nat * nat)) :
  nth_error (delays ch) path_idx = Some delay ->
  Exists (fun pr => (n1 <= fst pr)%nat \/ (n2 <= snd pr)%nat) pairs ->
  forall (a : ndarray4) (g : rng_state),
    loop_array fs ts last n1 n2 a ->
    foldM (deposit ch fs ts None power path_idx lg ng) pairs (a, g)
      = Raise IndexError.
Proof.
  intros Hp HE; induction pairs as [|[rx tx] pairs IH]; intros a g Ha.
  - inversion HE.
  - destruct Ha as (Hs & H0 & H1 & H2 & H3).
    destruct (Nat.lt_ge_cases rx n1) as [Hrx|Hrx];
      [destruct (Nat.lt_ge_cases tx n2) as [Htx|Htx]|].
    + destruct (deposit_nearest_ok ch fs ts power path_idx lg ng a g rx tx
                  delay last Hwf Hns Hfs Hp Hlast Hs H0 H3)
        as (t & g1 & a1 & _ & _ & Hd & Hs1 & E0 & E1 & E2 & E3 & _);
        [lia | lia |].
      rewrite foldM_cons, Hd, bind_ok; apply IH.
      * inversion HE as [? ? Hhd|]; subst; [simpl in Hhd; lia | assumption].
      * unfold loop_array; split; [exact Hs1|]; repeat split; congruence.
    + rewrite foldM_cons, (deposit_nearest_index_error _ _ _ _ _ _ _ _ _ _ _ delay);
        [reflexivity | exact Hns | exact Hp | right; lia].
    + rewrite foldM_cons, (deposit_nearest_index_error _ _ _ _ _ _ _ _ _ _ _ delay);
        [reflexivity | exact Hns | exact Hp | left; lia].
Qed.

Lemma paths_loop_ok (n1 n2 : nat) (entries : list (R * (nat * (R * R)))) :
  Forall (fun pr => (fst pr < n1)%nat /\ (snd pr < n2)%nat) (antenna_pairs ch) ->
  Forall (fun e => (fst (snd e) < length (delays ch))%nat) entries ->
  forall (a : ndarray4) (g : rng_state),
    loop_array fs ts last n1 n2 a ->
    exists a' g',
      foldM (deposit_path ch fs ts None) entries (a, g) = Ok (a', g') /\
      loop_array fs ts last n1 n2 a'.
Proof.
  intros Hpairs; induction 1 as [|[power [path_idx [lg ng]]] entries Hp _ IH];
    intros a g Ha.
  - exists a, g; split; [reflexivity | exact Ha].
  - simpl in Hp; apply nth_error_Some in Hp.
    destruct (nth_error (delays ch) path_idx) as [delay|] eqn:Hd; [|congruence].
    destruct (pairs_loop_ok power path_idx lg ng delay n1 n2 _ Hd Hpairs a g Ha)
      as (a1 & g1 & Hf & Ha1).
    destruct (IH a1 g1 Ha1) as (a' & g' & Hf' & Ha').
    exists a', g'; split; [|exact Ha'].
    rewrite foldM_cons; unfold deposit_path at 1; rewrite Hf, bind_ok; exact Hf'.
Qed.

Lemma paths_loop_index_error (n1 n2 : nat) (power : R) (lg ng : R)
    (entries : list (R * (nat * (R * R)))) (a : ndarray4) (g : rng_state) :
  Exists (fun pr => (n1 <= fst pr)%nat \/ (n2 <= snd pr)%nat) (antenna_pairs ch) ->
  loop_array fs ts last n1 n2 a ->
  foldM (deposit_path ch fs ts None) ((power, (0%nat, (lg, ng))) :: entries) (a, g)
    = Raise IndexError.
Proof.
  intros HE Ha.
  destruct (nth_error (delays ch) 0) as [delay|] eqn:Hd.
  - rewrite foldM_cons; unfold deposit_path at 1.
    rewrite (pairs_loop_index_error power 0 lg ng delay n1 n2 _ Hd HE a g Ha).
    reflexivity.
  - apply nth_error_None in Hd.
    pose proof (proj1 Hwf) as Hne.
    exfalso; apply Hne, length_zero_iff_nil; lia.
Qed.

End NearestLoops.

Lemma path_table_head (ch : MultipathFadingChannel) :
  well_formed ch ->
  exists power lg ng entries, path_table ch = (power, (0%nat, (lg, ng))) :: entries.
Proof.
  intros (Hne & _ & _ & Hp & Hl & Hn & Hnum & _); unfold path_table.
  rewrite Hnum.
  destruct (delays ch) as [|d0 ds]; [congruence|].
  destruct (power_profile ch) as [|p0 ps]; [discriminate|].
  destruct (los_gains ch) as [|l0 ls]; [discriminate|].
  destruct (non_los_gains ch) as [|n0 ns]; [discriminate|].
  simpl; eauto.
Qed.

Lemma path_table_indices (ch : MultipathFadingChannel) :
  well_formed ch ->
  Forall (fun e => (fst (snd e) < length (delays ch))%nat) (path_table ch).
Proof.
  intros (_ & _ & _ & _ & _ & _ & Hnum & _); unfold path_table.
  apply Forall_forall; intros [power [i rest]] Hin; simpl.
  apply in_combine_r, in_combine_l, in_seq in Hin; lia.
Qed.

Lemma timestamps_length (n : nat) (fs : R) : length (timestamps_of n fs) = n.
Proof. unfold timestamps_of; rewrite length_map; apply length_seq. Qed.

(** Up to the loops, [impulse_response] without interpolation cannot fail on
    a well-formed channel. *)
Lemma impulse_response_prelude (ch : MultipathFadingChannel) (n : nat) (fs : R)
    (g : rng_state) :
  well_formed ch -> 0 <= fs ->
  impulse_response_interpolation (base ch) = false ->
  exists last a0,
    last_item (delays ch) = Ok last /\
    loop_array fs (timestamps_of n fs) last (receiver_num_antennas (base ch))
               (transmitter_num_antennas (base ch)) a0 /\
    impulse_response ch n fs g =
    bind (foldM (deposit_path ch fs (timestamps_of n fs) None) (path_table ch) (a0, g))
         (fun st => Ok (smul (gain (base ch)) (fst st), snd st)).
Proof.
  intros Hwf Hfs Hint.
  destruct (last_item_nth _ (proj1 Hwf)) as [last [Hlast Hnth]].
  destruct (delay_index_bounds ch fs _ last last Hwf Hfs Hnth Hlast) as [_ Hb].
  destruct (zeros_ok n (receiver_num_antennas (base ch))
              (transmitter_num_antennas (base ch)) (int_of (last * fs) + 1))
    as (a0 & Hz & Hs & E0 & E1 & E2 & E3); [lia|].
  exists last, a0; split; [exact Hlast|]; split.
  - unfold loop_array; rewrite timestamps_length; auto.
  - unfold impulse_response; rewrite Hlast, bind_ok, Hz, bind_ok, Hint, bind_ok.
    destruct (foldM _ _ _) as [[a g']|e]; reflexivity.
Qed.

Lemma antenna_pairs_in (ch : MultipathFadingChannel) (i j : nat) :
  In (i, j) (antenna_pairs ch) <->
  (i < transmitter_num_antennas (base ch))%nat /\
  (j < receiver_num_antennas (base ch))%nat.
Proof.
  unfold antenna_pairs; rewrite in_prod_iff, !in_seq; lia.
Qed.

(** With as many receive as transmit antennas, [impulse_response] returns a
    tensor of the requested shape. *)
Lemma impulse_response_square_ok (ch : MultipathFadingChannel) (n : nat) (fs : R)
    (g : rng_state) :
  well_formed ch -> (0 < num_sinusoids ch)%Z -> 0 <= fs ->
  impulse_response_interpolation (base ch) = false ->
  transmitter_num_antennas (base ch) = receiver_num_antennas (base ch) ->
  exists last h g',
    last_item (delays ch) = Ok last /\
    impulse_response ch n fs g = Ok (h, g') /\
    shaped h /\ dim0 h = n /\
    dim1 h = receiver_num_antennas (base ch) /\
    dim2 h = transmitter_num_antennas (base ch) /\
    dim3 h = Z.to_nat (int_of (last * fs) + 1).
Proof.
  intros Hwf Hns Hfs Hint Heq.
  destruct (impulse_response_prelude ch n fs g Hwf Hfs Hint)
    as (last & a0 & Hlast & Ha0 & Hir).
  destruct (paths_loop_ok ch fs (timestamps_of n fs) last Hwf Hns Hfs Hlast
              (receiver_num_antennas (base ch)) (transmitter_num_antennas (base ch))
              (path_table ch)) with (a := a0) (g := g)
    as (a & g' & Hf & (Hs & E0 & E1 & E2 & E3)).
  - apply Forall_forall; intros [i j] Hin; apply antenna_pairs_in in Hin.
    simpl; lia.
  - apply path_table_indices; exact Hwf.
  - exact Ha0.
  - exists last, (smul (gain (base ch)) a), g'.
    split; [exact Hlast|]; split; [rewrite Hir, Hf; reflexivity|].
    rewrite timestamps_length in E0.
    split; [|simpl; auto].
    destruct Hs as [L HF]; split; simpl; [rewrite length_map; exact L|].
    apply Forall_map; revert HF; apply Forall_impl; intros plane [Hp HF].
    split; [rewrite length_map; exact Hp|].
    apply Forall_map; revert HF; apply Forall_impl; intros line [Hl HF].
    split; [rewrite length_map; exact Hl|].
    apply Forall_map; revert HF; apply Forall_impl; intros row Hr.
    rewrite length_map; exact Hr.
Qed.

Lemma impulse_response_unequal (ch : MultipathFadingChannel) (n : nat) (fs : R)
    (g : rng_state) :
  well_formed ch -> (0 < num_sinusoids ch)%Z -> 0 <= fs ->
  impulse_response_interpolation (base ch) = false ->
  (1 <= transmitter_num_antennas (base ch))%nat ->
  (1 <= receiver_num_antennas (base ch))%nat ->
  transmitter_num_antennas (base ch) <> receiver_num_antennas (base ch) ->
  impulse_response ch n fs g = Raise IndexError.
Proof.
  intros Hwf Hns Hfs Hint Htx Hrx Hneq.
  destruct (impulse_response_prelude ch n fs g Hwf Hfs Hint)
    as (last & a0 & Hlast & Ha0 & Hir).
  destruct (path_table_head ch Hwf) as (power & lg & ng & entries & Htab).
  rewrite Hir, Htab.
  rewrite (paths_loop_index_error ch fs (timestamps_of n fs) last Hwf Hns Hfs Hlast
             (receiver_num_antennas (base ch)) (transmitter_num_antennas (base ch)));
    [reflexivity | | exact Ha0].
  apply Exists_exists.
  destruct (Nat.lt_ge_cases (receiver_num_antennas (base ch))
              (transmitter_num_antennas (base ch))) as [Hlt|Hge].
  - exists (receiver_num_antennas (base ch), 0%nat); split.
    + apply antenna_pairs_in; lia.
    + left; simpl; lia.
  - exists (0%nat, transmitter_num_antennas (base ch)); split.
    + apply antenna_pairs_in; lia.
    + right; simpl; lia.
Qed.

(** C3 fails where the antenna counts differ: the inner loop draws the
    receive index from the transmit range and the transmit index from the
    receive range, so on a constructed channel with at least one antenna on
    each side and unequal counts [impulse_response] raises [IndexError]
    instead of returning the tensor. *)
Theorem impulse_response_unequal_antennas
    (d p : list R) (k : list xreal) (ns : option Z) (la df ldf : option R)
    (interp : option bool) (kw : Channel) (ch : MultipathFadingChannel)
    (num_samples : nat) (sampling_rate : R) (g : rng_state) :
  init d p k ns la df ldf interp kw = Ok ch ->
  (0 < num_sinusoids ch)%Z -> 0 <= sampling_rate ->
  impulse_response_interpolation kw = false ->
  (1 <= transmitter_num_antennas kw)%nat ->
  (1 <= receiver_num_antennas kw)%nat ->
  transmitter_num_antennas kw <> receiver_num_antennas kw ->
  raises (impulse_response ch num_samples sampling_rate g) IndexError.
Proof.
  intros Hinit Hns Hfs Hint Htx Hrx Hneq.
  pose proof (init_well_formed _ _ _ _ _ _ _ _ _ _ Hinit) as Hwf.
  destruct (init_ok_inv _ _ _ _ _ _ _ _ _ _ Hinit) as (_ & _ & _ & _ & _ & _ & _ & Hb).
  apply impulse_response_unequal; rewrite ?Hb; assumption.
Qed.

Lemma init_single_path (power : R) (K : xreal) (ns : option Z)
    (la df ldf : option R) (interp : option bool) (kw : Channel) :
  0 <= power -> xnonneg K ->
  init [0] [power] [K] ns la df ldf interp kw =
  Ok (single_path power K ns la df ldf interp kw).
Proof.
  intros Hp HK; unfold init.
  rewrite validate_intro;
    try reflexivity; try (simpl; lia); try solve_forall.
  constructor; [exact HK | constructor].
Qed.

Lemma impulse_response_unequal_antennas_witness :
  exists ch,
    init [0] [1] [Finite 0] None None None None None two_by_one = Ok ch /\
    raises (impulse_response ch 1 1 (constant_rng 0)) IndexError.
Proof.
  eexists; split.
  - apply init_single_path; simpl; lra.
  - apply (impulse_response_unequal_antennas [0] [1] [Finite 0]
             None None None None None two_by_one _ 1%nat 1 (constant_rng 0)).
    + apply init_single_path; simpl; lra.
    + reflexivity.
    + lra.
    + reflexivity.
    + simpl; lia.
    + simpl; lia.
    + simpl; lia.
Defined.

(** ** A channel without sinusoids *)

Lemma interpolation_filter_ok (ch : MultipathFadingChannel) (fs : R) :
  well_formed ch -> 0 <= fs ->
  exists f, interpolation_filter ch fs = Ok f.
Proof.
  intros Hwf Hfs.
  destruct (last_item_nth _ (proj1 Hwf)) as [last [Hlast Hnth]].
  destruct (delay_index_bounds ch fs _ last last Hwf Hfs Hnth Hlast) as [_ Hb].
  destruct Hwf as (_ & _ & _ & _ & _ & _ & Hnum & _).
  unfold interpolation_filter; rewrite Hlast, bind_ok.
  destruct (Z.ltb_spec (int_of (last * fs) + 1) 0); [lia|].
  destruct (Nat.ltb_spec (num_resolvable_paths ch) (length (delays ch))); [lia|].
  eexists; reflexivity.
Qed.

Lemma deposit_zero_sinusoids (ch : MultipathFadingChannel) (fs : R) (ts : list R)
    (interpolation : option (list (list R))) (power : R) (path_idx : nat)
    (lg ng : R) (st : ndarray4 * rng_state) (pair : nat * nat) :
  num_sinusoids ch = 0%Z ->
  deposit ch fs ts interpolation power path_idx lg ng st pair
    = Raise ZeroDivisionError.
Proof.
  intros H; destruct st as [a g], pair as [rx tx]; unfold deposit.
  rewrite tap_zero_sinusoids by exact H; reflexivity.
Qed.

Lemma antenna_pairs_head (ch : MultipathFadingChannel) :
  (1 <= transmitter_num_antennas (base ch))%nat ->
  (1 <= receiver_num_antennas (base ch))%nat ->
  exists pairs, antenna_pairs ch = (0%nat, 0%nat) :: pairs.
Proof.
  unfold antenna_pairs; intros Ht Hr.
  destruct (transmitter_num_antennas (base ch)) as [|t]; [lia|].
  destruct (receiver_num_antennas (base ch)) as [|r]; [lia|].
  simpl; eauto.
Qed.

Lemma impulse_response_zero_sinusoids (ch : MultipathFadingChannel) (n : nat)
    (fs : R) (g : rng_state) :
  well_formed ch -> num_sinusoids ch = 0%Z -> 0 <= fs ->
  (1 <= transmitter_num_antennas (base ch))%nat ->
  (1 <= receiver_num_antennas (base ch))%nat ->
  impulse_response ch n fs g = Raise ZeroDivisionError.
Proof.
  intros Hwf Hns Hfs Ht Hr.
  destruct (last_item_nth _ (proj1 Hwf)) as [last [Hlast Hnth]].
  destruct (delay_index_bounds ch fs _ last last Hwf Hfs Hnth Hlast) as [_ Hb].
  destruct (zeros_ok n (receiver_num_antennas (base ch))
              (transmitter_num_antennas (base ch)) (int_of (last * fs) + 1))
    as (a0 & Hz & _); [lia|].
  destruct (path_table_head ch Hwf) as (power & lg & ng & entries & Htab).
  destruct (antenna_pairs_head ch Ht Hr) as [pairs Hpairs].
  destruct (interpolation_filter_ok ch fs Hwf Hfs) as [f Hf].
  unfold impulse_response.
  rewrite Hlast, bind_ok, Hz, bind_ok, Htab, Hf.
  destruct (impulse_response_interpolation (base ch));
    rewrite !bind_ok, foldM_cons; unfold deposit_path at 1;
    rewrite Hpairs, foldM_cons, deposit_zero_sinusoids by exact Hns;
    reflexivity.
Qed.

(** C10: the setter of [num_sinusoids] refuses exactly the negative values,
    so it accepts zero; on every channel whose [num_sinusoids] is zero each
    tap generation raises [ZeroDivisionError], and so does
    [impulse_response] on the channel the setter leaves behind, as soon as
    there is an antenna pair to generate a tap for. *)
Theorem zero_sinusoids_zero_division
    (d p : list R) (k : list xreal) (ns : option Z) (la df ldf : option R)
    (interp : option bool) (kw : Channel) (ch0 : MultipathFadingChannel) :
  init d p k ns la df ldf interp kw = Ok ch0 ->
  (forall num : Z,
     raises (set_num_sinusoids num ch0) ValueError <-> (num < 0)%Z) /\
  (forall (ch : MultipathFadingChannel) (timestamps : list R)
          (los_gain nlos_gain : R) (g : rng_state),
     num_sinusoids ch = 0%Z ->
     raises (tap ch timestamps los_gain nlos_gain g) ZeroDivisionError) /\
  exists ch,
    set_num_sinusoids 0 ch0 = Ok ch /\ num_sinusoids ch = 0%Z /\
    (forall (num_samples : nat) (sampling_rate : R) (g : rng_state),
       0 <= sampling_rate ->
       (1 <= transmitter_num_antennas kw)%nat ->
       (1 <= receiver_num_antennas kw)%nat ->
       raises (impulse_response ch num_samples sampling_rate g) ZeroDivisionError).
Proof.
  intros Hinit; split; [|split].
  - intros num; unfold raises, set_num_sinusoids.
    destruct (Z.ltb_spec num 0); split; intros; try reflexivity;
      try discriminate; try lia; assumption.
  - intros ch ts lg ng g Hz; apply tap_zero_sinusoids; exact Hz.
  - pose proof (init_well_formed _ _ _ _ _ _ _ _ _ _ Hinit) as Hwf.
    destruct (init_ok_inv _ _ _ _ _ _ _ _ _ _ Hinit)
      as (_ & _ & _ & _ & _ & _ & _ & Hb).
    assert (Hset : exists ch, set_num_sinusoids 0 ch0 = Ok ch /\
                              num_sinusoids ch = 0%Z /\ base ch = base ch0)
      by (eexists; repeat split; reflexivity).
    destruct Hset as (ch & Hset & Hz & Hbase).
    exists ch; split; [exact Hset|]; split; [exact Hz|].
    intros n fs g Hfs Ht Hr.
    apply impulse_response_zero_sinusoids; rewrite ?Hbase, ?Hb; try assumption.
    apply (set_num_sinusoids_well_formed 0 ch0); [exact Hset | exact Hwf].
Qed.

Lemma zero_sinusoids_zero_division_witness :
  raises (set_num_sinusoids (-1) two_paths) ValueError /\
  exists ch,
    set_num_sinusoids 0 two_paths = Ok ch /\ num_sinusoids ch = 0%Z /\
    raises (tap ch [0] 1 0 (constant_rng 0)) ZeroDivisionError /\
    raises (impulse_response ch 1 1 (constant_rng 0)) ZeroDivisionError.
Proof.
  destruct (zero_sinusoids_zero_division _ _ _ _ _ _ _ _ _ _ init_two_paths)
    as (Hneg & Htap & ch & Hset & Hz & Hir).
  split.
  - apply Hneg; lia.
  - exists ch; split; [exact Hset|]; split; [exact Hz|]; split.
    + apply Htap; exact Hz.
    + apply Hir; [lra | simpl; lia | simpl; lia].
Defined.

(** ** The recommended minimum sampling rate *)

Lemma min_sampling_rate_interpolated (ch : MultipathFadingChannel) :
  impulse_response_interpolation (base ch) = true -> min_sampling_rate ch = Ok 0.
Proof. intros H; unfold min_sampling_rate; rewrite H; reflexivity. Qed.

Lemma diff_length (a : list R) : length (diff a) = (length a - 1)%nat.
Proof.
  unfold diff; destruct a as [|x a]; [reflexivity|]; simpl.
  rewrite Nat.sub_0_r; generalize x; clear x.
  induction a as [|y a IH]; intros x; simpl; [reflexivity|].
  rewrite IH; reflexivity.
Qed.

(** With two paths or more the recommendation is the quotient of the spec,
    and zero where the smallest gap is zero. *)
Lemma min_sampling_rate_gap (ch : MultipathFadingChannel) :
  impulse_response_interpolation (base ch) = false ->
  (2 <= length (delays ch))%nat ->
  exists gap,
    np_min (diff (delays ch)) = Ok gap /\
    (gap = 0 -> min_sampling_rate ch = Ok 0) /\
    (gap <> 0 -> min_sampling_rate ch = Ok ((1 - 4 / 10) / gap)).
Proof.
  intros Hint Hlen; unfold min_sampling_rate; rewrite Hint.
  pose proof (diff_length (delays ch)) as Hd.
  destruct (diff (delays ch)) as [|x l]; [simpl in Hd; lia|].
  exists (fold_left Rmin l x); split; [reflexivity|].
  simpl; unfold float_div, delay_resolution_error.
  destruct (Req_dec_T (fold_left Rmin l x) 0); split; intros; try reflexivity;
    contradiction.
Qed.

(** C9 fails on a path set of one path: without interpolation the gaps
    between sorted delays form an empty array, whose minimum raises
    [ValueError], so the query returns no value. *)
Theorem min_sampling_rate_single_path
    (d p : list R) (k : list xreal) (ns : option Z) (la df ldf : option R)
    (interp : option bool) (kw : Channel) (ch : MultipathFadingChannel) :
  init d p k ns la df ldf interp kw = Ok ch ->
  length d = 1%nat ->
  impulse_response_interpolation kw = false ->
  raises (min_sampling_rate ch) ValueError.
Proof.
  intros Hinit Hlen Hint.
  destruct (init_ok_inv _ _ _ _ _ _ _ _ _ _ Hinit)
    as (_ & Hd & _ & _ & _ & _ & _ & Hb).
  unfold raises, min_sampling_rate; rewrite Hb, Hint.
  pose proof (diff_length (delays ch)) as Hdl.
  rewrite Hd, take_length, argsort_length, Hlen in Hdl.
  rewrite <- Hd in Hdl.
  destruct (diff (delays ch)); [reflexivity | discriminate].
Qed.

Lemma min_sampling_rate_single_path_witness :
  exists ch,
    init [0] [1] [Finite 0] None None None None None siso = Ok ch /\
    raises (min_sampling_rate ch) ValueError.
Proof.
  eexists; split.
  - apply init_single_path; simpl; lra.
  - apply (min_sampling_rate_single_path [0] [1] [Finite 0]
             None None None None None siso).
    + apply init_single_path; simpl; lra.
    + reflexivity.
    + reflexivity.
Defined.

(** ** Serialization *)

(** C6 fails on every channel: [to_yaml] writes the power profile as it is,
    in linear scale, and writes no [rice_factors] entry; [from_yaml] takes
    the stored profile for decibels and converts it, and the constructor,
    which requires [rice_factors], raises [TypeError]. *)
Theorem yaml_round_trip_raises (defaults : Channel) (node : MultipathFadingChannel) :
  lookup "power_profile" (to_yaml node) = Some (YSeq (power_profile node)) /\
  lookup "rice_factors" (to_yaml node) = None /\
  lookup "power_profile" (convert_power_profile (to_yaml node)) =
    Some (YSeq (map db2lin (power_profile node))) /\
  raises (from_yaml defaults (to_yaml node)) TypeError.
Proof.
  split; [reflexivity|].
  split; [reflexivity|].
  split; [reflexivity|].
  reflexivity.
Qed.

(** A linear power of one read back as decibels is no longer one. *)
Lemma db2lin_1_gt_1 : 1 < db2lin 1.
Proof.
  unfold db2lin, Rpower.
  rewrite <- exp_0 at 1; apply exp_increasing.
  apply Rmult_lt_0_compat; [lra|].
  rewrite <- ln_1; apply ln_increasing; lra.
Qed.

(** ** The channel gain *)

Lemma Cscale_0 (r : R) : Cscale r C0 = C0.
Proof.
  unfold Cscale, C0; simpl; f_equal; ring.
Qed.

Lemma Cscale_add (r : R) (a b : C) :
  Cscale r (Cadd a b) = Cadd (Cscale r a) (Cscale r b).
Proof.
  unfold Cscale, Cadd; simpl; f_equal; ring.
Qed.

Lemma Cmul_scale_l (r : R) (a b : C) : Cmul (Cscale r a) b = Cscale r (Cmul a b).
Proof.
  unfold Cscale, Cmul; simpl; f_equal; ring.
Qed.

Lemma Cscale_scale (r s : R) (a : C) : Cscale r (Cscale s a) = Cscale (r * s) a.
Proof.
  unfold Cscale; simpl; f_equal; ring.
Qed.

Lemma Csum_scale {A : Type} (r : R) (f : A -> C) (l : list A) :
  Csum (map (fun i => Cscale r (f i)) l) = Cscale r (Csum (map f l)).
Proof.
  induction l as [|x l IH]; simpl.
  - symmetry; apply Cscale_0.
  - rewrite IH, Cscale_add; reflexivity.
Qed.

Lemma smul_smul (r s : R) (a : ndarray4) : smul r (smul s a) = smul (r * s) a.
Proof.
  unfold smul; simpl; f_equal.
  rewrite map_map; apply map_ext; intros plane.
  rewrite map_map; apply map_ext; intros line.
  rewrite map_map; apply map_ext; intros row.
  rewrite map_map; apply map_ext; intros c.
  apply Cscale_scale.
Qed.

Lemma item_smul (r : R) (a : ndarray4) (n rx tx k : nat) :
  item (smul r a) n rx tx k = option_map (Cscale r) (item a n rx tx k).
Proof.
  unfold item, smul; simpl.
  rewrite nth_error_map; destruct (nth_error (data a) n) as [plane|]; simpl; auto.
  rewrite nth_error_map; destruct (nth_error plane rx) as [line|]; simpl; auto.
  rewrite nth_error_map; destruct (nth_error line tx) as [row|]; simpl; auto.
  apply nth_error_map.
Qed.

Lemma item0_smul (r : R) (a : ndarray4) (n rx tx k : nat) :
  item0 (smul r a) n rx tx k = Cscale r (item0 a n rx tx k).
Proof.
  unfold item0; rewrite item_smul.
  destruct (item a n rx tx k); simpl; [reflexivity | symmetry; apply Cscale_0].
Qed.

Lemma convolve_smul (r : R) (h : ndarray4) (x : list (list C)) (n : nat) :
  convolve (smul r h) x n = sigscale r (convolve h x n).
Proof.
  unfold convolve, sigscale; simpl.
  rewrite map_map; apply map_ext; intros rx.
  rewrite map_map; apply map_ext; intros m.
  rewrite <- Csum_scale; f_equal; apply map_ext; intros tx.
  rewrite <- Csum_scale; f_equal; apply map_ext; intros k.
  destruct ((k <=? m)%nat && (m - k <? n)%nat).
  - rewrite item0_smul; apply Cmul_scale_l.
  - symmetry; apply Cscale_0.
Qed.

(** The gain enters [impulse_response] in its last line only. *)
Lemma impulse_response_gain (ch : MultipathFadingChannel) (gn : R) (n : nat)
    (fs : R) (g : rng_state) :
  impulse_response (with_gain gn ch) n fs g =
  on_value (smul gn) (impulse_response (with_gain 1 ch) n fs g).
Proof.
  unfold impulse_response, on_value.
  change (delays (with_gain gn ch)) with (delays (with_gain 1 ch)).
  destruct (last_item (delays (with_gain 1 ch))) as [last|e]; [|reflexivity].
  rewrite !bind_ok.
  change (receiver_num_antennas (base (with_gain gn ch)))
    with (receiver_num_antennas (base (with_gain 1 ch))).
  change (transmitter_num_antennas (base (with_gain gn ch)))
    with (transmitter_num_antennas (base (with_gain 1 ch))).
  destruct (zeros _ _ _ _) as [a0|e]; [|reflexivity].
  rewrite !bind_ok.
  change (impulse_response_interpolation (base (with_gain gn ch)))
    with (impulse_response_interpolation (base (with_gain 1 ch))).
  change (interpolation_filter (with_gain gn ch) fs)
    with (interpolation_filter (with_gain 1 ch) fs).
  destruct (if impulse_response_interpolation (base (with_gain 1 ch))
            then _ else _) as [interpolation|e]; [|reflexivity].
  rewrite !bind_ok.
  change (foldM (deposit_path (with_gain gn ch) fs (timestamps_of n fs) interpolation)
                (path_table (with_gain gn ch)) (a0, g))
    with (foldM (deposit_path (with_gain 1 ch) fs (timestamps_of n fs) interpolation)
                (path_table (with_gain 1 ch)) (a0, g)).
  destruct (foldM _ _ _) as [[a g']|e]; [|reflexivity].
  simpl; rewrite smul_smul, Rmult_1_r; reflexivity.
Qed.

(** C4: for one state of the random stream, the impulse response and the
    propagated signal of a channel of gain [g] are [g] times those of the
    same channel with gain one; where one raises, so does the other. *)
Theorem channel_gain_scales (ch : MultipathFadingChannel) (gn : R)
    (x : list (list C)) (num_samples : nat) (sampling_rate : R) (g : rng_state) :
  impulse_response (with_gain gn ch) num_samples sampling_rate g =
  on_value (smul gn) (impulse_response (with_gain 1 ch) num_samples sampling_rate g)
  /\
  propagate (with_gain gn ch) x sampling_rate g =
  on_value (sigscale gn) (propagate (with_gain 1 ch) x sampling_rate g).
Proof.
  split; [apply impulse_response_gain|].
  unfold propagate; rewrite impulse_response_gain; unfold on_value.
  destruct (impulse_response (with_gain 1 ch) _ _ _) as [[h g']|e]; [|reflexivity].
  simpl; rewrite convolve_smul; reflexivity.
Qed.

(** ** The pure line-of-sight channel *)

Lemma vscale_zero (r : R) (a : list C) :
  r = 0 -> Forall (fun c => c = C0) (vscale r a).
Proof.
  intros ->; unfold vscale; apply Forall_forall; intros c Hc.
  apply in_map_iff in Hc as [z [<- _]].
  unfold Cscale, C0; f_equal; ring.
Qed.

Lemma tap_los_only (ch : MultipathFadingChannel) (ts : list R) (lg : R)
    (g : rng_state) :
  (0 < num_sinusoids ch)%Z ->
  tap ch ts lg 0 g =
  Ok (map (fun t => Cscale lg (los_phasor ch g t)) ts,
      advance g (draws_per_tap ch)).
Proof.
  intros Hns; unfold tap, uniform_n.
  destruct (Z.ltb_spec (num_sinusoids ch) 0) as [|_]; [lia|].
  rewrite !bind_ok.
  destruct (Z.eqb_spec (num_sinusoids ch) 0) as [|_]; [lia|].
  unfold los_phasor, los_phase_of, los_angle_of, draws_per_tap, sinusoid_draws.
  set (N := Z.to_nat (num_sinusoids ch)).
  destruct (los_angle ch) as [angle|]; unfold uniform, peek, advance; simpl;
    f_equal; f_equal.
  - rewrite vadd_zero_r.
    + apply map_ext; intros t; do 3 f_equal.
      replace (cursor g + N + N + 0)%nat with (cursor g + (N + (N + 0) + 0))%nat
        by lia.
      ring.
    + rewrite length_map, vscale_length.
      rewrite nlos_sum_length; [reflexivity | apply repeat_length].
    + apply vscale_zero; ring.
  - f_equal; lia.
  - rewrite vadd_zero_r.
    + apply map_ext; intros t; do 3 f_equal.
      * f_equal; f_equal.
        replace (cursor g + N + N + 0)%nat with (cursor g + (N + (N + 0)))%nat
          by lia.
        ring.
      * replace (cursor g + N + N + 1 + 0)%nat
          with (cursor g + (N + (N + 0) + 1))%nat by lia.
        ring.
    + rewrite length_map, vscale_length.
      rewrite nlos_sum_length; [reflexivity | apply repeat_length].
    + apply vscale_zero; ring.
  - f_equal; lia.
Qed.

Lemma map2_repeat {A B D : Type} (f : A -> B -> D) (x : A) (l : list B) (n : nat) :
  length l = n -> map2 f (repeat x n) l = map (f x) l.
Proof.
  intros <-; induction l as [|y l IH]; simpl; [reflexivity | rewrite IH; reflexivity].
Qed.

Lemma sinc_0 : sinc 0 = 1.
Proof. unfold sinc; destruct (Req_dec_T 0 0); [reflexivity | contradiction]. Qed.

(** For one path at delay zero the interpolation filter is the single
    coefficient one. *)
Lemma interpolation_filter_los (power : R) (K : xreal) (ns : option Z)
    (la df ldf : option R) (interp : option bool) (kw : Channel) (fs : R) :
  interpolation_filter (single_path power K ns la df ldf interp kw) fs = Ok [[1]].
Proof.
  unfold interpolation_filter; simpl delays.
  change (last_item [0]) with (Ok 0); rewrite bind_ok.
  rewrite Rmult_0_l, int_of_0; simpl.
  unfold frobenius; simpl.
  replace ((0 / fs - 0 - 0 / fs) * fs) with 0 by (unfold Rdiv; ring).
  rewrite sinc_0.
  replace (1 * 1 + 0) with 1 by ring.
  rewrite sqrt_1.
  replace (1 / 1) with 1 by field.
  reflexivity.
Qed.

Lemma nearest_tap_value (gn s : R) (p : C) :
  Cscale gn (Cadd C0 (Cscale s (Cscale 1 p))) = Cscale (gn * s) p.
Proof. destruct p; unfold Cscale, Cadd, C0; simpl; f_equal; ring. Qed.

Lemma interpolated_tap_value (gn s : R) (p : C) :
  Cscale gn (Cadd C0 (Cscale 1 (Cscale s (Cscale 1 p)))) = Cscale (gn * s) p.
Proof. destruct p; unfold Cscale, Cadd, C0; simpl; f_equal; ring. Qed.

(** The impulse response of a single line-of-sight path at delay zero,
    between one transmit and one receive antenna: one tap, whose value at
    each instant is the phasor drawn from the random stream, scaled by the
    gain and the square root of the path power. *)
Lemma impulse_response_los (power : R) (ns : option Z) (la df ldf : option R)
    (interp : option bool) (kw : Channel) (n : nat) (fs : R) (g : rng_state) :
  let ch := single_path power PosInf ns la df ldf interp kw in
  (0 < num_sinusoids ch)%Z ->
  transmitter_num_antennas kw = 1%nat -> receiver_num_antennas kw = 1%nat ->
  impulse_response ch n fs g =
  Ok ({| dim0 := n; dim1 := 1; dim2 := 1; dim3 := 1;
         data := map (fun t =>
                        [[[Cscale (gain kw * sqrt power) (los_phasor ch g t)]]])
                     (timestamps_of n fs) |},
      advance g (draws_per_tap ch)).
Proof.
  intros ch Hns Htx Hrx.
  unfold impulse_response.
  pose proof (interpolation_filter_los power PosInf ns la df ldf interp kw fs) as Hf.
  fold ch in Hf; rewrite Hf; clear Hf.
  change (delays ch) with [0]; change (base ch) with kw.
  change (last_item [0]) with (Ok 0); rewrite bind_ok.
  rewrite Rmult_0_l, int_of_0, Htx, Hrx.
  change (zeros n 1 1 (0 + 1))
    with (Ok {| dim0 := n; dim1 := 1; dim2 := 1; dim3 := 1;
                data := repeat [[[C0]]] n |}).
  rewrite bind_ok.
  change (path_table ch) with [(power, (0%nat, (1, 0)))].
  destruct (impulse_response_interpolation kw);
    rewrite !bind_ok, foldM_cons; unfold deposit_path at 1, antenna_pairs;
    change (base ch) with kw; rewrite Htx, Hrx;
    change (list_prod (seq 0 1) (seq 0 1)) with [(0%nat, 0%nat)];
    rewrite foldM_cons; unfold deposit at 1;
    rewrite tap_los_only by exact Hns; rewrite bind_ok.
  - change (get_item [[1]] 0) with (Ok [1]); rewrite bind_ok.
    unfold iadd_outer; simpl.
    rewrite vscale_length, length_map, timestamps_length, Nat.eqb_refl; simpl.
    do 2 f_equal.
    unfold smul; simpl.
    rewrite map2_repeat
      by (rewrite vscale_length, length_map, timestamps_length; reflexivity).
    f_equal.
    unfold vscale; rewrite !map_map; apply map_ext; intros t.
    simpl; rewrite interpolated_tap_value; reflexivity.
  - change (get_item (delays ch) 0) with (Ok 0); rewrite bind_ok.
    rewrite Rmult_0_l, int_of_0.
    unfold iadd_tap; simpl.
    rewrite vscale_length, length_map, timestamps_length, Nat.eqb_refl; simpl.
    do 2 f_equal.
    unfold smul; simpl.
    rewrite map2_repeat
      by (rewrite vscale_length, length_map, timestamps_length; reflexivity).
    f_equal.
    unfold vscale; rewrite !map_map; apply map_ext; intros t.
    simpl; rewrite nearest_tap_value; reflexivity.
Qed.

Lemma map2_as_map {A B D : Type} (f : A -> B -> D) (da : A) (db : B)
    (a : list A) (b : list B) :
  length a = length b ->
  map2 f a b = map (fun m => f (nth m a da) (nth m b db)) (seq 0 (length a)).
Proof.
  revert b; induction a as [|x a IH]; intros [|y b] E; simpl in *;
    try discriminate; [reflexivity|].
  f_equal; rewrite <- seq_shift, map_map; apply IH; lia.
Qed.

Lemma single_tap_value (r : R) (p x : C) :
  Cadd (Cadd (Cmul (Cscale r p) x) C0) C0 = Cscale r (Cmul p x).
Proof.
  destruct p as [pr pi], x as [xr xi].
  unfold Cadd, Cmul, Cscale, C0; simpl; f_equal; ring.
Qed.

(** Propagation through a single line-of-sight path at delay zero: every
    input sample is multiplied by the gain, the square root of the path power
    and the phasor of its instant. *)
Lemma propagate_los (power : R) (ns : option Z) (la df ldf : option R)
    (interp : option bool) (kw : Channel) (x0 : list C) (fs : R) (g : rng_state) :
  let ch := single_path power PosInf ns la df ldf interp kw in
  (0 < num_sinusoids ch)%Z ->
  transmitter_num_antennas kw = 1%nat -> receiver_num_antennas kw = 1%nat ->
  propagate ch [x0] fs g =
  Ok ([map2 (fun xn t =>
               Cscale (gain kw * sqrt power) (Cmul (los_phasor ch g t) xn))
            x0 (timestamps_of (length x0) fs)],
      advance g (draws_per_tap ch)).
Proof.
  intros ch Hns Htx Hrx.
  unfold propagate; simpl hd.
  unfold ch; rewrite impulse_response_los by assumption; fold ch.
  rewrite bind_ok; do 2 f_equal.
  unfold convolve; simpl dim1; simpl dim2; simpl dim3.
  change (seq 0 1) with [0%nat]; simpl map at 1.
  f_equal.
  replace (length x0 + 1 - 1)%nat with (length x0) by lia.
  rewrite (map2_as_map _ C0 0) by (rewrite timestamps_length; reflexivity).
  apply map_ext_in; intros m Hm; apply in_seq in Hm.
  simpl map; simpl Csum.
  rewrite Nat.sub_0_r.
  destruct (Nat.ltb_spec m (length x0)) as [_|]; [|lia].
  simpl andb; cbv iota.
  unfold item0, item; simpl data.
  rewrite nth_error_map.
  rewrite (nth_error_nth' _ 0) by (rewrite timestamps_length; lia).
  simpl.
  apply single_tap_value.
Qed.

(** C2 as stated fails: through a channel of one path with delay zero,
    infinite Rice factor and gain and power one, the sample [1] comes out as
    [-1] when the stream's variates are all [1/2], because the tap carries
    the line-of-sight phase drawn from the stream. *)
Lemma propagate_not_identity :
  exists ch y g',
    init [0] [1] [PosInf] None None None None None siso = Ok ch /\
    propagate ch [[(1, 0)]] 1 (constant_rng (1 / 2)) = Ok (y, g') /\
    y <> [[(1, 0)]].
Proof.
  eexists; eexists; eexists; split; [|split].
  - apply init_single_path; [lra | exact I].
  - apply propagate_los; reflexivity.
  - simpl; intros E; injection E as E _.
    unfold los_phasor, los_phase_of, los_angle_of, los_doppler_frequency,
      sinusoid_draws, peek, Cexp_j in E; simpl in E.
    rewrite sqrt_1 in E.
    replace (0 * (0 / 1) * cos (2 * PI * (1 / 2)) + 2 * PI * (1 / 2)) with PI in E
      by field.
    rewrite cos_PI, sin_PI in E; lra.
Qed.

Lemma Cnorm2_phasor (s theta : R) (x : C) :
  0 <= s ->
  Cnorm2 (Cscale (sqrt s) (Cmul (Cexp_j theta) x)) = s * Cnorm2 x.
Proof.
  intros Hs; destruct x as [a b]; unfold Cnorm2, Cscale, Cmul, Cexp_j; simpl.
  pose proof (sin2_cos2 theta) as H; unfold Rsqr in H.
  pose proof (sqrt_sqrt s Hs) as Hq.
  replace (sqrt s * (cos theta * a - sin theta * b) *
           (sqrt s * (cos theta * a - sin theta * b)) +
           sqrt s * (cos theta * b + sin theta * a) *
           (sqrt s * (cos theta * b + sin theta * a)))
    with ((sqrt s * sqrt s) *
          ((sin theta * sin theta + cos theta * cos theta) * (a * a + b * b)))
    by ring.
  rewrite Hq, H; ring.
Qed.

Lemma nth_error_timestamps (n m : nat) (fs : R) :
  (m < n)%nat -> nth_error (timestamps_of n fs) m = Some (INR m / fs).
Proof.
  intros H; unfold timestamps_of; rewrite nth_error_map.
  rewrite (nth_error_nth' _ 0%nat) by (rewrite length_seq; exact H).
  rewrite seq_nth by exact H; reflexivity.
Qed.

(** C2, amended: through a channel of one path with delay zero, infinite
    Rice factor and gain one, between one transmit and one receive antenna,
    [propagate] returns as many samples as it was given; sample [n] is the input sample times the square root of the path
    power times the line-of-sight phasor [exp(j (f t_n cos(angle) + phase))]
    whose phase (and angle, unless configured) is drawn from the random
    stream, so that its squared magnitude is the power times that of the
    input sample. *)
Theorem propagate_line_of_sight
    (power : R) (ns : option Z) (la df ldf : option R) (interp : option bool)
    (kw : Channel) (ch : MultipathFadingChannel) (x0 : list C)
    (sampling_rate : R) (g : rng_state) :
  init [0] [power] [PosInf] ns la df ldf interp kw = Ok ch ->
  gain kw = 1 ->
  transmitter_num_antennas kw = 1%nat -> receiver_num_antennas kw = 1%nat ->
  (0 < num_sinusoids ch)%Z ->
  exists y0 : list C,
    propagate ch [x0] sampling_rate g = Ok ([y0], advance g (draws_per_tap ch)) /\
    length y0 = length x0 /\
    forall (n : nat) (xn : C),
      nth_error x0 n = Some xn ->
      exists yn : C,
        nth_error y0 n = Some yn /\
        yn = Cscale (sqrt power)
               (Cmul (los_phasor ch g (INR n / sampling_rate)) xn) /\
        Cnorm2 yn = power * Cnorm2 xn.
Proof.
  intros Hinit Hgain Htx Hrx Hns.
  assert (Hp : 0 <= power).
  { destruct (init_ok_inv _ _ _ _ _ _ _ _ _ _ Hinit) as (Hv & _).
    apply validate_ok_iff in Hv as (_ & _ & _ & _ & Hp & _).
    inversion Hp; assumption. }
  rewrite init_single_path in Hinit by (simpl; auto).
  injection Hinit as <-.
  eexists; split; [apply propagate_los; assumption|]; split.
  - rewrite map2_length; rewrite ?timestamps_length; reflexivity.
  - intros n xn Hn; eexists; split; [|split].
    + rewrite nth_error_map2, Hn, nth_error_timestamps;
        [reflexivity | apply nth_error_Some; congruence].
    + rewrite Hgain, Rmult_1_l; reflexivity.
    + rewrite Hgain, Rmult_1_l; apply Cnorm2_phasor; exact Hp.
Qed.

Lemma propagate_line_of_sight_witness :
  exists ch y0,
    init [0] [1] [PosInf] None None None None None siso = Ok ch /\
    propagate ch [[(1, 0)]] 1 (constant_rng (1 / 2))
      = Ok ([y0], advance (constant_rng (1 / 2)) (draws_per_tap ch)) /\
    length y0 = 1%nat.
Proof.
  assert (Hinit : init [0] [1] [PosInf] None None None None None siso =
                  Ok (single_path 1 PosInf None None None None None siso))
    by (apply init_single_path; [lra | exact I]).
  destruct (propagate_line_of_sight 1 None None None None None siso _
              [(1, 0)] 1 (constant_rng (1 / 2)) Hinit
              eq_refl eq_refl eq_refl eq_refl)
    as (y0 & Hy & Hlen & _).
  eexists; exists y0; split; [exact Hinit|]; split; [exact Hy | exact Hlen].
Defined.

(** ** Coincident paths *)

Lemma nth_error_tl {A : Type} (l : list A) (i : nat) :
  nth_error (tl l) i = nth_error l (S i).
Proof. destruct l; [destruct i|]; reflexivity. Qed.

Lemma nth_error_diff (l : list R) (i : nat) :
  nth_error (diff l) i =
  match nth_error l i, nth_error l (S i) with
  | Some a, Some b => Some (b - a)
  | _, _ => None
  end.
Proof. unfold diff; rewrite nth_error_map2, nth_error_tl; reflexivity. Qed.

Lemma fold_left_Rmin_le (l : list R) (x y : R) :
  In y (x :: l) -> fold_left Rmin l x <= y.
Proof.
  revert x y; induction l as [|z l IH]; intros x y Hy; simpl in *.
  - destruct Hy as [<-|[]]; lra.
  - destruct Hy as [<-|[<-|Hy]].
    + apply Rle_trans with (Rmin x z); [apply IH; left; reflexivity | apply Rmin_l].
    + apply Rle_trans with (Rmin x z); [apply IH; left; reflexivity | apply Rmin_r].
    + apply IH; right; exact Hy.
Qed.

Lemma fold_left_Rmin_lower (l : list R) (x m : R) :
  (forall y, In y (x :: l) -> m <= y) -> m <= fold_left Rmin l x.
Proof.
  revert x; induction l as [|z l IH]; intros x H; simpl in *.
  - apply H; left; reflexivity.
  - apply IH; intros y [<-|Hy].
    + apply Rmin_glb; apply H; auto.
    + apply H; auto.
Qed.

(** In a sorted vector holding one value at two places the smallest gap is
    zero. *)
Lemma np_min_diff_coincident (l : list R) (i j : nat) (x : R) :
  (forall (a b : nat) (u v : R),
     (a <= b)%nat -> nth_error l a = Some u -> nth_error l b = Some v -> u <= v) ->
  (i < j)%nat -> nth_error l i = Some x -> nth_error l j = Some x ->
  np_min (diff l) = Ok 0.
Proof.
  intros Hsorted Hij Hi Hj.
  assert (Hlen : (S i < length l)%nat).
  { assert (j < length l)%nat by (apply nth_error_Some; congruence); lia. }
  destruct (nth_error l (S i)) as [y|] eqn:Hy;
    [|apply nth_error_None in Hy; lia].
  assert (Hyx : y = x).
  { apply Rle_antisym.
    - apply (Hsorted (S i) j y x); [lia | exact Hy | exact Hj].
    - apply (Hsorted i (S i) x y); [lia | exact Hi | exact Hy]. }
  assert (Hzero : In 0 (diff l)).
  { apply (nth_error_In _ i); rewrite nth_error_diff, Hi, Hy, Hyx.
    f_equal; ring. }
  assert (Hnonneg : forall g, In g (diff l) -> 0 <= g).
  { intros g Hg; apply In_nth_error in Hg as [a Ha].
    rewrite nth_error_diff in Ha.
    destruct (nth_error l a) as [u|] eqn:Hu; [|discriminate].
    destruct (nth_error l (S a)) as [v|] eqn:Hv; [|discriminate].
    injection Ha as <-.
    pose proof (Hsorted a (S a) u v (Nat.le_succ_diag_r a) Hu Hv); lra. }
  destruct (diff l) as [|g0 gaps]; [contradiction|].
  simpl; f_equal; apply Rle_antisym.
  - apply fold_left_Rmin_le; exact Hzero.
  - apply fold_left_Rmin_lower; exact Hnonneg.
Qed.

(** Two configured paths of one delay make the recommendation zero. *)
Lemma min_sampling_rate_coincident
    (d p : list R) (k : list xreal) (ns : option Z) (la df ldf : option R)
    (interp : option bool) (kw : Channel) (ch : MultipathFadingChannel)
    (i j : nat) (x : R) :
  init d p k ns la df ldf interp kw = Ok ch ->
  impulse_response_interpolation kw = false ->
  i <> j -> nth_error d i = Some x -> nth_error d j = Some x ->
  min_sampling_rate ch = Ok 0.
Proof.
  intros Hinit Hint Hij Hi Hj.
  pose proof (init_well_formed _ _ _ _ _ _ _ _ _ _ Hinit) as Hwf.
  destruct (init_ok_inv _ _ _ _ _ _ _ _ _ _ Hinit)
    as (_ & Hd & _ & _ & _ & _ & _ & Hb).
  assert (Hpos : forall m y, nth_error d m = Some y ->
                 exists a, nth_error (argsort d) a = Some m /\
                           nth_error (delays ch) a = Some y).
  { intros m y Hm.
    assert (Hin : In m (argsort d)).
    { apply (Permutation_in _ (Permutation_sym (argsort_perm d))).
      apply in_seq; split; [lia|]; simpl; apply nth_error_Some; congruence. }
    apply In_nth_error in Hin as [a Ha]; exists a; split; [exact Ha|].
    rewrite Hd; unfold take; rewrite nth_error_map, Ha; simpl.
    f_equal; apply nth_error_nth; exact Hm. }
  destruct (Hpos i x Hi) as (a & Ha & Hxa), (Hpos j x Hj) as (b & Hb' & Hxb).
  assert (Hab : a <> b) by (intros ->; congruence).
  assert (Hmin : np_min (diff (delays ch)) = Ok 0).
  { destruct Hwf as (_ & _ & _ & _ & _ & _ & _ & Hsorted).
    destruct (Nat.lt_ge_cases a b).
    - apply (np_min_diff_coincident _ a b x); assumption.
    - apply (np_min_diff_coincident _ b a x); try assumption; lia. }
  unfold min_sampling_rate; rewrite Hb, Hint, Hmin, bind_ok.
  unfold float_div; destruct (Req_dec_T 0 0); [reflexivity | contradiction].
Qed.

(** ** What construction keeps of the path set *)

(** The stored paths are the given paths in another order, delay, power and
    Rice factor of a path staying together, and the stored delays ascend. *)
Theorem init_sorts_paths
    (d p : list R) (k : list xreal) (ns : option Z) (la df ldf : option R)
    (interp : option bool) (kw : Channel) (ch : MultipathFadingChannel) :
  init d p k ns la df ldf interp kw = Ok ch ->
  Permutation (combine (delays ch) (combine (power_profile ch) (rice_factors ch)))
              (combine d (combine p k)) /\
  StronglySorted Rle (delays ch) /\
  num_resolvable_paths ch = length d /\
  length (delays ch) = length d /\
  length (power_profile ch) = length d /\
  length (rice_factors ch) = length d.
Proof.
  intros Hinit.
  destruct (init_ok_inv _ _ _ _ _ _ _ _ _ _ Hinit)
    as (Hv & Hd & Hp & Hk & _ & _ & Hnum & _).
  apply validate_ok_iff in Hv as (E1 & E2 & _).
  rewrite Hnum, Hd, Hp, Hk, !take_length, argsort_length.
  split; [|split; [apply take_sorted, argsort_sorted | auto]].
  rewrite take_triples.
  rewrite (Permutation_map _ (argsort_perm d)).
  rewrite <- (combine_map_map (fun i => nth i d 0)
                (fun i => (nth i p 0, nth i k PosInf))).
  rewrite <- (combine_map_map (fun i => nth i p 0) (fun i => nth i k PosInf)).
  rewrite map_nth_seq.
  rewrite E1 at 1; rewrite map_nth_seq.
  rewrite E1, E2; rewrite map_nth_seq.
  reflexivity.
Qed.

Lemma init_sorts_paths_witness :
  Permutation (combine (delays two_paths)
                 (combine (power_profile two_paths) (rice_factors two_paths)))
              (combine [1; 0] (combine [1; 2] [Finite 1; PosInf])) /\
  StronglySorted Rle (delays two_paths).
Proof.
  destruct (init_sorts_paths _ _ _ _ _ _ _ _ _ _ init_two_paths)
    as (Hperm & Hsorted & _).
  split; [exact Hperm | exact Hsorted].
Defined.

Lemma list_max_ge (a : list R) (x : R) : In x a -> x <= list_max a.
Proof.
  unfold list_max; generalize (hd 0 a); induction a as [|y a IH];
    intros h Hx; simpl in *; [contradiction|].
  destruct Hx as [<-|Hx].
  - apply Rmax_l.
  - apply Rle_trans with (fold_right Rmax h a); [apply IH; exact Hx | apply Rmax_r].
Qed.

Lemma fold_Rmax_in (a : list R) (h : R) :
  fold_right Rmax h a = h \/ In (fold_right Rmax h a) a.
Proof.
  induction a as [|y a IH]; simpl; [left; reflexivity|].
  destruct (Rle_dec y (fold_right Rmax h a)).
  - rewrite Rmax_right by assumption.
    destruct IH as [IH|IH]; [left; exact IH | right; right; exact IH].
  - rewrite Rmax_left by lra; right; left; reflexivity.
Qed.

Lemma list_max_in (a : list R) : a <> [] -> In (list_max a) a.
Proof.
  intros Ha; unfold list_max.
  destruct (fold_Rmax_in a (hd 0 a)) as [E|E]; [|exact E].
  rewrite E; destruct a; [congruence | left; reflexivity].
Qed.

Lemma max_delay_facts
    (d p : list R) (k : list xreal) (ns : option Z) (la df ldf : option R)
    (interp : option bool) (kw : Channel) (ch : MultipathFadingChannel) :
  init d p k ns la df ldf interp kw = Ok ch ->
  last_item (delays ch) = Ok (max_delay ch) /\
  In (max_delay ch) d /\
  Forall (fun x => x <= max_delay ch) d.
Proof.
  intros Hinit.
  pose proof (init_well_formed _ _ _ _ _ _ _ _ _ _ Hinit) as Hwf.
  destruct (init_ok_inv _ _ _ _ _ _ _ _ _ _ Hinit) as (_ & Hd & _).
  assert (Hmax : max_delay ch = list_max (delays ch)).
  { unfold init in Hinit; destruct (validate d p k); [|discriminate].
    injection Hinit as <-; reflexivity. }
  destruct Hwf as (Hne & _ & _ & _ & _ & _ & _ & Hsorted).
  assert (Hin : forall x, In x (delays ch) <-> In x d).
  { intros x; rewrite Hd; unfold take; split.
    - intros H; apply in_map_iff in H as [i [<- Hi]].
      apply nth_In, argsort_bound, Hi.
    - intros H; apply (In_nth _ _ 0) in H as [i [Hi <-]].
      apply in_map_iff; exists i; split; [reflexivity|].
      apply (Permutation_in _ (Permutation_sym (argsort_perm d))).
      apply in_seq; lia. }
  destruct (last_item_nth _ Hne) as [last [Hlast Hnth]].
  assert (Heq : last = list_max (delays ch)).
  { apply Rle_antisym.
    - apply list_max_ge; apply nth_error_In in Hnth; exact Hnth.
    - destruct (In_nth_error _ _ (list_max_in _ Hne)) as [j Hj].
      apply (Hsorted j (length (delays ch) - 1)%nat); [|exact Hj|exact Hnth].
      assert (j < length (delays ch))%nat by (apply nth_error_Some; congruence).
      lia. }
  rewrite Hmax, <- Heq; split; [exact Hlast|]; split.
  - apply Hin; apply nth_error_In in Hnth; exact Hnth.
  - apply Forall_forall; intros x Hx; rewrite Heq.
    apply list_max_ge, Hin, Hx.
Qed.

(** [max_delay] is the largest of the given delays, and it is the last of
    the stored ones: the delay [impulse_response] sizes the tensor by. *)
Theorem max_delay_is_last_delay
    (d p : list R) (k : list xreal) (ns : option Z) (la df ldf : option R)
    (interp : option bool) (kw : Channel) (ch : MultipathFadingChannel) :
  init d p k ns la df ldf interp kw = Ok ch ->
  last_item (delays ch) = Ok (max_delay ch) /\
  In (max_delay ch) d /\
  Forall (fun x => x <= max_delay ch) d.
Proof. apply max_delay_facts. Qed.

Lemma max_delay_is_last_delay_witness :
  last_item (delays two_paths) = Ok (max_delay two_paths) /\
  In (max_delay two_paths) [1; 0] /\
  Forall (fun x => x <= max_delay two_paths) [1; 0].
Proof. exact (max_delay_is_last_delay _ _ _ _ _ _ _ _ _ _ init_two_paths). Defined.

Lemma los_gain_range (K : xreal) :
  xnonneg K ->
  0 <= los_gain_of K <= 1 /\ 0 <= non_los_gain_of K <= 1 /\
  (los_gain_of K = 0 <-> K = Finite 0) /\
  (non_los_gain_of K = 0 <-> K = PosInf).
Proof.
  destruct K as [r|]; simpl; intros Hr.
  - assert (Hpos : 0 < 1 + r) by lra.
    assert (Hq : 0 <= r / (1 + r) <= 1).
    { split.
      - apply Rmult_le_pos; [exact Hr | left; apply Rinv_0_lt_compat; exact Hpos].
      - apply (Rmult_le_reg_r (1 + r)); [exact Hpos|].
        unfold Rdiv; rewrite Rmult_assoc, Rinv_l by lra; lra. }
    assert (Hs : 1 <= sqrt (1 + r)).
    { rewrite <- sqrt_1 at 1; apply sqrt_le_1; lra. }
    assert (Hinv : 0 < 1 / sqrt (1 + r) <= 1).
    { split.
      - apply Rdiv_lt_0_compat; lra.
      - apply (Rmult_le_reg_r (sqrt (1 + r))); [lra|].
        unfold Rdiv; rewrite Rmult_assoc, Rinv_l by lra; lra. }
    split; [|split; [lra|split]].
    + split; [apply sqrt_pos|].
      apply Rle_trans with (sqrt 1); [apply sqrt_le_1; lra | rewrite sqrt_1; lra].
    + split.
      * intros E; apply sqrt_eq_0 in E; [|lra].
        f_equal; apply (Rmult_eq_compat_r (1 + r)) in E.
        unfold Rdiv in E; rewrite Rmult_assoc, Rinv_l in E by lra; lra.
      * intros E; injection E as ->.
        unfold Rdiv; rewrite Rmult_0_l; apply sqrt_0.
    + split; [lra | discriminate].
  - split; [lra|]; split; [lra|]; split; split; try reflexivity;
      try discriminate; lra.
Qed.

(** Both gains of every path lie between zero and one; the line-of-sight
    gain vanishes exactly for Rice factor zero and the scattered gain
    exactly for an infinite Rice factor. *)
Theorem rice_gains_range
    (d p : list R) (k : list xreal) (ns : option Z) (la df ldf : option R)
    (interp : option bool) (kw : Channel) (ch : MultipathFadingChannel)
    (i : nat) (K : xreal) (los_gain nlos_gain : R) :
  init d p k ns la df ldf interp kw = Ok ch ->
  nth_error (rice_factors ch) i = Some K ->
  nth_error (los_gains ch) i = Some los_gain ->
  nth_error (non_los_gains ch) i = Some nlos_gain ->
  0 <= los_gain <= 1 /\ 0 <= nlos_gain <= 1 /\
  (los_gain = 0 <-> K = Finite 0) /\
  (nlos_gain = 0 <-> K = PosInf).
Proof.
  intros Hinit HK Hl Hn.
  destruct (init_ok_inv _ _ _ _ _ _ _ _ _ _ Hinit)
    as (Hv & _ & _ & Hk & Hlg & Hng & _).
  apply validate_ok_iff in Hv as (E1 & E2 & _ & _ & _ & Hnn).
  rewrite Hlg, nth_error_map, HK in Hl; injection Hl as <-.
  rewrite Hng, nth_error_map, HK in Hn; injection Hn as <-.
  apply los_gain_range.
  assert (HF : Forall xnonneg (rice_factors ch)).
  { rewrite Hk; apply take_Forall; [|exact Hnn].
    intros j Hj; apply argsort_bound in Hj; lia. }
  apply nth_error_In in HK.
  revert K HK; apply Forall_forall; exact HF.
Qed.

Lemma rice_gains_range_witness :
  0 <= sqrt (1 / (1 + 1)) <= 1 /\ 0 <= 1 / sqrt (1 + 1) <= 1 /\
  (sqrt (1 / (1 + 1)) = 0 <-> Finite 1 = Finite 0) /\
  (1 / sqrt (1 + 1) = 0 <-> Finite 1 = PosInf).
Proof.
  exact (rice_gains_range _ _ _ _ _ _ _ _ _ two_paths 1%nat (Finite 1) _ _
           init_two_paths eq_refl eq_refl eq_refl).
Defined.

(** ** The tap generator in closed form *)

Lemma Cadd_assoc (a b c : C) : Cadd (Cadd a b) c = Cadd a (Cadd b c).
Proof. unfold Cadd; simpl; f_equal; ring. Qed.

Lemma Cadd_0_l (a : C) : Cadd C0 a = a.
Proof. destruct a; unfold Cadd, C0; simpl; f_equal; ring. Qed.

Lemma Cadd_0_r (a : C) : Cadd a C0 = a.
Proof. destruct a; unfold Cadd, C0; simpl; f_equal; ring. Qed.

Lemma vadd_map_map {A : Type} (f h : A -> C) (l : list A) :
  vadd (map f l) (map h l) = map (fun x => Cadd (f x) (h x)) l.
Proof.
  induction l as [|x l IH]; simpl; [reflexivity | rewrite IH; reflexivity].
Qed.

Lemma fold_vadd_pointwise (F : nat -> R -> C) (ts : list R) (l : list nat)
    (A : R -> C) :
  fold_left (fun acc s => vadd acc (map (F s) ts)) l (map A ts) =
  map (fun t => fold_left (fun z s => Cadd z (F s t)) l (A t)) ts.
Proof.
  revert A; induction l as [|s l IH]; intros A; simpl; [reflexivity|].
  rewrite vadd_map_map; apply (IH (fun t => Cadd (A t) (F s t))).
Qed.

Lemma fold_left_Cadd {A : Type} (f : A -> C) (l : list A) (a : C) :
  fold_left (fun z s => Cadd z (f s)) l a = Cadd a (Csum (map f l)).
Proof.
  revert a; induction l as [|s l IH]; intros a; simpl.
  - symmetry; apply Cadd_0_r.
  - rewrite IH; apply Cadd_assoc.
Qed.

Lemma nth_map_seq (f : nat -> R) (n s : nat) :
  (s < n)%nat -> nth s (map f (seq 0 n)) 0 = f s.
Proof.
  intros H.
  rewrite (nth_indep _ 0 (f 0%nat)) by (rewrite length_map, length_seq; exact H).
  rewrite map_nth, seq_nth by exact H; reflexivity.
Qed.

Lemma repeat_as_map {A B : Type} (x : B) (l : list A) :
  repeat x (length l) = map (fun _ => x) l.
Proof.
  induction l as [|y l IH]; simpl; [reflexivity | rewrite IH; reflexivity].
Qed.

(** The sinusoid loop leaves, at every instant, the sum of the sinusoids. *)
Lemma nlos_loop_closed (ch : MultipathFadingChannel) (ts : list R) (g : rng_state) :
  let N := Z.to_nat (num_sinusoids ch) in
  fold_left
    (fun acc s =>
       vadd acc
         (nlos_sinusoid ch ts
            (map (fun i => 0 + (2 * PI - 0) * peek g i) (seq 0 N))
            (map (fun i => 0 + (2 * PI - 0) * peek (advance g N) i) (seq 0 N))
            s))
    (seq 0 N) (repeat C0 (length ts)) =
  map (nlos_sum ch g) ts.
Proof.
  intros N; unfold nlos_sinusoid.
  rewrite repeat_as_map.
  rewrite (fold_vadd_pointwise
             (fun s t =>
                Cexp_j (doppler_frequency ch * t *
                          cos ((2 * PI * INR s +
                                nth s (map (fun i => 0 + (2 * PI - 0) * peek g i)
                                           (seq 0 N)) 0)
                               / IZR (num_sinusoids ch))
                        + nth s (map (fun i => 0 + (2 * PI - 0)
                                                * peek (advance g N) i)
                                     (seq 0 N)) 0))).
  apply map_ext; intros t.
  rewrite fold_left_Cadd, Cadd_0_l; unfold nlos_sum; fold N.
  f_equal; apply map_ext_in; intros s Hs; apply in_seq in Hs.
  rewrite !nth_map_seq by lia.
  unfold peek, advance; simpl.
  replace (cursor g + N + s)%nat with (cursor g + (N + s))%nat by lia.
  do 2 f_equal; [|ring].
  do 3 f_equal; ring.
Qed.

(** For a positive number of sinusoids [__tap] returns, instant by instant,
    the sum of the line-of-sight phasor and of the normalised sinusoids, and
    moves the stream on by the variates it has drawn. *)
Lemma tap_closed_form (ch : MultipathFadingChannel) (ts : list R) (lg ng : R)
    (g : rng_state) :
  (0 < num_sinusoids ch)%Z ->
  tap ch ts lg ng g =
  Ok (map (tap_sample ch lg ng g) ts, advance g (draws_per_tap ch)).
Proof.
  intros Hns; unfold tap, uniform_n.
  destruct (Z.ltb_spec (num_sinusoids ch) 0) as [|_]; [lia|].
  rewrite !bind_ok.
  destruct (Z.eqb_spec (num_sinusoids ch) 0) as [|_]; [lia|].
  rewrite nlos_loop_closed.
  unfold vscale; rewrite map_map.
  unfold tap_sample, los_phasor, los_phase_of, los_angle_of, draws_per_tap,
    sinusoid_draws.
  set (N := Z.to_nat (num_sinusoids ch)).
  destruct (los_angle ch) as [angle|]; unfold uniform, peek, advance; simpl;
    rewrite vadd_map_map; f_equal; f_equal.
  - apply map_ext; intros t; do 4 f_equal.
    replace (cursor g + N + N + 0)%nat with (cursor g + (N + (N + 0) + 0))%nat
      by lia.
    ring.
  - f_equal; lia.
  - apply map_ext; intros t; do 4 f_equal.
    + f_equal; f_equal.
      replace (cursor g + N + N + 0)%nat with (cursor g + (N + (N + 0)))%nat
        by lia.
      ring.
    + replace (cursor g + N + N + 1 + 0)%nat
        with (cursor g + (N + (N + 0) + 1))%nat by lia.
      ring.
  - f_equal; lia.
Qed.

(** The gains [__tap] returns: as many as there are timestamps, each the
    value of equation (18) at its instant, for [2 * num_sinusoids] variates
    of the stream plus one for the line-of-sight phase and one more for the
    line-of-sight angle when none is configured. *)
Theorem tap_equation (ch : MultipathFadingChannel) (timestamps : list R)
    (los_gain nlos_gain : R) (g : rng_state) :
  (0 < num_sinusoids ch)%Z ->
  exists w : list C,
    tap ch timestamps los_gain nlos_gain g = Ok (w, advance g (draws_per_tap ch)) /\
    length w = length timestamps /\
    forall (n : nat) (t : R),
      nth_error timestamps n = Some t ->
      nth_error w n = Some (tap_sample ch los_gain nlos_gain g t).
Proof.
  intros Hns; eexists; split; [apply tap_closed_form; exact Hns|]; split.
  - apply length_map.
  - intros n t Hn; rewrite nth_error_map, Hn; reflexivity.
Qed.

Lemma tap_equation_witness :
  exists w : list C,
    tap two_paths [0; 1] 1 0 (constant_rng 0)
      = Ok (w, advance (constant_rng 0) (draws_per_tap two_paths)) /\
    length w = 2%nat.
Proof.
  destruct (tap_equation two_paths [0; 1] 1 0 (constant_rng 0) eq_refl)
    as (w & Hw & Hlen & _).
  exists w; split; [exact Hw | exact Hlen].
Defined.

Lemma tap_sample_static (ch : MultipathFadingChannel) (lg ng : R) (g : rng_state)
    (t t' : R) :
  doppler_frequency ch = 0 -> los_doppler_frequency ch = 0 ->
  tap_sample ch lg ng g t = tap_sample ch lg ng g t'.
Proof.
  intros Hd Hl; unfold tap_sample, los_phasor, nlos_sum; rewrite Hd, Hl.
  f_equal; f_equal.
  - f_equal; ring.
  - f_equal; apply map_ext; intros s; f_equal; ring.
Qed.

(** Without Doppler shift the channel is static: all the gains of one tap
    are the same complex number. *)
Theorem tap_static_without_doppler (ch : MultipathFadingChannel)
    (timestamps : list R) (los_gain nlos_gain : R) (g : rng_state) :
  (0 < num_sinusoids ch)%Z ->
  doppler_frequency ch = 0 -> los_doppler_frequency ch = 0 ->
  exists c : C,
    tap ch timestamps los_gain nlos_gain g =
    Ok (repeat c (length timestamps), advance g (draws_per_tap ch)).
Proof.
  intros Hns Hd Hl; exists (tap_sample ch los_gain nlos_gain g 0).
  rewrite tap_closed_form by exact Hns; do 2 f_equal.
  rewrite repeat_as_map; apply map_ext; intros t.
  apply tap_sample_static; assumption.
Qed.

Lemma tap_static_without_doppler_witness :
  exists c : C,
    tap two_paths [0; 1; 2] 1 0 (constant_rng 0) =
    Ok (repeat c 3, advance (constant_rng 0) (draws_per_tap two_paths)).
Proof.
  exact (tap_static_without_doppler two_paths [0; 1; 2] 1 0 (constant_rng 0)
           eq_refl eq_refl eq_refl).
Defined.

(** ** The magnitude of a tap *)

Lemma Cnorm2_nonneg (c : C) : 0 <= Cnorm2 c.
Proof. unfold Cnorm2; nra. Qed.

Lemma Cabs_nonneg (c : C) : 0 <= Cabs c.
Proof. apply sqrt_pos. Qed.

Lemma Cabs_C0 : Cabs C0 = 0.
Proof.
  unfold Cabs, Cnorm2, C0; simpl.
  replace (0 * 0 + 0 * 0) with 0 by ring; apply sqrt_0.
Qed.

Lemma Cabs_exp (theta : R) : Cabs (Cexp_j theta) = 1.
Proof.
  unfold Cabs, Cnorm2, Cexp_j; simpl.
  pose proof (sin2_cos2 theta) as H; unfold Rsqr in H.
  replace (cos theta * cos theta + sin theta * sin theta) with 1 by lra.
  apply sqrt_1.
Qed.

Lemma Cabs_scale (r : R) (c : C) : Cabs (Cscale r c) = Rabs r * Cabs c.
Proof.
  unfold Cabs, Cnorm2, Cscale; simpl.
  replace (r * fst c * (r * fst c) + r * snd c * (r * snd c))
    with (Rsqr r * (fst c * fst c + snd c * snd c)) by (unfold Rsqr; ring).
  rewrite sqrt_mult; [|apply Rle_0_sqr|apply (Cnorm2_nonneg c)].
  rewrite sqrt_Rsqr_abs; reflexivity.
Qed.

Lemma Cabs_triangle (a b : C) : Cabs (Cadd a b) <= Cabs a + Cabs b.
Proof.
  destruct a as [a1 a2], b as [b1 b2]; unfold Cabs, Cnorm2, Cadd; simpl.
  set (A := a1 * a1 + a2 * a2); set (B := b1 * b1 + b2 * b2).
  assert (HA : 0 <= A) by (unfold A; nra).
  assert (HB : 0 <= B) by (unfold B; nra).
  assert (Hcs : a1 * b1 + a2 * b2 <= sqrt A * sqrt B).
  { pose proof (sqrt_pos A); pose proof (sqrt_pos B).
    destruct (Rle_dec (a1 * b1 + a2 * b2) 0) as [Hn|Hp]; [nra|].
    apply Rsqr_incr_0_var; [|nra].
    rewrite Rsqr_mult, !Rsqr_sqrt by assumption.
    assert (E : A * B - Rsqr (a1 * b1 + a2 * b2) = Rsqr (a1 * b2 - a2 * b1))
      by (unfold Rsqr, A, B; ring).
    pose proof (Rle_0_sqr (a1 * b2 - a2 * b1)); lra. }
  apply Rsqr_incr_0_var.
  - assert (HX : 0 <= (a1 + b1) * (a1 + b1) + (a2 + b2) * (a2 + b2)).
    { pose proof (Rle_0_sqr (a1 + b1)); pose proof (Rle_0_sqr (a2 + b2)).
      unfold Rsqr in *; lra. }
    rewrite Rsqr_sqrt by exact HX.
    rewrite Rsqr_plus, !Rsqr_sqrt by assumption.
    replace ((a1 + b1) * (a1 + b1) + (a2 + b2) * (a2 + b2))
      with (A + B + 2 * (a1 * b1 + a2 * b2)) by (unfold A, B; ring).
    lra.
  - pose proof (sqrt_pos A); pose proof (sqrt_pos B); lra.
Qed.

Lemma Cabs_Csum_phasors {A : Type} (f : A -> R) (l : list A) :
  Cabs (Csum (map (fun s => Cexp_j (f s)) l)) <= INR (length l).
Proof.
  induction l as [|s l IH].
  - simpl; rewrite Cabs_C0; lra.
  - change (Csum (map (fun s => Cexp_j (f s)) (s :: l)))
      with (Cadd (Cexp_j (f s)) (Csum (map (fun s => Cexp_j (f s)) l))).
    apply Rle_trans with (1 := Cabs_triangle _ _).
    rewrite Cabs_exp; simpl length; rewrite S_INR; lra.
Qed.

Lemma tap_sample_bound (ch : MultipathFadingChannel) (lg ng : R) (g : rng_state)
    (t : R) :
  (0 < num_sinusoids ch)%Z ->
  Cabs (tap_sample ch lg ng g t)
  <= Rabs lg + Rabs ng * sqrt (IZR (num_sinusoids ch)).
Proof.
  intros Hns; unfold tap_sample.
  apply Rle_trans with (1 := Cabs_triangle _ _).
  rewrite !Cabs_scale; unfold los_phasor; rewrite Cabs_exp, Rmult_1_r.
  apply Rplus_le_compat_l.
  assert (Hn : 0 < IZR (num_sinusoids ch)) by (apply IZR_lt; exact Hns).
  pose proof (sqrt_lt_R0 _ Hn) as Hs.
  assert (Hsum : Cabs (nlos_sum ch g t) <= IZR (num_sinusoids ch)).
  { unfold nlos_sum.
    apply Rle_trans with (1 := Cabs_Csum_phasors _ _).
    rewrite length_seq, INR_IZR_INZ, Z2Nat.id by lia; lra. }
  rewrite Rabs_mult, (Rabs_right (/ _)) by (left; apply Rinv_0_lt_compat; exact Hs).
  rewrite Rmult_assoc; apply Rmult_le_compat_l; [apply Rabs_pos|].
  apply (Rmult_le_reg_l (sqrt (IZR (num_sinusoids ch)))); [exact Hs|].
  rewrite <- Rmult_assoc, Rinv_r, Rmult_1_l by lra.
  rewrite sqrt_sqrt by lra; exact Hsum.
Qed.

(** No gain of a tap exceeds [|los_gain| + |nlos_gain| * sqrt(num_sinusoids)]
    in magnitude, whatever the stream holds. *)
Theorem tap_magnitude_bound (ch : MultipathFadingChannel) (timestamps : list R)
    (los_gain nlos_gain : R) (g : rng_state) :
  (0 < num_sinusoids ch)%Z ->
  exists (w : list C) (g' : rng_state),
    tap ch timestamps los_gain nlos_gain g = Ok (w, g') /\
    Forall (fun c => Cabs c <= Rabs los_gain
                               + Rabs nlos_gain * sqrt (IZR (num_sinusoids ch)))
           w.
Proof.
  intros Hns; eexists; eexists; split; [apply tap_closed_form; exact Hns|].
  apply Forall_forall; intros c Hc; apply in_map_iff in Hc as [t [<- _]].
  apply tap_sample_bound; exact Hns.
Qed.

Lemma tap_magnitude_bound_witness :
  exists (w : list C) (g' : rng_state),
    tap two_paths [0; 1] 1 0 (constant_rng 0) = Ok (w, g') /\
    Forall (fun c => Cabs c <= Rabs 1 + Rabs 0 * sqrt (IZR 20)) w.
Proof.
  exact (tap_magnitude_bound two_paths [0; 1] 1 0 (constant_rng 0) eq_refl).
Defined.

(** ** A negative number of sinusoids *)

Lemma tap_negative_sinusoids (ch : MultipathFadingChannel) (ts : list R)
    (lg ng : R) (g : rng_state) :
  (num_sinusoids ch < 0)%Z -> tap ch ts lg ng g = Raise ValueError.
Proof.
  intros H; unfold tap, uniform_n.
  destruct (Z.ltb_spec (num_sinusoids ch) 0); [reflexivity | lia].
Qed.

(** When every tap generation raises, so does [impulse_response], as soon as
    there is an antenna pair. *)
Lemma impulse_response_tap_raises (ch : MultipathFadingChannel) (e : exn)
    (n : nat) (fs : R) (g : rng_state) :
  (forall ts lg ng g', tap ch ts lg ng g' = Raise e) ->
  well_formed ch -> 0 <= fs ->
  (1 <= transmitter_num_antennas (base ch))%nat ->
  (1 <= receiver_num_antennas (base ch))%nat ->
  impulse_response ch n fs g = Raise e.
Proof.
  intros Htap Hwf Hfs Ht Hr.
  destruct (last_item_nth _ (proj1 Hwf)) as [last [Hlast Hnth]].
  destruct (delay_index_bounds ch fs _ last last Hwf Hfs Hnth Hlast) as [_ Hb].
  destruct (zeros_ok n (receiver_num_antennas (base ch))
              (transmitter_num_antennas (base ch)) (int_of (last * fs) + 1))
    as (a0 & Hz & _); [lia|].
  destruct (path_table_head ch Hwf) as (power & lg & ng & entries & Htab).
  destruct (antenna_pairs_head ch Ht Hr) as [pairs Hpairs].
  destruct (interpolation_filter_ok ch fs Hwf Hfs) as [f Hf].
  unfold impulse_response.
  rewrite Hlast, bind_ok, Hz, bind_ok, Htab, Hf.
  destruct (impulse_response_interpolation (base ch));
    rewrite !bind_ok, foldM_cons; unfold deposit_path at 1;
    rewrite Hpairs, foldM_cons; unfold deposit at 1; rewrite Htap;
    reflexivity.
Qed.

(** The constructor stores [num_sinusoids] unchecked: a negative number,
    which the setter refuses, passes construction, and the channel built
    raises [ValueError] at every tap generation and at every
    [impulse_response] with an antenna pair. *)
Theorem init_stores_negative_sinusoids
    (d p : list R) (k : list xreal) (num : Z) (la df ldf : option R)
    (interp : option bool) (kw : Channel) :
  validate d p k = Ok tt -> (num < 0)%Z ->
  exists ch,
    init d p k (Some num) la df ldf interp kw = Ok ch /\
    num_sinusoids ch = num /\
    raises (set_num_sinusoids num ch) ValueError /\
    (forall (timestamps : list R) (los_gain nlos_gain : R) (g : rng_state),
       raises (tap ch timestamps los_gain nlos_gain g) ValueError) /\
    (forall (num_samples : nat) (sampling_rate : R) (g : rng_state),
       0 <= sampling_rate ->
       (1 <= transmitter_num_antennas kw)%nat ->
       (1 <= receiver_num_antennas kw)%nat ->
       raises (impulse_response ch num_samples sampling_rate g) ValueError).
Proof.
  intros Hv Hnum.
  destruct (init_validate d p k (Some num) la df ldf interp kw)
    as [[_ [ch Hinit]]|[Hr _]]; [|congruence].
  pose proof (init_well_formed _ _ _ _ _ _ _ _ _ _ Hinit) as Hwf.
  destruct (init_ok_inv _ _ _ _ _ _ _ _ _ _ Hinit)
    as (_ & _ & _ & _ & _ & _ & _ & Hb).
  assert (Hn : num_sinusoids ch = num).
  { unfold init in Hinit; rewrite Hv in Hinit.
    injection Hinit as <-; reflexivity. }
  exists ch; split; [exact Hinit|]; split; [exact Hn|]; split; [|split].
  - unfold raises, set_num_sinusoids.
    destruct (Z.ltb_spec num 0); [reflexivity | lia].
  - intros ts lg ng g; apply tap_negative_sinusoids; lia.
  - intros n fs g Hfs Ht Hr.
    apply impulse_response_tap_raises; rewrite ?Hb; try assumption.
    intros ts lg ng g'; apply tap_negative_sinusoids; lia.
Qed.

Lemma init_stores_negative_sinusoids_witness :
  exists ch,
    init [0] [1] [Finite 0] (Some (-1)%Z) None None None None siso = Ok ch /\
    num_sinusoids ch = (-1)%Z /\
    raises (tap ch [0] 1 0 (constant_rng 0)) ValueError /\
    raises (impulse_response ch 1 1 (constant_rng 0)) ValueError.
Proof.
  destruct (init_stores_negative_sinusoids [0] [1] [Finite 0] (-1) None None None
              None siso)
    as (ch & Hinit & Hn & _ & Htap & Hir).
  - apply validate_intro; try reflexivity; try (simpl; lia); solve_forall.
  - lia.
  - exists ch; split; [exact Hinit|]; split; [exact Hn|]; split.
    + apply Htap.
    + apply Hir; [lra | simpl; lia | simpl; lia].
Defined.

(** ** The impulse response without interpolation, entry by entry *)

Lemma advance_0 (g : rng_state) : advance g 0 = g.
Proof. destruct g; unfold advance; simpl; f_equal; lia. Qed.

Lemma advance_add (g : rng_state) (a b : nat) :
  advance (advance g a) b = advance g (a + b).
Proof. unfold advance; simpl; f_equal; lia. Qed.

Lemma NoDup_map_pair (x : nat) (l : list nat) :
  NoDup l -> NoDup (map (fun y => (x, y)) l).
Proof.
  induction 1 as [|y l Hy Hl IH]; simpl; constructor; [|exact IH].
  intros H; apply in_map_iff in H as [z [E Hz]].
  injection E as ->; contradiction.
Qed.

Lemma NoDup_list_prod (l1 l2 : list nat) :
  NoDup l1 -> NoDup l2 -> NoDup (list_prod l1 l2).
Proof.
  intros H1 H2; induction H1 as [|x l1 Hx Hl1 IH]; simpl; [constructor|].
  apply NoDup_app; [apply NoDup_map_pair; exact H2 | exact IH |].
  intros [a b] Ha Hb.
  apply in_map_iff in Ha as [z [E _]]; injection E as <- _.
  apply in_prod_iff in Hb as [Hb _]; contradiction.
Qed.

Lemma antenna_pairs_NoDup (ch : MultipathFadingChannel) : NoDup (antenna_pairs ch).
Proof. apply NoDup_list_prod; apply seq_NoDup. Qed.

Lemma nth_error_list_prod_seq (s a b r c : nat) :
  (s <= r < s + a)%nat -> (c < b)%nat ->
  nth_error (list_prod (seq s a) (seq 0 b)) ((r - s) * b + c) = Some (r, c).
Proof.
  revert s; induction a as [|a IH]; intros s Hr Hc; [lia|].
  simpl; destruct (Nat.eq_dec r s) as [->|Hne].
  - rewrite Nat.sub_diag; simpl.
    rewrite nth_error_app1 by (rewrite length_map, length_seq; exact Hc).
    rewrite nth_error_map, nth_error_seq.
    destruct (Nat.ltb_spec c b); [reflexivity | lia].
  - rewrite nth_error_app2 by (rewrite length_map, length_seq; nia).
    rewrite length_map, length_seq.
    replace ((r - s) * b + c - b)%nat with ((r - S s) * b + c)%nat by nia.
    apply IH; [lia | exact Hc].
Qed.

Lemma nth_error_antenna_pairs (ch : MultipathFadingChannel) (r c : nat) :
  (r < transmitter_num_antennas (base ch))%nat ->
  (c < receiver_num_antennas (base ch))%nat ->
  nth_error (antenna_pairs ch) (pair_position ch r c) = Some (r, c).
Proof.
  intros Hr Hc; unfold antenna_pairs, pair_position.
  rewrite <- (Nat.sub_0_r r) at 1.
  apply nth_error_list_prod_seq; [lia | exact Hc].
Qed.

Lemma nth_error_combine {A B : Type} (l1 : list A) (l2 : list B) (i : nat)
    (x : A) (y : B) :
  nth_error (combine l1 l2) i = Some (x, y) ->
  nth_error l1 i = Some x /\ nth_error l2 i = Some y.
Proof.
  revert l2 i; induction l1 as [|a l1 IH]; intros [|b l2] [|i]; simpl;
    try discriminate.
  - intros E; injection E as <- <-; auto.
  - apply IH.
Qed.

Lemma path_table_index (ch : MultipathFadingChannel) (i : nat)
    (e : R * (nat * (R * R))) :
  nth_error (path_table ch) i = Some e -> fst (snd e) = i.
Proof.
  destruct e as [power [p rest]]; unfold path_table; intros H.
  apply nth_error_combine in H as [_ H].
  apply nth_error_combine in H as [H _].
  rewrite nth_error_seq in H.
  destruct (i <? num_resolvable_paths ch)%nat; [|discriminate].
  injection H as <-; reflexivity.
Qed.

Section ClosedLoops.

Variable ch : MultipathFadingChannel.
Variables (fs : R) (ts : list R) (last : R).

Hypothesis Hwf : well_formed ch.
Hypothesis Hns : (0 < num_sinusoids ch)%Z.
Hypothesis Hfs : 0 <= fs.
Hypothesis Hlast : last_item (delays ch) = Ok last.

Lemma deposit_nearest_closed (power : R) (path_idx : nat) (lg ng delay : R)
    (n1 n2 : nat) (a : ndarray4) (g : rng_state) (rx tx : nat) :
  nth_error (delays ch) path_idx = Some delay ->
  loop_array fs ts last n1 n2 a -> (rx < n1)%nat -> (tx < n2)%nat ->
  exists a',
    deposit ch fs ts None power path_idx lg ng (a, g) (rx, tx)
      = Ok (a', advance g (draws_per_tap ch)) /\
    loop_array fs ts last n1 n2 a' /\
    forall (n r c j : nat) (t : R),
      nth_error ts n = Some t ->
      item a' n r c j =
      if ((r =? rx)%nat && (c =? tx)%nat && (Z.of_nat j =? floor (delay * fs))%Z)
      then option_map
             (fun z => Cadd z (Cscale (sqrt power) (tap_sample ch lg ng g t)))
             (item a n r c j)
      else item a n r c j.
Proof.
  intros Hp (Hs & H0 & H1 & H2 & H3) Hrx Htx.
  destruct (deposit_nearest_ok ch fs ts power path_idx lg ng a g rx tx delay last
              Hwf Hns Hfs Hp Hlast Hs H0 H3)
    as (t & g1 & a1 & Ht & _ & Hd & Hs1 & E0 & E1 & E2 & E3 & Hitem);
    [lia | lia |].
  rewrite tap_closed_form in Ht by exact Hns.
  injection Ht as <- <-.
  exists a1; split; [exact Hd|]; split.
  - unfold loop_array; split; [exact Hs1|]; repeat split; congruence.
  - intros n r c j t Hn; apply Hitem.
    rewrite nth_error_map, Hn; reflexivity.
Qed.

(** One path, all pairs: the entry of a pair visited at place [q] receives
    the tap drawn [q] taps further down the stream, if its delay tap is the
    path's; an entry of no visited pair stays. *)
Lemma pairs_loop_closed (power : R) (path_idx : nat) (lg ng delay : R)
    (n1 n2 : nat) (pairs : list (nat * nat)) :
  nth_error (delays ch) path_idx = Some delay ->
  Forall (fun pr => (fst pr < n1)%nat /\ (snd pr < n2)%nat) pairs ->
  NoDup pairs ->
  forall (a : ndarray4) (g : rng_state),
    loop_array fs ts last n1 n2 a ->
    exists a',
      foldM (deposit ch fs ts None power path_idx lg ng) pairs (a, g)
        = Ok (a', advance g (length pairs * draws_per_tap ch)) /\
      loop_array fs ts last n1 n2 a' /\
      forall (n r c j : nat) (t : R) (z : C),
        nth_error ts n = Some t -> item a n r c j = Some z ->
        (forall q, nth_error pairs q = Some (r, c) ->
           item a' n r c j =
           Some (Cadd z
                   (if (Z.of_nat j =? floor (delay * fs))%Z
                    then Cscale (sqrt power)
                           (tap_sample ch lg ng
                              (advance g (q * draws_per_tap ch)) t)
                    else C0))) /\
        (~ In (r, c) pairs -> item a' n r c j = Some z).
Proof.
  intros Hp HF HN; induction HF as [|[rx tx] pairs [Hrx Htx] HF IH];
    intros a g Ha.
  - exists a; simpl; rewrite advance_0; split; [reflexivity|]; split; [exact Ha|].
    intros n r c j t z Hn Hz; split; [intros [|q]; discriminate | auto].
  - simpl in Hrx, Htx; inversion HN as [|? ? Hnotin HN']; subst.
    destruct (deposit_nearest_closed power path_idx lg ng delay n1 n2 a g rx tx
                Hp Ha Hrx Htx) as (a1 & Hd & Ha1 & Hitem1).
    destruct (IH HN' a1 (advance g (draws_per_tap ch)) Ha1)
      as (a' & Hf & Ha' & Hitem').
    exists a'; split; [|split; [exact Ha'|]].
    + rewrite foldM_cons, Hd, bind_ok, Hf, advance_add; reflexivity.
    + intros n r c j t z Hn Hz.
      pose proof (Hitem1 n r c j t Hn) as H1; rewrite Hz in H1; simpl in H1.
      split.
      * intros [|q] Hq.
        -- injection Hq as <- <-.
           rewrite !Nat.eqb_refl in H1; simpl in H1.
           rewrite Nat.mul_0_l, advance_0.
           destruct (Z.of_nat j =? floor (delay * fs))%Z.
           ++ apply (proj2 (Hitem' n rx tx j t _ Hn H1)); exact Hnotin.
           ++ rewrite Cadd_0_r.
              apply (proj2 (Hitem' n rx tx j t _ Hn H1)); exact Hnotin.
        -- simpl in Hq.
           assert (Hne : ((r =? rx)%nat && (c =? tx)%nat) = false).
           { apply andb_false_iff.
             destruct (Nat.eqb_spec r rx) as [->|]; [|left; reflexivity].
             destruct (Nat.eqb_spec c tx) as [->|]; [|right; reflexivity].
             apply nth_error_In in Hq; contradiction. }
           rewrite Hne in H1; simpl in H1.
           rewrite (proj1 (Hitem' n r c j t z Hn H1) q Hq), advance_add.
           replace (draws_per_tap ch + q * draws_per_tap ch)%nat
             with (S q * draws_per_tap ch)%nat by lia.
           reflexivity.
      * intros Hnot.
        assert (Hne : ((r =? rx)%nat && (c =? tx)%nat) = false).
        { apply andb_false_iff.
          destruct (Nat.eqb_spec r rx) as [->|]; [|left; reflexivity].
          destruct (Nat.eqb_spec c tx) as [->|]; [|right; reflexivity].
          exfalso; apply Hnot; left; reflexivity. }
        rewrite Hne in H1; simpl in H1.
        apply (proj2 (Hitem' n r c j t z Hn H1)).
        intros H; apply Hnot; right; exact H.
Qed.

End ClosedLoops.

Section ClosedPaths.

Variable ch : MultipathFadingChannel.
Variables (fs : R) (ts : list R) (last : R) (g0 : rng_state).

Hypothesis Hwf : well_formed ch.
Hypothesis Hns : (0 < num_sinusoids ch)%Z.
Hypothesis Hfs : 0 <= fs.
Hypothesis Hlast : last_item (delays ch) = Ok last.

(** All paths from the one of index [s] on: every entry of a visited pair
    receives the terms of these paths. *)
Lemma paths_loop_closed (n1 n2 : nat) (entries : list (R * (nat * (R * R)))) :
  Forall (fun pr => (fst pr < n1)%nat /\ (snd pr < n2)%nat) (antenna_pairs ch) ->
  forall (s : nat) (a : ndarray4),
    (forall i e, nth_error entries i = Some e ->
                 fst (snd e) = (s + i)%nat /\ (s + i < length (delays ch))%nat) ->
    loop_array fs ts last n1 n2 a ->
    exists a',
      foldM (deposit_path ch fs ts None) entries
            (a, advance g0 (s * length (antenna_pairs ch) * draws_per_tap ch))
        = Ok (a', advance g0 ((s + length entries) * length (antenna_pairs ch)
                              * draws_per_tap ch)) /\
      loop_array fs ts last n1 n2 a' /\
      forall (n r c j : nat) (t : R) (z : C),
        nth_error ts n = Some t ->
        (r < transmitter_num_antennas (base ch))%nat ->
        (c < receiver_num_antennas (base ch))%nat ->
        item a n r c j = Some z ->
        item a' n r c j =
        Some (Cadd z (Csum (map (path_term ch fs g0 t r c j) entries))).
Proof.
  intros Hpairs; induction entries as [|[power [p [lg ng]]] entries IH];
    intros s a Hidx Ha.
  - exists a; simpl; rewrite Nat.add_0_r; split; [reflexivity|]; split; [exact Ha|].
    intros n r c j t z _ _ _ Hz; rewrite Cadd_0_r; exact Hz.
  - destruct (Hidx 0%nat _ eq_refl) as [Hp Hlt]; simpl in Hp.
    rewrite Nat.add_0_r in Hp, Hlt; subst p.
    destruct (nth_error (delays ch) s) as [delay|] eqn:Hd;
      [|apply nth_error_None in Hd; lia].
    destruct (pairs_loop_closed ch fs ts last Hwf Hns Hfs Hlast power s lg ng delay
                n1 n2 (antenna_pairs ch) Hd Hpairs (antenna_pairs_NoDup ch) a
                (advance g0 (s * length (antenna_pairs ch) * draws_per_tap ch)) Ha)
      as (a1 & Hf & Ha1 & Hitem1).
    rewrite advance_add in Hf.
    replace (s * length (antenna_pairs ch) * draws_per_tap ch
             + length (antenna_pairs ch) * draws_per_tap ch)%nat
      with (S s * length (antenna_pairs ch) * draws_per_tap ch)%nat in Hf by lia.
    destruct (IH (S s) a1) as (a' & Hf' & Ha' & Hitem'); [|exact Ha1|].
    { intros i e He; destruct (Hidx (S i) e He) as [E1 E2].
      split; [rewrite E1; lia | lia]. }
    exists a'; split; [|split; [exact Ha'|]].
    + rewrite foldM_cons; unfold deposit_path at 1; rewrite Hf, bind_ok, Hf'.
      simpl length; do 3 f_equal; lia.
    + intros n r c j t z Hn Hr Hc Hz.
      pose proof (proj1 (Hitem1 n r c j t z Hn Hz) _
                    (nth_error_antenna_pairs ch r c Hr Hc)) as H1.
      rewrite (Hitem' n r c j t _ Hn Hr Hc H1).
      rewrite Cadd_assoc; do 2 f_equal.
      simpl; f_equal.
      rewrite (nth_error_nth _ _ 0 Hd).
      destruct (Z.of_nat j =? floor (delay * fs))%Z; [|reflexivity].
      unfold tap_stream; rewrite advance_add.
      do 3 f_equal; lia.
Qed.

End ClosedPaths.

Lemma item_zeros (n0 n1 n2 : nat) (n3 : Z) (a : ndarray4) (n r c j : nat) :
  zeros n0 n1 n2 n3 = Ok a ->
  (n < n0)%nat -> (r < n1)%nat -> (c < n2)%nat -> (j < dim3 a)%nat ->
  item a n r c j = Some C0.
Proof.
  unfold zeros; destruct (n3 <? 0)%Z; [discriminate|].
  intros E; injection E as <-; simpl; intros Hn Hr Hc Hj.
  unfold item; simpl.
  rewrite (nth_error_nth' _ []) by (rewrite repeat_length; exact Hn).
  rewrite nth_repeat_lt by exact Hn.
  rewrite (nth_error_nth' _ []) by (rewrite repeat_length; exact Hr).
  rewrite nth_repeat_lt by exact Hr.
  rewrite (nth_error_nth' _ []) by (rewrite repeat_length; exact Hc).
  rewrite nth_repeat_lt by exact Hc.
  rewrite (nth_error_nth' _ C0) by (rewrite repeat_length; exact Hj).
  rewrite nth_repeat_lt by exact Hj.
  reflexivity.
Qed.

Lemma smul_shaped (r : R) (a : ndarray4) : shaped a -> shaped (smul r a).
Proof.
  intros [L HF]; split; simpl; [rewrite length_map; exact L|].
  apply Forall_map; revert HF; apply Forall_impl; intros plane [Hp HF].
  split; [rewrite length_map; exact Hp|].
  apply Forall_map; revert HF; apply Forall_impl; intros line [Hl HF].
  split; [rewrite length_map; exact Hl|].
  apply Forall_map; revert HF; apply Forall_impl; intros row Hr.
  rewrite length_map; exact Hr.
Qed.

Lemma path_table_length (ch : MultipathFadingChannel) :
  well_formed ch -> length (path_table ch) = num_resolvable_paths ch.
Proof.
  intros (_ & _ & _ & Hp & Hl & Hn & Hnum & _); unfold path_table.
  rewrite !length_combine, length_seq, Hp, Hl, Hn, Hnum; lia.
Qed.

(** With as many transmit as receive antennas and no interpolation,
    [impulse_response] returns; every entry of the tensor is the gain times
    the sum, over the paths, of the terms of the paths whose delay index is
    the entry's tap. *)
Lemma impulse_response_nearest_closed (ch : MultipathFadingChannel) (n : nat)
    (fs : R) (g : rng_state) :
  well_formed ch -> (0 < num_sinusoids ch)%Z -> 0 <= fs ->
  impulse_response_interpolation (base ch) = false ->
  transmitter_num_antennas (base ch) = receiver_num_antennas (base ch) ->
  exists last h,
    last_item (delays ch) = Ok last /\
    impulse_response ch n fs g =
      Ok (h, advance g (num_resolvable_paths ch * length (antenna_pairs ch)
                        * draws_per_tap ch)) /\
    shaped h /\ dim0 h = n /\
    dim1 h = receiver_num_antennas (base ch) /\
    dim2 h = transmitter_num_antennas (base ch) /\
    Z.of_nat (dim3 h) = (floor (last * fs) + 1)%Z /\
    forall m r c j : nat,
      (m < n)%nat -> (r < dim1 h)%nat -> (c < dim2 h)%nat -> (j < dim3 h)%nat ->
      item h m r c j =
      Some (Cscale (gain (base ch))
              (Csum (map (path_term ch fs g (INR m / fs) r c j) (path_table ch)))).
Proof.
  intros Hwf Hns Hfs Hint Heq.
  destruct (last_item_nth _ (proj1 Hwf)) as [last [Hlast Hnth]].
  destruct (delay_index_bounds ch fs _ last last Hwf Hfs Hnth Hlast) as [Hfl Hb].
  destruct (zeros_ok n (receiver_num_antennas (base ch))
              (transmitter_num_antennas (base ch)) (int_of (last * fs) + 1))
    as (a0 & Hz & Hs0 & E0 & E1 & E2 & E3); [lia|].
  assert (Ha0 : loop_array fs (timestamps_of n fs) last
                  (receiver_num_antennas (base ch))
                  (transmitter_num_antennas (base ch)) a0).
  { unfold loop_array; rewrite timestamps_length; auto. }
  destruct (paths_loop_closed ch fs (timestamps_of n fs) last g Hwf Hns Hfs Hlast
              (receiver_num_antennas (base ch)) (transmitter_num_antennas (base ch))
              (path_table ch)) with (s := 0%nat) (a := a0)
    as (a & Hf & (Hs & D0 & D1 & D2 & D3) & Hitem).
  { apply Forall_forall; intros [i j] Hin; apply antenna_pairs_in in Hin.
    simpl; lia. }
  { intros i e He; pose proof (path_table_index ch i e He) as Hi.
    split; [exact Hi|]; simpl; rewrite <- Hi.
    pose proof (path_table_indices ch Hwf) as HF.
    rewrite Forall_forall in HF; apply HF.
    apply nth_error_In in He; exact He. }
  { exact Ha0. }
  simpl in Hf; rewrite advance_0, (path_table_length ch Hwf) in Hf.
  exists last, (smul (gain (base ch)) a).
  split; [exact Hlast|]; split.
  { unfold impulse_response.
    rewrite Hlast, bind_ok, Hz, bind_ok, Hint, bind_ok, Hf; reflexivity. }
  rewrite timestamps_length in D0.
  split; [apply smul_shaped; exact Hs|]; simpl.
  split; [exact D0|]; split; [exact D1|]; split; [exact D2|]; split.
  { rewrite D3, <- Hfl; lia. }
  intros m r c j Hm Hr Hc Hj.
  assert (H1 : nth_error (timestamps_of n fs) m = Some (INR m / fs))
    by (apply nth_error_timestamps; exact Hm).
  assert (H2 : (r < transmitter_num_antennas (base ch))%nat)
    by (rewrite Heq, <- D1; exact Hr).
  assert (H3 : (c < receiver_num_antennas (base ch))%nat)
    by (rewrite <- Heq, <- D2; exact Hc).
  assert (H4 : item a0 m r c j = Some C0).
  { apply (item_zeros _ _ _ _ _ _ _ _ _ Hz); lia. }
  rewrite item_smul, (Hitem m r c j (INR m / fs) C0 H1 H2 H3 H4).
  simpl; rewrite Cadd_0_l; reflexivity.
Qed.

Lemma antenna_pairs_length (ch : MultipathFadingChannel) :
  length (antenna_pairs ch) =
  (transmitter_num_antennas (base ch) * receiver_num_antennas (base ch))%nat.
Proof. unfold antenna_pairs; rewrite length_prod, !length_seq; reflexivity. Qed.

(** With [N] antennas on each side and no interpolation, [impulse_response]
    returns a tensor of shape [num_samples, N, N, floor(max_delay * rate) + 1]
    and takes one tap's worth of variates from the stream for every path and
    antenna pair. *)
Theorem impulse_response_square_shape
    (d p : list R) (k : list xreal) (ns : option Z) (la df ldf : option R)
    (interp : option bool) (kw : Channel) (ch : MultipathFadingChannel)
    (num_samples : nat) (sampling_rate : R) (g : rng_state) (N : nat) :
  init d p k ns la df ldf interp kw = Ok ch ->
  (0 < num_sinusoids ch)%Z -> 0 <= sampling_rate ->
  impulse_response_interpolation kw = false ->
  transmitter_num_antennas kw = N -> receiver_num_antennas kw = N ->
  exists h,
    impulse_response ch num_samples sampling_rate g =
      Ok (h, advance g (length d * (N * N) * draws_per_tap ch)) /\
    shaped h /\ dim0 h = num_samples /\ dim1 h = N /\ dim2 h = N /\
    Z.of_nat (dim3 h) = (floor (max_delay ch * sampling_rate) + 1)%Z.
Proof.
  intros Hinit Hns Hfs Hint Htx Hrx.
  pose proof (init_well_formed _ _ _ _ _ _ _ _ _ _ Hinit) as Hwf.
  destruct (init_ok_inv _ _ _ _ _ _ _ _ _ _ Hinit)
    as (_ & Hd & _ & _ & _ & _ & Hnum & Hb).
  destruct (max_delay_facts _ _ _ _ _ _ _ _ _ _ Hinit) as (Hmax & _).
  destruct (impulse_response_nearest_closed ch num_samples sampling_rate g Hwf Hns Hfs)
    as (last & h & Hlast & Hir & Hs & D0 & D1 & D2 & D3 & _);
    [rewrite Hb; exact Hint | rewrite Hb; congruence |].
  rewrite Hmax in Hlast; injection Hlast as <-.
  rewrite antenna_pairs_length, Hnum, Hd, take_length, argsort_length, Hb, Htx, Hrx
    in Hir.
  rewrite Hb in D1, D2.
  exists h; split; [exact Hir|]; split; [exact Hs|].
  repeat split; try assumption; congruence.
Qed.

Lemma impulse_response_square_shape_witness :
  exists h,
    impulse_response two_paths 3 2 (constant_rng 0) =
      Ok (h, advance (constant_rng 0) (2 * (1 * 1) * draws_per_tap two_paths)) /\
    dim0 h = 3%nat /\ dim1 h = 1%nat /\ dim2 h = 1%nat /\
    Z.of_nat (dim3 h) = (floor (max_delay two_paths * 2) + 1)%Z.
Proof.
  destruct (impulse_response_square_shape _ _ _ _ _ _ _ _ _ two_paths 3 2
              (constant_rng 0) 1 init_two_paths)
    as (h & Hir & _ & D0 & D1 & D2 & D3);
    [reflexivity | lra | reflexivity | reflexivity | reflexivity |].
  exists h; repeat split; assumption.
Defined.

(** With as many transmit as receive antennas and no interpolation, the
    entry [[n, rx, tx, k]] of the impulse response is the channel gain times
    the sum, over the paths whose delay index [floor(delay * rate)] is [k],
    of [sqrt(power)] times the value of the path's tap at instant
    [n / rate]; the tap of path [p] and pair [(rx, tx)] is the one generated
    after those of the earlier paths and the earlier pairs of [p]. *)
Theorem impulse_response_entries
    (d p : list R) (k : list xreal) (ns : option Z) (la df ldf : option R)
    (interp : option bool) (kw : Channel) (ch : MultipathFadingChannel)
    (num_samples : nat) (sampling_rate : R) (g : rng_state) :
  init d p k ns la df ldf interp kw = Ok ch ->
  (0 < num_sinusoids ch)%Z -> 0 < sampling_rate ->
  impulse_response_interpolation kw = false ->
  transmitter_num_antennas kw = receiver_num_antennas kw ->
  exists h g',
    impulse_response ch num_samples sampling_rate g = Ok (h, g') /\
    forall n rx_idx tx_idx delay_idx : nat,
      (n < num_samples)%nat ->
      (rx_idx < receiver_num_antennas kw)%nat ->
      (tx_idx < transmitter_num_antennas kw)%nat ->
      (Z.of_nat delay_idx <= floor (max_delay ch * sampling_rate))%Z ->
      item h n rx_idx tx_idx delay_idx =
      Some (Cscale (gain kw)
              (Csum (map (path_term ch sampling_rate g (INR n / sampling_rate)
                                    rx_idx tx_idx delay_idx)
                         (path_table ch)))).
Proof.
  intros Hinit Hns Hfs Hint Heq; apply Rlt_le in Hfs.
  pose proof (init_well_formed _ _ _ _ _ _ _ _ _ _ Hinit) as Hwf.
  destruct (init_ok_inv _ _ _ _ _ _ _ _ _ _ Hinit)
    as (_ & _ & _ & _ & _ & _ & _ & Hb).
  destruct (max_delay_facts _ _ _ _ _ _ _ _ _ _ Hinit) as (Hmax & _).
  destruct (impulse_response_nearest_closed ch num_samples sampling_rate g Hwf Hns Hfs)
    as (last & h & Hlast & Hir & _ & D0 & D1 & D2 & D3 & Hitem);
    [rewrite Hb; exact Hint | rewrite Hb; exact Heq |].
  rewrite Hmax in Hlast; injection Hlast as <-.
  rewrite Hb in *.
  exists h; eexists; split; [exact Hir|].
  intros n r c j Hn Hr Hc Hj; apply Hitem; lia.
Qed.

Lemma impulse_response_entries_witness :
  exists h g',
    impulse_response two_paths 3 2 (constant_rng 0) = Ok (h, g') /\
    item h 0 0 0 2 =
    Some (Cscale 1
            (Csum (map (path_term two_paths 2 (constant_rng 0) (INR 0 / 2) 0 0 2)
                       (path_table two_paths)))).
Proof.
  destruct (impulse_response_entries _ _ _ _ _ _ _ _ _ two_paths 3 2
              (constant_rng 0) init_two_paths)
    as (h & g' & Hir & Hitem);
    [reflexivity | lra | reflexivity | reflexivity |].
  exists h, g'; split; [exact Hir|].
  apply Hitem; try (simpl; lia).
  destruct (max_delay_facts _ _ _ _ _ _ _ _ _ _ init_two_paths) as (_ & _ & Hall).
  inversion Hall as [|? ? H1 _]; subst.
  change (Z.of_nat 2) with 2%Z; rewrite <- (floor_IZR 2) at 1.
  apply floor_mono; lra.
Defined.

Lemma Csum_all_zero {A : Type} (f : A -> C) (l : list A) :
  (forall x, In x l -> f x = C0) -> Csum (map f l) = C0.
Proof.
  induction l as [|x l IH]; intros H; simpl; [reflexivity|].
  rewrite (H x) by (left; reflexivity).
  rewrite IH by (intros y Hy; apply H; right; exact Hy).
  apply Cadd_0_l.
Qed.

(** Without interpolation a delay tap that is the delay index of no path
    stays exactly zero, at every sample and for every antenna pair. *)
Theorem impulse_response_silent_taps
    (d p : list R) (k : list xreal) (ns : option Z) (la df ldf : option R)
    (interp : option bool) (kw : Channel) (ch : MultipathFadingChannel)
    (num_samples : nat) (sampling_rate : R) (g : rng_state) (delay_idx : nat) :
  init d p k ns la df ldf interp kw = Ok ch ->
  (0 < num_sinusoids ch)%Z -> 0 <= sampling_rate ->
  impulse_response_interpolation kw = false ->
  transmitter_num_antennas kw = receiver_num_antennas kw ->
  (Z.of_nat delay_idx <= floor (max_delay ch * sampling_rate))%Z ->
  (forall delay, In delay (delays ch) ->
                 floor (delay * sampling_rate) <> Z.of_nat delay_idx) ->
  exists h g',
    impulse_response ch num_samples sampling_rate g = Ok (h, g') /\
    forall n rx_idx tx_idx : nat,
      (n < num_samples)%nat ->
      (rx_idx < receiver_num_antennas kw)%nat ->
      (tx_idx < transmitter_num_antennas kw)%nat ->
      item h n rx_idx tx_idx delay_idx = Some C0.
Proof.
  intros Hinit Hns Hfs Hint Heq Hj Hsilent.
  pose proof (init_well_formed _ _ _ _ _ _ _ _ _ _ Hinit) as Hwf.
  destruct (init_ok_inv _ _ _ _ _ _ _ _ _ _ Hinit)
    as (_ & _ & _ & _ & _ & _ & _ & Hb).
  destruct (max_delay_facts _ _ _ _ _ _ _ _ _ _ Hinit) as (Hmax & _).
  destruct (impulse_response_nearest_closed ch num_samples sampling_rate g Hwf Hns Hfs)
    as (last & h & Hlast & Hir & _ & D0 & D1 & D2 & D3 & Hitem);
    [rewrite Hb; exact Hint | rewrite Hb; exact Heq |].
  rewrite Hmax in Hlast; injection Hlast as <-.
  rewrite Hb in *.
  exists h; eexists; split; [exact Hir|].
  intros n r c Hn Hr Hc.
  rewrite Hitem by lia.
  rewrite Csum_all_zero; [rewrite Cscale_0; reflexivity|].
  intros [power [path_idx [lg ng]]] He; simpl.
  pose proof (path_table_indices ch Hwf) as HF.
  rewrite Forall_forall in HF; specialize (HF _ He); simpl in HF.
  destruct (Z.eqb_spec (Z.of_nat delay_idx)
              (floor (nth path_idx (delays ch) 0 * sampling_rate))) as [E|_];
    [|reflexivity].
  exfalso; apply (Hsilent (nth path_idx (delays ch) 0));
    [apply nth_In; exact HF | symmetry; exact E].
Qed.

Lemma impulse_response_silent_taps_witness :
  exists h g',
    impulse_response two_paths 3 2 (constant_rng 0) = Ok (h, g') /\
    item h 0 0 0 1 = Some C0.
Proof.
  destruct (impulse_response_silent_taps _ _ _ _ _ _ _ _ _ two_paths 3 2
              (constant_rng 0) 1 init_two_paths)
    as (h & g' & Hir & Hitem);
    [reflexivity | lra | reflexivity | reflexivity | | |].
  - destruct (max_delay_facts _ _ _ _ _ _ _ _ _ _ init_two_paths) as (_ & _ & Hall).
    inversion Hall as [|? ? H1 _]; subst.
    change (Z.of_nat 1) with 1%Z; rewrite <- (floor_IZR 1) at 1.
    apply floor_mono; lra.
  - intros delay [<-|[<-|[]]].
    + replace (0 * 2) with (IZR 0) by (simpl; lra).
      rewrite floor_IZR; discriminate.
    + replace (1 * 2) with (IZR 2) by (simpl; lra).
      rewrite floor_IZR; discriminate.
  - exists h, g'; split; [exact Hir|].
    apply Hitem; simpl; lia.
Defined.

(** ** What the recommended sampling rate guarantees *)

Lemma np_min_spec (l : list R) (m : R) :
  np_min l = Ok m -> In m l /\ forall y, In y l -> m <= y.
Proof.
  destruct l as [|x l]; simpl; [discriminate|].
  intros E; injection E as <-; split.
  - clear; revert x; induction l as [|z l IH]; intros x; simpl; [auto|].
    destruct (IH (Rmin x z)) as [E|H]; [|auto].
    rewrite <- E; unfold Rmin; destruct (Rle_dec x z); auto.
  - intros y Hy; apply fold_left_Rmin_le; exact Hy.
Qed.

(** With two paths or more and no interpolation the query returns a
    non-negative rate: zero when the smallest gap between successive delays
    is zero, and otherwise [(1 - 0.4) / gap], at which every two successive
    delays lie at least [0.6] sampling intervals apart. *)
Theorem min_sampling_rate_separates
    (d p : list R) (k : list xreal) (ns : option Z) (la df ldf : option R)
    (interp : option bool) (kw : Channel) (ch : MultipathFadingChannel) :
  init d p k ns la df ldf interp kw = Ok ch ->
  impulse_response_interpolation kw = false ->
  (2 <= length d)%nat ->
  exists gap rate : R,
    np_min (diff (delays ch)) = Ok gap /\ 0 <= gap /\
    min_sampling_rate ch = Ok rate /\ 0 <= rate /\
    (gap = 0 -> rate = 0) /\
    (0 < gap ->
     rate = (1 - 4 / 10) / gap /\
     forall (i : nat) (x y : R),
       nth_error (delays ch) i = Some x ->
       nth_error (delays ch) (S i) = Some y ->
       1 - 4 / 10 <= rate * (y - x)).
Proof.
  intros Hinit Hint Hlen.
  pose proof (init_well_formed _ _ _ _ _ _ _ _ _ _ Hinit) as Hwf.
  destruct (init_ok_inv _ _ _ _ _ _ _ _ _ _ Hinit)
    as (_ & Hd & _ & _ & _ & _ & _ & Hb).
  destruct Hwf as (_ & _ & _ & _ & _ & _ & _ & Hsorted).
  assert (Hl : (2 <= length (delays ch))%nat)
    by (rewrite Hd, take_length, argsort_length; exact Hlen).
  destruct (min_sampling_rate_gap ch) as (gap & Hmin & Hzero & Hpos);
    [rewrite Hb; exact Hint | exact Hl |].
  destruct (np_min_spec _ _ Hmin) as [Hin Hle].
  assert (Hgaps : forall i x y, nth_error (delays ch) i = Some x ->
                  nth_error (delays ch) (S i) = Some y -> gap <= y - x).
  { intros i x y Hx Hy; apply Hle, (nth_error_In _ i).
    rewrite nth_error_diff, Hx, Hy; reflexivity. }
  assert (Hnn : 0 <= gap).
  { apply In_nth_error in Hin as [i Hi]; rewrite nth_error_diff in Hi.
    destruct (nth_error (delays ch) i) as [x|] eqn:Hx; [|discriminate].
    destruct (nth_error (delays ch) (S i)) as [y|] eqn:Hy; [|discriminate].
    injection Hi as <-.
    pose proof (Hsorted i (S i) x y (Nat.le_succ_diag_r i) Hx Hy); lra. }
  destruct (Req_dec_T gap 0) as [E|E].
  - exists gap, 0; split; [exact Hmin|]; split; [exact Hnn|].
    split; [apply Hzero; exact E|]; split; [lra|]; split; [reflexivity | lra].
  - assert (Hg : 0 < gap) by lra.
    exists gap, ((1 - 4 / 10) / gap); split; [exact Hmin|]; split; [exact Hnn|].
    split; [apply Hpos; exact E|]; split; [|split; [contradiction|]].
    + apply Rmult_le_pos; [lra | left; apply Rinv_0_lt_compat; exact Hg].
    + intros _; split; [reflexivity|].
      intros i x y Hx Hy; pose proof (Hgaps i x y Hx Hy) as Hxy.
      unfold Rdiv; rewrite Rmult_assoc.
      rewrite <- (Rmult_1_r (1 - 4 / 10)) at 1.
      apply Rmult_le_compat_l; [lra|].
      apply (Rmult_le_reg_l gap); [exact Hg|].
      rewrite <- Rmult_assoc, Rinv_r by lra; lra.
Qed.

Lemma min_sampling_rate_separates_witness :
  exists gap rate : R,
    np_min (diff (delays two_paths)) = Ok gap /\
    min_sampling_rate two_paths = Ok rate /\ 0 <= rate.
Proof.
  destruct (min_sampling_rate_separates _ _ _ _ _ _ _ _ _ two_paths init_two_paths)
    as (gap & rate & Hmin & _ & Hrate & Hnn & _);
    [reflexivity | simpl; lia |].
  exists gap, rate; auto.
Defined.

(** ** Reading a channel back from its mapping *)

Lemma lookup_remove_key_same (key : string) (m : mapping) :
  lookup key (remove_key key m) = None.
Proof.
  induction m as [|[k0 v] m IH]; simpl; [reflexivity|].
  destruct (String.eqb key k0) eqn:E; [exact IH|].
  simpl; rewrite E; exact IH.
Qed.

Lemma lookup_remove_key_other (key key' : string) (m : mapping) :
  key <> key' -> lookup key (remove_key key' m) = lookup key m.
Proof.
  intros Hne; induction m as [|[k0 v] m IH]; simpl; [reflexivity|].
  destruct (String.eqb_spec key' k0) as [<-|Hk].
  - rewrite IH; destruct (String.eqb_spec key key'); [contradiction | reflexivity].
  - simpl; rewrite IH; reflexivity.
Qed.

Lemma lookup_app (key : string) (m1 m2 : mapping) :
  lookup key (m1 ++ m2) =
  match lookup key m1 with
  | Some v => Some v
  | None => lookup key m2
  end.
Proof.
  induction m1 as [|[k0 v] m1 IH]; simpl; [reflexivity|].
  destruct (String.eqb key k0); [reflexivity | exact IH].
Qed.

(** The conversion touches the power profile only. *)
Lemma convert_power_profile_other (key : string) (state : mapping) :
  key <> "power_profile"%string ->
  lookup key (convert_power_profile state) = lookup key state.
Proof.
  intros Hne; unfold convert_power_profile.
  assert (Hsingle : forall v, lookup key (remove_key "power_profile" state
                                          ++ [("power_profile"%string, v)])
                              = lookup key state).
  { intros v; rewrite lookup_app, lookup_remove_key_other by exact Hne.
    destruct (lookup key state); [reflexivity|].
    simpl; destruct (String.eqb_spec key "power_profile");
      [contradiction | reflexivity]. }
  destruct (lookup "power_profile" state) as [[| | | | |]|];
    try apply Hsingle; apply lookup_remove_key_other; exact Hne.
Qed.

Lemma convert_power_profile_same (state : mapping) :
  lookup "power_profile" (convert_power_profile state) =
  match lookup "power_profile" state with
  | Some (YSeq p) => Some (YSeq (map db2lin p))
  | Some YNone | None => None
  | Some v => Some v
  end.
Proof.
  unfold convert_power_profile.
  destruct (lookup "power_profile" state) as [[| | | | |]|];
    rewrite ?lookup_app, lookup_remove_key_same; reflexivity.
Qed.

Lemma db2lin_pos (x : R) : 0 < db2lin x.
Proof. unfold db2lin, Rpower; apply exp_pos. Qed.

(** [from_yaml] fails with [TypeError] on every mapping that lacks the
    delays, the Rice factors or the power profile, a power profile given as
    null counting as lacking. *)
Theorem from_yaml_missing_key (defaults : Channel) (state : mapping) :
  lookup "delays" state = None \/
  lookup "rice_factors" state = None \/
  lookup "power_profile" state = None \/
  lookup "power_profile" state = Some YNone ->
  raises (from_yaml defaults state) TypeError.
Proof.
  intros H; unfold raises, from_yaml, construct.
  rewrite (convert_power_profile_other "delays") by discriminate.
  rewrite (convert_power_profile_other "rice_factors") by discriminate.
  rewrite convert_power_profile_same.
  destruct H as [H|[H|[H|H]]]; rewrite H.
  - reflexivity.
  - destruct (lookup "delays" state); [|reflexivity].
    destruct (lookup "power_profile" state) as [[| | | | |]|]; reflexivity.
  - destruct (lookup "delays" state); reflexivity.
  - destruct (lookup "delays" state); reflexivity.
Qed.

Lemma from_yaml_missing_key_witness :
  raises (from_yaml siso [("delays"%string, YSeq [0]);
                          ("power_profile"%string, YSeq [0])]) TypeError.
Proof.
  apply from_yaml_missing_key; right; left; reflexivity.
Defined.

Lemma float_kw_convert (key : string) (state : mapping) :
  key <> "power_profile"%string ->
  float_kw key (convert_power_profile state) = float_kw key state.
Proof.
  intros Hne; unfold float_kw; rewrite convert_power_profile_other by exact Hne.
  reflexivity.
Qed.

Lemma channel_kwargs_convert (defaults : Channel) (state : mapping) :
  channel_kwargs defaults (convert_power_profile state) =
  channel_kwargs defaults state.
Proof.
  unfold channel_kwargs.
  rewrite (convert_power_profile_other "active") by discriminate.
  rewrite !float_kw_convert by discriminate.
  reflexivity.
Qed.

Lemma float_kw_typed (key : string) (state : mapping) :
  entry_is is_number key state -> exists o, float_kw key state = Ok o.
Proof.
  unfold entry_is, float_kw.
  destruct (lookup key state) as [[| | | | |]|]; simpl; intros H;
    try discriminate; eexists; reflexivity.
Qed.

Lemma channel_kwargs_typed (defaults : Channel) (state : mapping) :
  entry_is is_bool "active" state ->
  entry_is is_number "gain" state ->
  entry_is is_number "sync_offset_low" state ->
  entry_is is_number "sync_offset_high" state ->
  exists kw, channel_kwargs defaults state = Ok kw.
Proof.
  intros Ha Hg Hl Hh; unfold channel_kwargs.
  destruct (float_kw_typed _ _ Hg) as [gn ->].
  destruct (float_kw_typed _ _ Hl) as [lo ->].
  destruct (float_kw_typed _ _ Hh) as [hi ->].
  unfold entry_is in Ha.
  destruct (lookup "active" state) as [[| | | | |]|]; simpl in Ha;
    try discriminate; rewrite !bind_ok; eexists; reflexivity.
Qed.

(** [from_yaml] reads every mapping with typed optional entries and a valid
    path set, whatever the sign of the stored power values: the channel
    keeps the paths, each delay and Rice factor with [10 ** (x / 10)] of the
    stored power value [x] of its path, and its power profile is positive
    throughout. *)
Theorem from_yaml_power_profile (defaults : Channel) (state : mapping)
    (d stored : list R) (ks : list xreal) :
  lookup "delays" state = Some (YSeq d) ->
  lookup "power_profile" state = Some (YSeq stored) ->
  lookup "rice_factors" state = Some (YSeqInf ks) ->
  optional_entries_typed state ->
  length d = length stored -> length stored = length ks ->
  (1 <= length d)%nat ->
  Forall (fun x => 0 <= x) d -> Forall xnonneg ks ->
  exists ch : MultipathFadingChannel,
    from_yaml defaults state = Ok ch /\
    Permutation
      (combine (delays ch) (combine (power_profile ch) (rice_factors ch)))
      (combine d (combine (map db2lin stored) ks)) /\
    length (power_profile ch) = length stored /\
    Forall (fun x => 0 < x) (power_profile ch).
Proof.
  intros Hd Hp Hk (_ & Ha & Hg & Hl & Hh & Hns & Hla & Hdf & Hldf & Hi)
    E1 E2 Hlen Hnd Hnk.
  assert (Hpos : Forall (fun x => 0 < x) (map db2lin stored)).
  { apply Forall_forall; intros x Hx; apply in_map_iff in Hx as [y [<- _]].
    apply db2lin_pos. }
  unfold from_yaml, construct.
  rewrite (convert_power_profile_other "delays") by discriminate.
  rewrite (convert_power_profile_other "rice_factors") by discriminate.
  rewrite (convert_power_profile_other "num_sinusoids") by discriminate.
  rewrite (convert_power_profile_other "interpolate_signals") by discriminate.
  rewrite !float_kw_convert by discriminate.
  rewrite channel_kwargs_convert.
  rewrite convert_power_profile_same, Hd, Hp, Hk, !bind_ok.
  destruct (float_kw_typed _ _ Hla) as [la ->].
  destruct (float_kw_typed _ _ Hdf) as [df ->].
  destruct (float_kw_typed _ _ Hldf) as [ldf ->].
  destruct (channel_kwargs_typed defaults state Ha Hg Hl Hh) as [kw ->].
  assert (Hnum : exists ns,
             match lookup "num_sinusoids" state with
             | None | Some YNone => Ok None
             | Some (YInt z) => Ok (Some z)
             | Some _ => Raise TypeError
             end = Ok ns).
  { unfold entry_is in Hns.
    destruct (lookup "num_sinusoids" state) as [[| | | | |]|]; simpl in Hns;
      try discriminate; eexists; reflexivity. }
  assert (Hint : exists interp,
             match lookup "interpolate_signals" state with
             | None | Some YNone => Ok None
             | Some (YBool b) => Ok (Some b)
             | Some _ => Raise TypeError
             end = Ok interp).
  { unfold entry_is in Hi.
    destruct (lookup "interpolate_signals" state) as [[| | | | |]|];
      simpl in Hi; try discriminate; eexists; reflexivity. }
  destruct Hnum as [ns ->]; destruct Hint as [interp ->].
  rewrite !bind_ok.
  destruct (init_validate d (map db2lin stored) ks ns la df ldf interp kw)
    as [[_ [ch Hinit]]|[Hv _]].
  - exists ch; split; [exact Hinit|].
    destruct (init_paths_permutation _ _ _ _ _ _ _ _ _ _ Hinit) as [Hperm _].
    destruct (init_ok_inv _ _ _ _ _ _ _ _ _ _ Hinit) as (_ & _ & Hpw & _).
    split; [exact Hperm|].
    rewrite Hpw, take_length, argsort_length; split; [exact E1|].
    apply take_Forall; [|exact Hpos].
    intros i Hin; apply argsort_bound in Hin; rewrite length_map; lia.
  - rewrite validate_intro in Hv; try discriminate; try assumption.
    + rewrite length_map; exact E1.
    + rewrite length_map; exact E2.
    + apply Forall_forall; intros x Hx; rewrite Forall_forall in Hpos.
      left; apply Hpos; exact Hx.
Qed.

Lemma from_yaml_power_profile_witness :
  exists ch : MultipathFadingChannel,
    from_yaml siso [("delays"%string, YSeq [0]);
                    ("power_profile"%string, YSeq [-3]);
                    ("num_sinusoids"%string, YInt 4);
                    ("rice_factors"%string, YSeqInf [Finite 0])] = Ok ch /\
    Permutation
      (combine (delays ch) (combine (power_profile ch) (rice_factors ch)))
      (combine [0] (combine (map db2lin [-3]) [Finite 0])) /\
    Forall (fun x => 0 < x) (power_profile ch).
Proof.
  destruct (from_yaml_power_profile siso
              [("delays"%string, YSeq [0]);
               ("power_profile"%string, YSeq [-3]);
               ("num_sinusoids"%string, YInt 4);
               ("rice_factors"%string, YSeqInf [Finite 0])]
              [0] [-3] [Finite 0] eq_refl eq_refl eq_refl)
    as (ch & Hch & Hperm & _ & Hpos);
    try reflexivity; try (simpl; lia); try solve_forall.
  - unfold optional_entries_typed, entry_is; simpl.
    repeat split; repeat constructor; simpl; tauto.
  - exists ch; auto.
Defined.

(** ** Decibels *)

Lemma ln_10_pos : 0 < ln 10.
Proof. rewrite <- ln_1; apply ln_increasing; lra. Qed.

Lemma log10_Rpower (c y : R) :
  c <> 0 -> MathTools.log10 (Rpower 10 (y / c)) = MathTools.LogReal (y / c).
Proof.
  intros Hc; unfold MathTools.log10.
  assert (Hpos : 0 < Rpower 10 (y / c)) by (unfold Rpower; apply exp_pos).
  destruct (Rlt_dec 0 (Rpower 10 (y / c))); [|contradiction].
  unfold Rpower; rewrite ln_exp.
  f_equal; field; pose proof ln_10_pos; lra.
Qed.

Lemma Rpower_log10 (v : R) : 0 < v -> Rpower 10 (ln v / ln 10) = v.
Proof.
  intros Hv; unfold Rpower.
  replace (ln v / ln 10 * ln 10) with (ln v)
    by (field; pose proof ln_10_pos; lra).
  apply exp_ln; exact Hv.
Qed.

(** For power and for amplitude ratios [lin2db] undoes [db2lin] on every
    decibel value and [db2lin] undoes [lin2db] on every positive ratio;
    [lin2db] yields a real number on positive ratios only; the third
    conversion type is refused by both with [ValueError]. *)
Theorem db_round_trip (conversion_type : MathTools.DbConversionType) :
  (conversion_type <> MathTools.HILLY ->
   (forall db_val : R,
      exists val,
        MathTools.db2lin db_val conversion_type = Ok val /\ 0 < val /\
        MathTools.lin2db val conversion_type = Ok (MathTools.LogReal db_val)) /\
   (forall val : R,
      0 < val ->
      exists db_val,
        MathTools.lin2db val conversion_type = Ok (MathTools.LogReal db_val) /\
        MathTools.db2lin db_val conversion_type = Ok val) /\
   (forall val db_val : R,
      MathTools.lin2db val conversion_type = Ok (MathTools.LogReal db_val) ->
      0 < val)) /\
  (conversion_type = MathTools.HILLY ->
   forall x : R,
     raises (MathTools.db2lin x conversion_type) ValueError /\
     raises (MathTools.lin2db x conversion_type) ValueError).
Proof.
  split.
  - intros Hct; split; [|split].
    + intros db_val; destruct conversion_type; [| |contradiction];
        eexists; (split; [reflexivity|]);
        (split; [unfold Rpower; apply exp_pos|]);
        unfold MathTools.lin2db; rewrite log10_Rpower by lra; simpl;
        do 2 f_equal; field.
    + intros val Hval; destruct conversion_type; [| |contradiction];
        unfold MathTools.lin2db, MathTools.log10;
        (destruct (Rlt_dec 0 val); [|contradiction]);
        eexists; (split; [reflexivity|]); unfold MathTools.db2lin; f_equal.
      * replace (10 * (ln val / ln 10) / 10) with (ln val / ln 10)
          by (field; pose proof ln_10_pos; lra).
        apply Rpower_log10; exact Hval.
      * replace (20 * (ln val / ln 10) / 20) with (ln val / ln 10)
          by (field; pose proof ln_10_pos; lra).
        apply Rpower_log10; exact Hval.
    + intros val db_val; destruct conversion_type; [| |contradiction];
        unfold MathTools.lin2db, MathTools.log10;
        (destruct (Rlt_dec 0 val); [intros _; assumption|]);
        (destruct (Req_dec_T val 0); discriminate).
  - intros -> x; split; reflexivity.
Qed.

Lemma db_round_trip_witness :
  (exists val,
     MathTools.db2lin 3 MathTools.POWER = Ok val /\ 0 < val /\
     MathTools.lin2db val MathTools.POWER = Ok (MathTools.LogReal 3)) /\
  (exists db_val,
     MathTools.lin2db 2 MathTools.AMPLITUDE = Ok (MathTools.LogReal db_val) /\
     MathTools.db2lin db_val MathTools.AMPLITUDE = Ok 2) /\
  raises (MathTools.db2lin 3 MathTools.HILLY) ValueError.
Proof.
  split; [|split].
  - apply (proj1 (db_round_trip MathTools.POWER)); discriminate.
  - apply (proj1 (db_round_trip MathTools.AMPLITUDE)); [discriminate | lra].
  - apply (proj2 (db_round_trip MathTools.HILLY) eq_refl 3).
Defined.

(** Decibels add where ratios multiply: [db2lin] sends a sum to the product
    and zero to one, it is strictly increasing, and the square of the
    amplitude ratio of a decibel value is its power ratio. *)
Theorem db2lin_laws (a b : R) :
  (forall ct va vb,
     MathTools.db2lin a ct = Ok va -> MathTools.db2lin b ct = Ok vb ->
     MathTools.db2lin (a + b) ct = Ok (va * vb) /\
     (a < b -> va < vb)) /\
  MathTools.db2lin 0 MathTools.POWER = Ok 1 /\
  MathTools.db2lin 0 MathTools.AMPLITUDE = Ok 1 /\
  (forall amplitude,
     MathTools.db2lin a MathTools.AMPLITUDE = Ok amplitude ->
     MathTools.db2lin a MathTools.POWER = Ok (amplitude * amplitude)).
Proof.
  split; [|split; [|split]].
  - intros ct va vb Ha Hb; destruct ct; simpl in *; try discriminate;
      injection Ha as <-; injection Hb as <-; split.
    + rewrite <- Rpower_plus; do 2 f_equal; field.
    + intros Hab; apply Rpower_lt; lra.
    + rewrite <- Rpower_plus; do 2 f_equal; field.
    + intros Hab; apply Rpower_lt; lra.
  - simpl; f_equal; unfold Rdiv; rewrite Rmult_0_l; apply Rpower_O; lra.
  - simpl; f_equal; unfold Rdiv; rewrite Rmult_0_l; apply Rpower_O; lra.
  - intros amplitude Ha; simpl in *; injection Ha as <-.
    rewrite <- Rpower_plus; do 2 f_equal; field.
Qed.

Lemma db2lin_laws_witness :
  MathTools.db2lin (3 + 7) MathTools.POWER =
    Ok (Rpower 10 (3 / 10) * Rpower 10 (7 / 10)) /\
  Rpower 10 (3 / 10) < Rpower 10 (7 / 10).
Proof.
  destruct (proj1 (db2lin_laws 3 7) MathTools.POWER _ _ eq_refl eq_refl)
    as [Hs Hlt].
  split; [exact Hs | apply Hlt; lra].
Defined.

(** ** Paths given in ascending order *)

Lemma argsort_ascending (d : list R) :
  StronglySorted Rle d -> argsort d = seq 0 (length d).
Proof.
  intros Hs; unfold argsort.
  assert (H : forall len s, (s + len = length d)%nat ->
            fold_right (insert_idx d) [] (seq s len) = seq s len).
  { induction len as [|len IH]; intros s Hlen; [reflexivity|].
    simpl; rewrite IH by lia.
    destruct len as [|len]; [reflexivity|].
    simpl; unfold Rleb.
    destruct (Rle_dec (nth s d 0) (nth (S s) d 0)) as [_|Hgt]; [reflexivity|].
    exfalso; apply Hgt.
    apply (sorted_nth_error d Hs s (S s)); [lia | |];
      apply nth_error_nth'; lia. }
  apply H; reflexivity.
Qed.

Lemma StronglySorted_Rlt_Rle (d : list R) :
  StronglySorted Rlt d -> StronglySorted Rle d.
Proof.
  induction 1 as [|a l Hs IH Ha]; constructor; [exact IH|].
  rewrite Forall_forall in Ha |- *; intros x Hx; specialize (Ha x Hx); lra.
Qed.

(** The constructor stores the delays as they were given exactly when they
    were given in ascending order; when they were strictly ascending the
    powers and the Rice factors keep their places too. *)
Theorem init_keeps_sorted_paths
    (d p : list R) (k : list xreal) (ns : option Z) (la df ldf : option R)
    (interp : option bool) (kw : Channel) (ch : MultipathFadingChannel) :
  init d p k ns la df ldf interp kw = Ok ch ->
  (delays ch = d <-> StronglySorted Rle d) /\
  (StronglySorted Rlt d -> power_profile ch = p /\ rice_factors ch = k).
Proof.
  intros Hinit.
  destruct (init_ok_inv _ _ _ _ _ _ _ _ _ _ Hinit)
    as (Hv & Hd & Hp & Hk & _).
  apply validate_ok_iff in Hv as (E1 & E2 & _).
  split; [split|].
  - intros <-; rewrite Hd; apply take_sorted, argsort_sorted.
  - intros Hs; rewrite Hd, (argsort_ascending d Hs).
    apply map_nth_seq.
  - intros Hs; apply StronglySorted_Rlt_Rle in Hs.
    rewrite Hp, Hk, (argsort_ascending d Hs); unfold take; split.
    + rewrite E1; apply map_nth_seq.
    + rewrite E1, E2; apply map_nth_seq.
Qed.

Lemma init_keeps_sorted_paths_witness :
  ~ StronglySorted Rle [1; 0] /\
  exists ch,
    init [0; 1] [2; 1] [PosInf; Finite 1] None None None None None siso = Ok ch /\
    delays ch = [0; 1] /\ power_profile ch = [2; 1] /\
    rice_factors ch = [PosInf; Finite 1].
Proof.
  split.
  - intros Hs.
    apply (proj1 (init_keeps_sorted_paths _ _ _ _ _ _ _ _ _ _ init_two_paths))
      in Hs.
    simpl in Hs; injection Hs as H0 _; lra.
  - destruct (init_validate [0; 1] [2; 1] [PosInf; Finite 1]
                None None None None None siso) as [[_ [ch Hch]]|[Hv _]].
    + exists ch; split; [exact Hch|].
      destruct (init_keeps_sorted_paths _ _ _ _ _ _ _ _ _ _ Hch) as [Hd Hpk].
      assert (Hs : StronglySorted Rlt [0; 1]).
      { repeat constructor; lra. }
      split; [apply Hd, StronglySorted_Rlt_Rle, Hs | apply Hpk, Hs].
    + rewrite validate_intro in Hv
        by (try reflexivity; try (simpl; lia); solve_forall).
      discriminate.
Defined.


(** ** One path, one tap *)

Lemma Cadd_comm (a b : C) : Cadd a b = Cadd b a.
Proof. unfold Cadd; f_equal; ring. Qed.

Lemma nth_error_firstn_skipn {A : Type} (l : list A) (i : nat) (e : A) :
  nth_error l i = Some e -> l = firstn i l ++ e :: skipn (S i) l.
Proof.
  revert i; induction l as [|x l IH]; intros [|i] H; simpl in *;
    try discriminate.
  - injection H as ->; reflexivity.
  - f_equal; apply IH; exact H.
Qed.

Lemma Csum_middle {A : Type} (f : A -> C) (l1 l2 : list A) (e : A) :
  Csum (map f (l1 ++ e :: l2)) = Cadd (f e) (Csum (map f (l1 ++ l2))).
Proof.
  induction l1 as [|x l1 IH]; simpl; [reflexivity|].
  rewrite IH, <- !Cadd_assoc, (Cadd_comm (f x) (f e)); reflexivity.
Qed.

Lemma nth_error_combine_intro {A B : Type} (l1 : list A) (l2 : list B) (i : nat)
    (x : A) (y : B) :
  nth_error l1 i = Some x -> nth_error l2 i = Some y ->
  nth_error (combine l1 l2) i = Some (x, y).
Proof.
  revert l2 i; induction l1 as [|a l1 IH]; intros [|b l2] [|i]; simpl;
    try discriminate.
  - intros E1 E2; injection E1 as <-; injection E2 as <-; reflexivity.
  - apply IH.
Qed.

Lemma path_table_entry (ch : MultipathFadingChannel) (path_idx : nat)
    (delay power los_gain nlos_gain : R) :
  well_formed ch ->
  nth_error (delays ch) path_idx = Some delay ->
  nth_error (power_profile ch) path_idx = Some power ->
  nth_error (los_gains ch) path_idx = Some los_gain ->
  nth_error (non_los_gains ch) path_idx = Some nlos_gain ->
  nth_error (path_table ch) path_idx =
  Some (power, (path_idx, (los_gain, nlos_gain))).
Proof.
  intros (_ & _ & _ & _ & _ & _ & Hnum & _) Hd Hp Hl Hn; unfold path_table.
  repeat apply nth_error_combine_intro; try assumption.
  rewrite nth_error_seq, Hnum.
  assert (Hlt : (path_idx < length (delays ch))%nat)
    by (apply nth_error_Some; rewrite Hd; discriminate).
  apply Nat.ltb_lt in Hlt; rewrite Hlt; reflexivity.
Qed.

(** C5: without interpolation [impulse_response] deposits the gain sequence
    of every path entirely into the delay tap [floor(delay * sampling_rate)]:
    for a path of a constructed channel and an antenna pair, the tap lies
    inside the returned tensor, the entries of the pair at that tap hold
    [sqrt(power)] times the path's gain sequence, sample by sample, on top of
    what the other paths deposit there, and at every other tap the path
    adds nothing. *)
Theorem nearest_sample_single_tap
    (d p : list R) (k : list xreal) (ns : option Z) (la df ldf : option R)
    (interp : option bool) (kw : Channel) (ch : MultipathFadingChannel)
    (num_samples : nat) (sampling_rate : R) (g : rng_state)
    (path_idx : nat) (delay power los_gain nlos_gain : R)
    (rx_idx tx_idx : nat) :
  init d p k ns la df ldf interp kw = Ok ch ->
  (0 < num_sinusoids ch)%Z -> 0 < sampling_rate ->
  impulse_response_interpolation kw = false ->
  transmitter_num_antennas kw = receiver_num_antennas kw ->
  nth_error (delays ch) path_idx = Some delay ->
  nth_error (power_profile ch) path_idx = Some power ->
  nth_error (los_gains ch) path_idx = Some los_gain ->
  nth_error (non_los_gains ch) path_idx = Some nlos_gain ->
  (rx_idx < receiver_num_antennas kw)%nat ->
  (tx_idx < transmitter_num_antennas kw)%nat ->
  0 <= delay /\
  (0 <= floor (delay * sampling_rate)
     <= floor (max_delay ch * sampling_rate))%Z /\
  exists (h : ndarray4) (g' : rng_state) (w : list C),
    impulse_response ch num_samples sampling_rate g = Ok (h, g') /\
    Z.of_nat (dim3 h) = (floor (max_delay ch * sampling_rate) + 1)%Z /\
    tap ch (timestamps_of num_samples sampling_rate) los_gain nlos_gain
        (tap_stream ch g path_idx rx_idx tx_idx) =
      Ok (w, advance (tap_stream ch g path_idx rx_idx tx_idx) (draws_per_tap ch)) /\
    length w = num_samples /\
    forall (n delay_idx : nat) (wn : C),
      nth_error w n = Some wn ->
      (Z.of_nat delay_idx <= floor (max_delay ch * sampling_rate))%Z ->
      item h n rx_idx tx_idx delay_idx =
      Some (Cscale (gain kw)
              (Cadd (if (Z.of_nat delay_idx =? floor (delay * sampling_rate))%Z
                     then Cscale (sqrt power) wn
                     else C0)
                    (Csum (map (path_term ch sampling_rate g
                                          (INR n / sampling_rate)
                                          rx_idx tx_idx delay_idx)
                               (firstn path_idx (path_table ch)
                                ++ skipn (S path_idx) (path_table ch)))))).
Proof.
  intros Hinit Hns Hfs Hint Heq Hd Hp Hl Hn Hrx Htx.
  assert (Hfs0 : 0 <= sampling_rate) by lra.
  pose proof (init_well_formed _ _ _ _ _ _ _ _ _ _ Hinit) as Hwf.
  destruct (init_ok_inv _ _ _ _ _ _ _ _ _ _ Hinit)
    as (_ & _ & _ & _ & _ & _ & _ & Hb).
  destruct (max_delay_facts _ _ _ _ _ _ _ _ _ _ Hinit) as (Hmax & _).
  destruct (delay_index_bounds ch sampling_rate path_idx delay (max_delay ch)
              Hwf Hfs0 Hd Hmax) as [_ Hbound].
  assert (H0 : 0 <= delay).
  { destruct Hwf as (_ & Hnn & _).
    apply nth_error_In in Hd; rewrite Forall_forall in Hnn; apply Hnn; exact Hd. }
  destruct (last_item_nth _ (proj1 Hwf)) as [last [Hlast Hnth]].
  rewrite Hmax in Hlast; injection Hlast as <-.
  destruct (delay_index_bounds ch sampling_rate _ (max_delay ch) (max_delay ch)
              Hwf Hfs0 Hnth Hmax) as [Hint_last _].
  rewrite Hint_last in Hbound.
  split; [exact H0|]; split; [lia|].
  destruct (impulse_response_nearest_closed ch num_samples sampling_rate g
              Hwf Hns Hfs0)
    as (last & h & Hlast & Hir & _ & D0 & D1 & D2 & D3 & Hitem);
    [rewrite Hb; exact Hint | rewrite Hb; exact Heq |].
  rewrite Hmax in Hlast; injection Hlast as <-.
  rewrite Hb in *.
  exists h; eexists;
    exists (map (tap_sample ch los_gain nlos_gain
                   (tap_stream ch g path_idx rx_idx tx_idx))
                (timestamps_of num_samples sampling_rate)).
  split; [exact Hir|]; split; [exact D3|].
  split; [apply tap_closed_form; exact Hns|].
  split; [rewrite length_map; apply timestamps_length|].
  intros n j wn Hw Hj.
  assert (Hlt : (n < num_samples)%nat).
  { assert (Hsome : nth_error
              (map (tap_sample ch los_gain nlos_gain
                      (tap_stream ch g path_idx rx_idx tx_idx))
                   (timestamps_of num_samples sampling_rate)) n <> None)
      by (rewrite Hw; discriminate).
    apply nth_error_Some in Hsome.
    rewrite length_map, timestamps_length in Hsome; exact Hsome. }
  unfold timestamps_of in Hw; rewrite map_map, nth_error_map in Hw.
  rewrite nth_error_seq in Hw.
  apply Nat.ltb_lt in Hlt as Hltb; rewrite Hltb in Hw; simpl in Hw.
  injection Hw as <-.
  rewrite Hitem by lia.
  pose proof (path_table_entry ch path_idx delay power los_gain nlos_gain
                Hwf Hd Hp Hl Hn) as He.
  rewrite (nth_error_firstn_skipn _ _ _ He) at 1.
  rewrite Csum_middle.
  do 3 f_equal.
  unfold path_term at 1.
  rewrite (nth_error_nth _ _ 0 Hd); reflexivity.
Qed.

Lemma nearest_sample_single_tap_witness :
  0 <= 1 /\
  (0 <= floor (1 * 2) <= floor (max_delay two_paths * 2))%Z /\
  exists (h : ndarray4) (g' : rng_state) (w : list C),
    impulse_response two_paths 3 2 (constant_rng 0) = Ok (h, g') /\
    tap two_paths (timestamps_of 3 2) (sqrt (1 / (1 + 1))) (1 / sqrt (1 + 1))
        (tap_stream two_paths (constant_rng 0) 1 0 0) =
      Ok (w, advance (tap_stream two_paths (constant_rng 0) 1 0 0)
                     (draws_per_tap two_paths)) /\
    length w = 3%nat.
Proof.
  destruct (nearest_sample_single_tap _ _ _ _ _ _ _ _ _ two_paths 3 2
              (constant_rng 0) 1%nat 1 1 (sqrt (1 / (1 + 1))) (1 / sqrt (1 + 1))
              0%nat 0%nat init_two_paths)
    as (H0 & Hb & h & g' & w & Hir & _ & Htap & Hlen & _);
    try reflexivity; try lra; try (simpl; lia).
  split; [exact H0|]; split; [exact Hb|].
  exists h, g', w; auto.
Defined.
